(** * jinx: genetic-algorithm engine and iteration utilities

    A shallow embedding of the parts of

      - [optimization/evolutionary/geneticalgorithms.py]
      - [Auxiliary/moreitertools.py]

    that the properties below talk about.  Python integers are [Z],
    [Fraction]s are [Q], floats are binary64 values with their rounding,
    lists/tuples/strings are [list]s, [None]-able arguments are
    [option]s, and a raised exception is the left injection of a sum.
    Random draws are explicit arguments. *)

From Stdlib Require Import ZArith QArith Qround Qminmax.
From Stdlib Require Import List String Ascii Bool Lia.
From Stdlib Require Import Sorting.Sorted Sorting.Permutation.
From Stdlib Require Import Qpower Lqa.
Import ListNotations.

Local Open Scope Z_scope.

(* ================================================================== *)
(** ** Python primitives *)
(* ================================================================== *)

Module Py.

(** The built-in exception classes that the embedded code can raise. *)
Inductive exn : Type :=
| AttributeError
| TypeError
| ValueError
| KeyError
| UnboundLocalError
| ZeroDivisionError
| IndexError
| OverflowError.

(** A computation that returns or raises. *)
Definition result (A : Type) : Type := (exn + A)%type.

Definition ret {A} (a : A) : result A := inr a.
Definition raise {A} (e : exn) : result A := inl e.
Definition bind {A B} (m : result A) (f : A -> result B) : result B :=
  match m with
  | inl e => inl e
  | inr a => f a
  end.

Declare Scope py_scope.
Delimit Scope py_scope with py.
Notation "x <- m ;; k" := (bind m (fun x => k))
  (at level 61, m at next level, right associativity) : py_scope.
Notation "' pat <- m ;; k" :=
  (bind m (fun x => match x with pat => k end))
  (at level 61, pat pattern, m at next level, right associativity) : py_scope.

(** [seq[i]] as an index into a sequence of length [len]: negative
    indices count from the end, and slice bounds are clamped. *)
Definition clamp_index (len i : Z) : Z :=
  if i <? 0 then Z.max 0 (len + i) else Z.min i len.

(** [l[i]]: a negative index counts from the end. *)
Definition getitem {A} (l : list A) (i : Z) : result A :=
  let n := Z.of_nat (List.length l) in
  let j := if i <? 0 then n + i else i in
  if (j <? 0) || (n <=? j) then inl IndexError
  else match nth_error l (Z.to_nat j) with
       | Some x => inr x
       | None => inl IndexError
       end.

(** The slice [l[lo:hi]] (step 1); [None] is an omitted bound. *)
Definition slice {A} (l : list A) (lo hi : option Z) : list A :=
  let n := Z.of_nat (List.length l) in
  let a := match lo with None => 0 | Some i => clamp_index n i end in
  let b := match hi with None => n | Some j => clamp_index n j end in
  firstn (Z.to_nat (b - a)) (skipn (Z.to_nat a) l).

(** [sorted(l, key=key)]: ascending and stable.  [leb] is [<=] on keys. *)
Section Sorted.
Context {A K : Type} (leb : K -> K -> bool) (key : A -> K).

Fixpoint insert (x : A) (l : list A) : list A :=
  match l with
  | [] => [x]
  | y :: ys => if leb (key x) (key y) then x :: y :: ys
               else y :: insert x ys
  end.

Fixpoint sorted (l : list A) : list A :=
  match l with
  | [] => []
  | x :: xs => insert x (sorted xs)
  end.

(** [max(l, key=key)]: the first element with a maximal key;
    [ValueError] on an empty sequence. *)
Fixpoint max_from (best : A) (l : list A) : A :=
  match l with
  | [] => best
  | x :: xs => if leb (key x) (key best) then max_from best xs
               else max_from x xs
  end.

Definition max (l : list A) : result A :=
  match l with
  | [] => raise ValueError
  | x :: xs => ret (max_from x xs)
  end.

End Sorted.

(** Private name mangling: inside [class cls], an identifier [__x] that
    does not end in two underscores is rewritten to [_cls__x] (the class
    name loses its leading underscores).  It applies to the strings of
    [__slots__] as well as to [self.__x]. *)
Fixpoint lstrip_underscores (s : string) : string :=
  match s with
  | String "_" s' => lstrip_underscores s'
  | _ => s
  end.

Definition has_prefix (p s : string) : bool := String.prefix p s.

Definition has_suffix (p s : string) : bool :=
  let n := String.length s in
  let k := String.length p in
  (k <=? n)%nat && String.eqb (String.substring (n - k) k s) p.

Definition mangle (cls name : string) : string :=
  if has_prefix "__" name && negb (has_suffix "__" name)
  then match lstrip_underscores cls with
       | EmptyString => name
       | stripped => ("_" ++ stripped ++ name)%string
       end
  else name.

End Py.

Import Py.
Local Open Scope py_scope.

(* ================================================================== *)
(** ** Auxiliary/moreitertools.py *)
(* ================================================================== *)

Module MoreIterTools.

(** [max_n] returns a single element when [n == 1] and a list otherwise. *)
Inductive one_or_many (A : Type) : Type :=
| One (x : A)
| Many (xs : list A).
Arguments One {A} x.
Arguments Many {A} xs.

Section MaxN.
Context {A : Type} (key : A -> Z).

(** [max_n(iterable, n=n, key=key)]: with a single positional argument
    [__extract_args] yields the elements of that iterable.  Without a
    [key] the elements are compared themselves ([key] is the identity). *)
Definition max_n (iterable : list A) (n : Z) : result (one_or_many A) :=
  if n =? 1 then
    x <- Py.max Z.leb key iterable ;; ret (One x)
  else
    ret (Many (slice (sorted Z.leb key iterable) None (Some n))).

(** What the docstring promises ("the n largest elements"): [res] holds
    [n] elements of [l], none of them smaller than an element left out. *)
Definition n_largest (l : list A) (n : Z) (res : list A) : Prop :=
  Z.of_nat (List.length res) = n /\
  exists rest, Permutation (res ++ rest) l /\
    forall x y, In x res -> In y rest -> key y <= key x.

End MaxN.

End MoreIterTools.

(* ================================================================== *)
(** ** optimization/evolutionary/geneticalgorithms.py: gene bases and
       the encoder constructor *)
(* ================================================================== *)

Module Encoder.

(** [@dataclass(frozen=True) class BitStringBase]. *)
Record BitStringBase : Type := {
  name : string;
  format_ : string;
  bits : Z
}.

(** [class BitStringBaseTypes(enum.Enum)] and the [value] of its members. *)
Inductive BitStringBaseTypes : Type := bin | oct | hex.

Definition value (m : BitStringBaseTypes) : BitStringBase :=
  match m with
  | bin => {| name := "binary"; format_ := "b"; bits := 1 |}
  | oct => {| name := "octal"; format_ := "o"; bits := 3 |}
  | hex => {| name := "hexadecimal"; format_ := "x"; bits := 4 |}
  end.

(** The enum's member map, keyed by member name. *)
Definition member_map : list (string * BitStringBaseTypes) :=
  [("bin"%string, bin); ("oct"%string, oct); ("hex"%string, hex)].

(** The Python values that can be passed as [base]. *)
#[warnings="-register-all"]
Inductive pyval : Type :=
| PNone
| PInt (z : Z)
| PStr (s : string)
| PList (items : list pyval)
| PTuple (items : list pyval)
| PMember (m : BitStringBaseTypes)
| PArbitraryBase (name : string) (values : pyval).

Definition isinstance_str (v : pyval) : bool :=
  match v with PStr _ => true | _ => false end.

(** [hash(v)] succeeds: lists are unhashable, a tuple and a frozen
    dataclass hash their components. *)
Fixpoint hashable (v : pyval) : bool :=
  match v with
  | PList _ => false
  | PTuple items => forallb hashable items
  | PArbitraryBase _ values => hashable values
  | _ => true
  end.

(** [BitStringBaseTypes[key]]: a dictionary lookup in the member map.
    Hashing an unhashable key raises [TypeError]; a key that is not one
    of the three names raises [KeyError].  Only a string compares equal
    to a string key. *)
Definition BitStringBaseTypes_getitem (key : pyval)
  : result BitStringBaseTypes :=
  if negb (hashable key) then raise TypeError
  else match key with
       | PStr s =>
           match find (fun kv => String.eqb (fst kv) s) member_map with
           | Some kv => ret (snd kv)
           | None => raise KeyError
           end
       | _ => raise KeyError
       end.

(** The gene base stored by the encoder. *)
Inductive GeneBase : Type :=
| OfBitString (b : BitStringBase)
| OfArbitrary (name : string) (values : pyval).

Record GeneticEncoder : Type := {
  chromosome_length : Z;
  base : GeneBase
}.

(** [GeneticEncoder.__init__(self, chromosome_length, chunks, base)]. *)
Definition init (chromosome_length : Z) (chunks : option Z) (base : pyval)
  : result GeneticEncoder :=
  let self b := {| chromosome_length := chromosome_length; base := b |} in
  if negb (isinstance_str base) then
    m <- BitStringBaseTypes_getitem base ;;
    ret (self (OfBitString (value m)))
  else
    match base with
    | PMember m => ret (self (OfBitString (value m)))
    | PList _ => ret (self (OfArbitrary "arbitrary" base))
    | PArbitraryBase n vs => ret (self (OfArbitrary n vs))
    | _ => raise TypeError
    end.

End Encoder.

(* ================================================================== *)
(** ** Recombinators *)
(* ================================================================== *)

Module Recombinator.

(** [numpy.random.randint(low, high)]: an integer of the half-open range
    [low <= x < high], [ValueError] when the range is empty.  [draw] is
    the raw random number that the generator reduces into the range. *)
Definition randint (draw low high : Z) : result Z :=
  if low <? high then ret (low + draw mod (high - low))
  else raise ValueError.

Section PointCrossOver.
Context {G : Type}.

(** The two offspring for given cut points. *)
Definition splice (chromosome_1 chromosome_2 : list G)
  (left_point right_point : Z) : list G * list G :=
  (slice chromosome_1 None (Some left_point)
     ++ slice chromosome_2 (Some left_point) (Some right_point)
     ++ slice chromosome_1 (Some right_point) None,
   slice chromosome_2 None (Some left_point)
     ++ slice chromosome_1 (Some left_point) (Some right_point)
     ++ slice chromosome_2 (Some right_point) None).

(** The two [randint] calls of [PointCrossOver.recombine]. *)
Definition cut_points (draw_1 draw_2 : Z) (length : Z) : result (Z * Z) :=
  left_point <- randint draw_1 0 length ;;
  right_point <- randint draw_2 left_point length ;;
  ret (left_point, right_point).

(** [PointCrossOver.recombine(self, chromosome_1, chromosome_2)]. *)
Definition recombine (draw_1 draw_2 : Z) (chromosome_1 chromosome_2 : list G)
  : result (list G * list G) :=
  '(left_point, right_point) <-
     cut_points draw_1 draw_2 (Z.of_nat (List.length chromosome_1)) ;;
  ret (splice chromosome_1 chromosome_2 left_point right_point).

End PointCrossOver.

End Recombinator.

(* ================================================================== *)
(** ** Selectors *)
(* ================================================================== *)

Module Selector.

Local Open Scope Q_scope.

(** [range(n)]. *)
Definition range (n : Z) : list Z :=
  map Z.of_nat (seq 0 (Z.to_nat n)).

Definition Qsum (l : list Q) : Q := fold_right Qplus 0 l.

(** The probability vector that [RankedSelector.select] hands to the
    generator.  The source computes [i / rank_sum] in floating point and
    converts it to a [Fraction]; here the quotient is exact. *)
Definition rank_sum (pop_size : Z) : Q :=
  inject_Z (pop_size + 1) * (inject_Z pop_size / 2).

Definition ranks (pop_size : Z) : list Q :=
  map (fun i => inject_Z i / rank_sum pop_size) (range pop_size).

Section Choice.
Context {A : Type}.

(** Inverse-CDF sampling of one element for a uniform [u] in [0, 1). *)
Fixpoint pick (a : list A) (p : list Q) (u : Q) : option A :=
  match a, p with
  | x :: a', w :: p' =>
      if Qle_bool w u
      then match pick a' p' (u - w) with Some y => Some y | None => Some x end
      else Some x
  | _, _ => None
  end.

(** [Generator.choice(a, size, p=p)] along the first axis, with
    replacement.  NumPy rejects an empty [a], a [p] of another length, a
    negative weight and weights that do not sum to one. *)
Definition choice (uniforms : list Q) (a : list A) (size : Z) (p : list Q)
  : result (list A) :=
  match a with
  | [] => raise ValueError
  | x0 :: _ =>
      if negb (Nat.eqb (List.length p) (List.length a)) then raise ValueError
      else if existsb (fun w => negb (Qle_bool 0 w)) p then raise ValueError
      else if negb (Qeq_bool (Qsum p) 1) then raise ValueError
      else ret (map (fun u => match pick a p u with
                              | Some x => x
                              | None => x0
                              end)
                    (firstn (Z.to_nat size) uniforms))
  end.

End Choice.

(** [RankedSelector.select(self, population, fitness, quantity)]: the
    rows that the generator draws from [getitem_zip(population, fitness)]
    (the source wraps each row in a one-element tuple). *)
Definition RankedSelector_select {A} (uniforms : list Q)
  (population : list A) (fitness : list Q) (quantity : Z)
  : result (list (A * Q)) :=
  let pop_size := Z.of_nat (List.length population) in
  choice uniforms (combine population fitness) quantity (ranks pop_size).

End Selector.

(* ================================================================== *)
(** ** Decay functions *)
(* ================================================================== *)

Module Decay.

Local Open Scope Q_scope.

Definition Qltb (a b : Q) : bool := negb (Qle_bool b a).

(** The decay schedules in exact rational arithmetic, as the run loop
    below threads them: there a decayed bias only reaches the operators,
    which are arbitrary.  The schedules as Python computes them, partly
    in floating point, are in [Schedule]. *)
Definition linear_decay (diversity_bias decay : Q) : Q :=
  let x := diversity_bias - decay in
  if Qltb 0 x then x else 0.

Definition exponential_decay (diversity_bias decay : Q) : Q :=
  diversity_bias * (1 - decay).

End Decay.

(* ================================================================== *)
(** ** Python floats *)
(* ================================================================== *)

Module Binary64.

(** Python's [float] is the IEEE 754 binary64 format.  Its finite values
    are the whole multiples [n * 2^-1074] whose [n] has at most 53
    significant bits and is below [2^2098] in size; [Finite n] stands for
    [n * 2^-1074].  The sign of a zero is not kept: no operation used
    here tells the two zeros apart. *)
Inductive float : Type :=
| Finite (n : Z)
| Infinity (negative : bool)
| NaN.

(** The numbers [1] and [2^1024] in units of [2^-1074]. *)
Definition one_units : Z := 2 ^ 1074.
Definition overflow_units : Z := 2 ^ 2098.

(** The nearest integer, the even one of two that are equally near. *)
Definition round_half_even (m : Q) : Z :=
  let f := Qfloor m in
  match Qcompare (m - inject_Z f) (1 # 2) with
  | Lt => f
  | Gt => f + 1
  | Eq => if Z.even f then f else f + 1
  end.

(** The bits of [s >= 0], a number of units, beyond the 53 that the
    format keeps. *)
Definition shift (s : Q) : Z := Z.max (Z.log2 (Qfloor s) - 52) 0.

(** Rounding a number of units to the nearest value of the format with
    an unbounded exponent, ties to even. *)
Definition round_magnitude (s : Q) : Z :=
  let j := shift s in
  round_half_even (s / inject_Z (2 ^ j)) * 2 ^ j.

Definition round (s : Q) : Z :=
  if Decay.Qltb s 0 then - round_magnitude (- s) else round_magnitude s.

(** The float of an exact result of [s] units: a rounded magnitude of
    [2^1024] or more overflows to an infinity. *)
Definition of_units (s : Q) : float :=
  let n := round s in
  if overflow_units <=? Z.abs n then Infinity (n <? 0) else Finite n.

Definition zero : float := Finite 0.
Definition one : float := Finite one_units.

Definition opp (x : float) : float :=
  match x with
  | Finite n => Finite (- n)
  | Infinity negative => Infinity (negb negative)
  | NaN => NaN
  end.

(** [x + y], [x - y] and [x * y] on floats; they do not raise. *)
Definition add (x y : float) : float :=
  match x, y with
  | NaN, _ | _, NaN => NaN
  | Infinity a, Infinity b => if Bool.eqb a b then Infinity a else NaN
  | Infinity a, Finite _ => Infinity a
  | Finite _, Infinity b => Infinity b
  | Finite n, Finite m => of_units (inject_Z (n + m))
  end.

Definition sub (x y : float) : float := add x (opp y).

Definition mul (x y : float) : float :=
  match x, y with
  | NaN, _ | _, NaN => NaN
  | Infinity a, Infinity b => Infinity (xorb a b)
  | Infinity a, Finite m => if m =? 0 then NaN else Infinity (xorb a (m <? 0))
  | Finite n, Infinity b => if n =? 0 then NaN else Infinity (xorb (n <? 0) b)
  | Finite n, Finite m => of_units (inject_Z (n * m) / inject_Z one_units)
  end.

(** [x / y] on floats: a zero divisor raises. *)
Definition div (x y : float) : result float :=
  match y with
  | Finite 0 => raise ZeroDivisionError
  | _ =>
      ret match x, y with
          | NaN, _ | _, NaN => NaN
          | Infinity _, Infinity _ => NaN
          | Infinity a, Finite m => Infinity (xorb a (m <? 0))
          | Finite _, Infinity _ => Finite 0
          | Finite n, Finite m =>
              of_units (inject_Z (n * one_units) / inject_Z m)
          end
  end.

(** [x < y] on floats. *)
Definition ltb (x y : float) : bool :=
  match x, y with
  | NaN, _ | _, NaN => false
  | Finite n, Finite m => n <? m
  | Finite _, Infinity b => negb b
  | Infinity a, Finite _ => a
  | Infinity a, Infinity b => a && negb b
  end.

(** [float(q)] for a [Fraction] or an [int]: the correctly rounded
    quotient of numerator and denominator, [OverflowError] if that is out
    of range. *)
Definition of_Q (q : Q) : result float :=
  match of_units (q * inject_Z one_units) with
  | Infinity _ => raise OverflowError
  | x => ret x
  end.

(** A finite float [n] is in the format when rounding leaves it alone and
    it is within range. *)
Definition representable (n : Z) : Prop :=
  round (inject_Z n) = n /\ Z.abs n < overflow_units.

End Binary64.

(* ================================================================== *)
(** ** Decay functions, as Python computes them *)
(* ================================================================== *)

Module Schedule.

Import Binary64.

(** The numbers that the decay functions are given and return: a
    [Fraction] (an [int] behaves like one here) or a [float]. *)
Inductive real : Type :=
| Fraction (q : Q)
| Float (x : float).

(** The exact value of a number, if it has one. *)
Definition exact (x : real) : option Q :=
  match x with
  | Fraction q => Some q
  | Float (Finite n) => Some (inject_Z n / inject_Z one_units)%Q
  | Float _ => None
  end.

(** [float(x)]. *)
Definition to_float (x : real) : result float :=
  match x with
  | Fraction q => of_Q q
  | Float x => ret x
  end.

(** [a - b]: exact on two [Fraction]s; with a float on either side both
    operands are converted to floats. *)
Definition real_sub (a b : real) : result real :=
  match a, b with
  | Fraction p, Fraction q => ret (Fraction (p - q))
  | _, _ => x <- to_float a ;; y <- to_float b ;; ret (Float (sub x y))
  end.

(** [x > 0.0]; a [Fraction] is compared exactly. *)
Definition positive (x : real) : bool :=
  match x with
  | Fraction q => Decay.Qltb 0 q
  | Float x => ltb zero x
  end.

(** [max(0.0, diversity_bias - decay)]: the built-in [max] keeps its
    first argument, the float [0.0], unless the second is strictly
    greater. *)
Definition linear_decay (diversity_bias decay : real) : result real :=
  x <- real_sub diversity_bias decay ;;
  ret (if positive x then x else Float zero).

(** [diversity_bias * (1.0 - decay)]: [1.0 - decay] converts [decay] to
    a float, and the product with a float converts [diversity_bias]. *)
Definition exponential_decay (diversity_bias decay : real) : result real :=
  d <- to_float decay ;;
  x <- to_float diversity_bias ;;
  ret (Float (mul x (sub one d))).

Section Power.

(** [x ** y] on floats is the power function of the C library; it is
    left open here, with whatever it returns. *)
Context {P : Type}.
Variable float_pow : float -> float -> result P.


End Power.

(** [for _ in range(generations): value = schedule(value)]. *)
Fixpoint iterate (generations : nat) (schedule : real -> result real)
  (value : real) : result real :=
  match generations with
  | O => ret value
  | S generations =>
      value <- schedule value ;; iterate generations schedule value
  end.

End Schedule.

(* ================================================================== *)
(** ** GeneticSystem: construction *)
(* ================================================================== *)

Module Slots.

(** What a class statement fixes about the instances of the class: the
    names of their slots, and whether they have a [__dict__].  A class
    whose body defines [__slots__] adds those slots (private names are
    mangled with its own name) and no [__dict__] of its own; a class
    whose body does not define [__slots__] gives its instances a
    [__dict__]. *)
Record layout : Type := {
  slot_names : list string;
  has_dict : bool
}.

Definition class_name : string := "GeneticSystem".

(** [GeneticSystem.__slots__], as the class body writes it and as the
    class stores it. *)
Definition declared_slots : list string :=
  ["__encoder"; "__recombinator"; "__mutator"; "__random_generator"]%string.

Definition slots : list string := map (mangle class_name) declared_slots.



Section Instance.
Context {V : Type}.

(** An instance: the layout of its class and the attributes already
    bound, in a slot or in the [__dict__]. *)
Record instance : Type := {
  class_layout : layout;
  bound : list (string * V)
}.


(** The instance with [name] bound to [v]. *)
Definition store (obj : instance) (name : string) (v : V) : instance :=
  {| class_layout := class_layout obj;
     bound := (name, v)
                :: filter (fun kv => negb (String.eqb (fst kv) name))
                          (bound obj) |}.

(** [obj.name = v]: without a [__dict__] only a slot can be assigned. *)
Definition setattr (obj : instance) (name : string) (v : V)
  : result instance :=
  if existsb (String.eqb name) (slot_names (class_layout obj))
     || has_dict (class_layout obj)
  then ret (store obj name v)
  else raise AttributeError.


(** [self.__x = v] and [self.__x] inside the body of [GeneticSystem]:
    the name is mangled with the name of the class whose body holds the
    code, also when [self] is an instance of a subclass. *)
Definition set_private (self : instance) (name : string) (v : V)
  : result instance :=
  setattr self (mangle class_name name) v.


(** [GeneticSystem.__init__(self, encoder, selector, recombinator,
    mutator)]; [rng] is the value of [default_rng()]. *)
Definition init (self : instance)
  (encoder selector recombinator mutator rng : V) : result instance :=
  self <- set_private self "__encoder" encoder ;;
  self <- set_private self "__selector" selector ;;
  self <- set_private self "__recombinator" recombinator ;;
  self <- set_private self "__mutator" mutator ;;
  set_private self "__random_generator" rng.



End Instance.
Arguments instance V : clear implicits.

End Slots.

(* ================================================================== *)
(** ** GeneticSystem: culling and the run loop *)
(* ================================================================== *)

Module System.

Import Decay.

(** [class DecayType(enum.Enum)] and the argument of
    [get_decay_function]: a member or a member name. *)
Inductive DecayType : Type := lin | pol | exp.

Inductive decay_arg : Type :=
| Member (t : DecayType)
| Name (s : string).

Definition DecayType_getitem (s : string) : result DecayType :=
  if String.eqb s "lin" then ret lin
  else if String.eqb s "pol" then ret pol
  else if String.eqb s "exp" then ret exp
  else raise KeyError.

(** [stagnation_limit: Optional[int | Fraction]]. *)
Inductive limit : Type :=
| IntLimit (z : Z)
| FractionLimit (q : Q).

(** [int(q)] for a [Fraction]: truncation towards zero. *)
Definition Qtrunc (q : Q) : Z := Z.quot (Qnum q) (Z.pos (Qden q)).

Section Run.
Context {CT : Type}.

(** [class GeneticAlgorithmSolution] (a frozen dataclass). *)
Record GeneticAlgorithmSolution : Type := {
  best_individual : CT;
  best_fitness : Q;
  sol_population : list CT;
  sol_fitness_values : list Q;
  max_fitness_reached : bool;
  max_generations_reached : bool;
  stagnation_limit_reached : bool
}.

(** What a run does besides computing: it asks for an initial
    population, enters iterations of the generation loop, and reports
    progress at the end of each one.  The progress event also records
    the population and fitness values at that point. *)
Inductive event : Type :=
| PopulationCreated (population_size : Z)
| IterationStarted (generation : Z)
| GenerationEnded (generation : Z) (population : list CT)
    (fitness_values : list Q) (best_fitness_achieved : Q).

(** The random generators and other state of the operators live in [W]. *)
Context {W : Type}.

Record state : Type := {
  world : W;
  log : list event
}.

(** Stateful computations that return or raise. *)
Definition M (A : Type) : Type := state -> state * result A.

Definition retM {A} (a : A) : M A := fun s => (s, inr a).
Definition raiseM {A} (e : exn) : M A := fun s => (s, inl e).
Definition bindM {A B} (m : M A) (f : A -> M B) : M B :=
  fun s => match m s with
           | (s', inl e) => (s', inl e)
           | (s', inr a) => f a s'
           end.
Definition liftR {A} (r : result A) : M A := fun s => (s, r).
Definition call {A} (f : W -> W * result A) : M A :=
  fun s => let (w', r) := f (world s) in ({| world := w'; log := log s |}, r).
Definition emit (e : event) : M unit :=
  fun s => ({| world := world s; log := log s ++ [e] |}, inr tt).

Notation "x <~ m ;; k" := (bindM m (fun x => k))
  (at level 61, m at next level, right associativity).
Notation "' pat <~ m ;; k" :=
  (bindM m (fun x => match x with pat => k end))
  (at level 61, pat pattern, m at next level, right associativity).

(** The operators that a system is built from, and the methods of the
    system that [run] reaches through [self], with the arguments it
    passes at its call sites.  Each may draw random numbers and may
    raise.  They are parameters because what [run] itself does is
    independent of them; as the methods are written, the calls of
    [grow_population] and [mutate_population] do not fit their
    signatures and [create_population] reads an attribute that
    [GeneticEncoder] does not define, so that these calls raise. *)
Record operators : Type := {
  (* self.__encoder.evaluate_fitness(individual) *)
  evaluate_fitness : CT -> Q;
  (* self.__selector.scale(fitness_values) *)
  scale : list Q -> W -> W * result (list Q);
  (* self.__selector.select(population, fitness_values, quantity),
     unpacked by its callers into a population and its fitness values *)
  select : list CT -> list Q -> Z -> W -> W * result (list CT * list Q);
  (* self.create_population(init_pop_size) *)
  create_population : Z -> W -> W * result (list CT);
  (* self.grow_population(population, fitness_values,
                          desired_population_size, replacement) *)
  grow_population : list CT -> list Q -> Z -> bool -> W -> W * result (list CT);
  (* self.mutate_population(population, fitness_values,
                            mutation_distribution) *)
  mutate_population : list CT -> list Q -> string -> W -> W * result (list CT);
  (* x ** y on floats *)
  float_pow : Q -> Q -> result Q
}.

Variable self : operators.

(** [GeneticSystem.cull_population(self, population, fitness_values,
    survival_factor, elitism_factor)]. *)
Definition cull_population (population : list CT) (fitness_values : list Q)
  (survival_factor : Q) (elitism_factor : option Q)
  : M (list CT * list Q) :=
  let population_size := Z.of_nat (List.length population) in
  let survive_quantity :=
    Qceiling (inject_Z population_size * survival_factor) in
  if population_size =? survive_quantity then
    retM (population, fitness_values)
  else
    match elitism_factor with
    | None => call (select self population fitness_values survive_quantity)
    | Some elitism_factor =>
        let elite_quantity :=
          Qceiling (inject_Z survive_quantity * elitism_factor) in
        if survive_quantity =? elite_quantity then
          retM (slice population
                  (Some (population_size - survive_quantity)) None,
                slice fitness_values
                  (Some (population_size - survive_quantity)) None)
        else
          let comp_quantity := survive_quantity - elite_quantity in
          let comp_population :=
            slice population (Some 0)
              (Some (population_size - elite_quantity)) in
          let comp_fitness_values :=
            slice fitness_values (Some 0)
              (Some (population_size - elite_quantity)) in
          '(comp_popluation, comp_fitness_values) <~
             call (select self comp_population comp_fitness_values
                     comp_quantity) ;;
          retM (comp_popluation
                  ++ slice population
                       (Some (population_size - elite_quantity)) None,
                comp_fitness_values
                  ++ slice fitness_values
                       (Some (population_size - elite_quantity)) None)
    end.

(** [DecayType.<member>.value[0]]. *)
Definition decay_function (t : DecayType) (value decay : Q) : result Q :=
  match t with
  | lin => ret (linear_decay value decay)
  | exp => ret (exponential_decay value decay)
  | pol =>
      if Qeq_bool (1 - decay) 0 then raise ZeroDivisionError
      else float_pow self value (1 / (1 - decay))
  end.

(** [GeneticSystem.get_decay_function(decay_type)]. *)
Definition get_decay_function (decay_type : decay_arg)
  : result (Q -> Q -> result Q) :=
  match decay_type with
  | Member t => ret (decay_function t)
  | Name s => t <- DecayType_getitem s ;; ret (decay_function t)
  end.

(** The arguments of [run] that its body reads. *)
Record arguments : Type := {
  init_pop_size : Z;
  max_pop_size : Z;
  expansion_factor : Q;
  survival_factor : Q;
  survival_elitism_factor : option Q;
  replacement : bool;
  mutation_factor : Q;
  mutation_factor_growth : Q;
  mutation_factor_growth_type : option decay_arg;
  mutation_distribution : string;
  max_generations : option Z;
  fitness_threshold : option Q;
  stagnation_limit : option limit;
  diversity_bias : option Q;
  diversity_bias_decay : option Q;
  diversity_bias_decay_type : option decay_arg
}.

Variable args : arguments.

(** The three configuration checks at the head of [run]; they return
    the stagnation limit as a generation count. *)
Definition check_arguments : result (option Z) :=
  if Qle_bool 1 (survival_factor args) then raise ValueError
  else if replacement args
          && Qle_bool (expansion_factor args * survival_factor args) 1
  then raise ValueError
  else
    match stagnation_limit args with
    | None => ret None
    | Some (IntLimit z) => ret (Some z)
    | Some (FractionLimit q) =>
        match max_generations args with
        | None => raise TypeError
        | Some g => ret (Some (Qtrunc (q * inject_Z g)))
        end
    end.

(** The pairs of [zip(population, fitness_values)], sorted with the
    fitness value as key, unzipped again and unpacked into two lists;
    the unpacking fails on an empty population. *)
Definition sort_by_fitness (population : list CT) (fitness_values : list Q)
  : result (list CT * list Q) :=
  match sorted Qle_bool snd (combine population fitness_values) with
  | [] => raise ValueError
  | items => ret (map fst items, map snd items)
  end.

(** [max(enumerate(fitness_values), key=lambda item: item[1])]. *)
Definition enumerate {A} (l : list A) : list (Z * A) :=
  combine (map Z.of_nat (seq 0 (List.length l))) l.

(** The local variables that the generation loop carries over. *)
Record locals : Type := {
  population : list CT;
  fitness_values : list Q;
  max_fitness : Q;
  generation : Z;
  best_fitness_achieved : Q;
  best_individual_achieved : option CT;
  stagnated_generations : Z;
  cur_diversity_bias : option Q;
  cur_mutation_factor : Q
}.

(** [GeneticAlgorithmSolution(best_individual_achieved, ...)]: reading
    [best_individual_achieved] before any generation improved on the
    initial best fitness raises [UnboundLocalError]. *)
Definition solution (l : locals)
  (by_fitness by_generations by_stagnation : bool)
  : M GeneticAlgorithmSolution :=
  match best_individual_achieved l with
  | None => raiseM UnboundLocalError
  | Some individual =>
      retM {| best_individual := individual;
              best_fitness := best_fitness_achieved l;
              sol_population := population l;
              sol_fitness_values := fitness_values l;
              max_fitness_reached := by_fitness;
              max_generations_reached := by_generations;
              stagnation_limit_reached := by_stagnation |}
  end.

(** One pass through the body of the [while] loop, up to and including
    the progress report. *)
Definition generation_body
  (diversity_bias_decay_function mutation_factor_growth_function
     : option (Q -> Q -> result Q))
  (l : locals) : M locals :=
  _ <~ emit (IterationStarted (generation l)) ;;
  '(diversity_bias, fitness_values) <~
    match cur_diversity_bias l with
    | None => retM (None, fitness_values l)
    | Some bias =>
        bias <~
          match diversity_bias_decay args, diversity_bias_decay_type args with
          | Some decay, Some _ =>
              match diversity_bias_decay_function with
              | Some f => liftR (f bias decay)
              | None => raiseM UnboundLocalError
              end
          | _, _ => retM bias
          end ;;
        retM (Some bias,
              map (fun fitness =>
                     (fitness + (max_fitness l - fitness) * bias)%Q)
                  (fitness_values l))
    end ;;
  fitness_values <~ call (scale self fitness_values) ;;
  let base_population_size := Z.of_nat (List.length (population l)) in
  '(population, fitness_values) <~
    cull_population (population l) fitness_values
      (survival_factor args) (survival_elitism_factor args) ;;
  let desired_population_size :=
    Z.min (Qceiling (inject_Z base_population_size * expansion_factor args))
          (max_pop_size args) in
  population <~
    call (grow_population self population fitness_values
            desired_population_size (replacement args)) ;;
  mutation_factor <~
    (if negb (generation l =? 0) then
       match mutation_factor_growth_function with
       | Some f =>
           liftR (f (cur_mutation_factor l) (mutation_factor_growth args))
       | None => raiseM UnboundLocalError
       end
     else retM (cur_mutation_factor l)) ;;
  mutated_population <~
    call (mutate_population self population fitness_values
            (mutation_distribution args)) ;;
  let population := mutated_population in
  let fitness_values := map (evaluate_fitness self) population in
  '(population, fitness_values, max_individual, max_fitness) <~
    match survival_elitism_factor args with
    | Some _ =>
        '(population, fitness_values) <~
          liftR (sort_by_fitness population fitness_values) ;;
        max_individual <~ liftR (getitem population (-1)) ;;
        max_fitness <~ liftR (getitem fitness_values (-1)) ;;
        retM (population, fitness_values, max_individual, max_fitness)
    | None =>
        '(max_fitness_index, max_fitness) <~
          liftR (Py.max Qle_bool snd (enumerate fitness_values)) ;;
        max_individual <~ liftR (getitem population max_fitness_index) ;;
        retM (population, fitness_values, max_individual, max_fitness)
    end ;;
  let improved := Qltb (best_fitness_achieved l) max_fitness in
  let l' :=
    {| population := population;
       fitness_values := fitness_values;
       max_fitness := max_fitness;
       generation := generation l + 1;
       best_fitness_achieved :=
         if improved then max_fitness else best_fitness_achieved l;
       best_individual_achieved :=
         if improved then Some max_individual else best_individual_achieved l;
       stagnated_generations :=
         if improved then stagnated_generations l
         else stagnated_generations l + 1;
       cur_diversity_bias := diversity_bias;
       cur_mutation_factor := mutation_factor |} in
  _ <~ emit (GenerationEnded (generation l') population fitness_values
               (best_fitness_achieved l')) ;;
  retM l'.

(** The [while not (generation >= max_generations)] loop and the return
    after it.  [generation] starts at zero and grows by one per
    iteration, so the loop recurses on the number of iterations that
    are left, [max_generations - generation]. *)
Fixpoint generations (remaining : nat)
  (stagnation_limit : option Z)
  (diversity_bias_decay_function mutation_factor_growth_function
     : option (Q -> Q -> result Q))
  (l : locals) : M GeneticAlgorithmSolution :=
  match remaining with
  | O => solution l false true false
  | S remaining =>
      l <~ generation_body diversity_bias_decay_function
             mutation_factor_growth_function l ;;
      match fitness_threshold args with
      | None => raiseM TypeError
      | Some threshold =>
          if Qle_bool threshold (best_fitness_achieved l) then
            solution l true false false
          else if match stagnation_limit with
                  | Some limit => stagnated_generations l =? limit
                  | None => false
                  end
          then solution l false false true
          else generations remaining stagnation_limit
                 diversity_bias_decay_function
                 mutation_factor_growth_function l
      end
  end.

(** Everything in [run] after the configuration checks. *)
Definition evolve (stagnation_limit : option Z) : M GeneticAlgorithmSolution :=
  _ <~ emit (PopulationCreated (init_pop_size args)) ;;
  population <~ call (create_population self (init_pop_size args)) ;;
  let fitness_values := map (evaluate_fitness self) population in
  '(population, fitness_values) <~
    match survival_elitism_factor args with
    | Some _ => liftR (sort_by_fitness population fitness_values)
    | None => retM (population, fitness_values)
    end ;;
  max_fitness <~ liftR (Py.max Qle_bool (fun x => x) fitness_values) ;;
  diversity_bias_decay_function <~
    match diversity_bias_decay_type args with
    | Some t => f <~ liftR (get_decay_function t) ;; retM (Some f)
    | None => retM None
    end ;;
  mutation_factor_growth_function <~
    match mutation_factor_growth_type args with
    | Some t => f <~ liftR (get_decay_function t) ;; retM (Some f)
    | None => retM None
    end ;;
  match max_generations args with
  | None => raiseM TypeError
  | Some max_generations =>
      generations (Z.to_nat max_generations) stagnation_limit
        diversity_bias_decay_function mutation_factor_growth_function
        {| population := population;
           fitness_values := fitness_values;
           max_fitness := max_fitness;
           generation := 0;
           best_fitness_achieved := max_fitness;
           best_individual_achieved := None;
           stagnated_generations := 0;
           cur_diversity_bias := diversity_bias args;
           cur_mutation_factor := mutation_factor args |}
  end.

(** [GeneticSystem.run(self, ...)]. *)
Definition run : M GeneticAlgorithmSolution :=
  stagnation_limit <~ liftR check_arguments ;;
  evolve stagnation_limit.

(** One of the preconditions of [run] is violated. *)
Definition violates_precondition : Prop :=
  (1 <= survival_factor args)%Q
  \/ (replacement args = true
      /\ (expansion_factor args * survival_factor args <= 1)%Q)
  \/ (exists q, stagnation_limit args = Some (FractionLimit q)
                /\ max_generations args = None).

Definition precondition_violated : bool :=
  Qle_bool 1 (survival_factor args)
  || (replacement args
      && Qle_bool (expansion_factor args * survival_factor args) 1)
  || match stagnation_limit args, max_generations args with
     | Some (FractionLimit _), None => true
     | _, _ => false
     end.

End Run.

Arguments GeneticAlgorithmSolution CT : clear implicits.
Arguments event CT : clear implicits.
Arguments state CT W : clear implicits.
Arguments operators CT W : clear implicits.
Arguments locals CT : clear implicits.

(** Exactly one of the three termination flags is set. *)
Definition exactly_one_flag {CT} (s : GeneticAlgorithmSolution CT) : bool :=
  match max_fitness_reached s, max_generations_reached s,
        stagnation_limit_reached s with
  | true, false, false => true
  | false, true, false => true
  | false, false, true => true
  | _, _, _ => false
  end.

(** The standing invariant of an elitist run: the fitness values are
    non-decreasing and [fitness_values[i]] is the fitness of
    [population[i]]. *)
Definition sorted_and_aligned {CT} (evaluate : CT -> Q)
  (population : list CT) (fitness_values : list Q) : Prop :=
  Sorted Qle fitness_values /\ fitness_values = map evaluate population.

Definition generation_ok {CT} (evaluate : CT -> Q) (e : event CT) : Prop :=
  match e with
  | GenerationEnded _ population fitness_values _ =>
      sorted_and_aligned evaluate population fitness_values
  | _ => True
  end.

(** [produces P Q m]: run from any state, [m] only appends events to the
    log, each of them satisfies [P], and a returned value satisfies
    [Q]. *)
Definition produces {CT W A} (P : event CT -> Prop) (Q : A -> Prop)
  (m : @M CT W A) : Prop :=
  forall s : state CT W,
    exists t, log (fst (m s)) = log s ++ t
              /\ Forall P t
              /\ match snd (m s) with
                 | inr a => Q a
                 | inl _ => True
                 end.

End System.

(* ================================================================== *)
(** ** Concrete inputs *)
(* ================================================================== *)

Module Examples.

Import System.

Definition zeros : list ascii := list_ascii_of_string "00000000".
Definition ones : list ascii := list_ascii_of_string "11111111".

(** A bit-string system whose operators are deterministic: the fitness
    of a chromosome is its number of ones, the selector returns the
    first [quantity] candidates, growth repeats the survivors up to the
    desired size and mutation sets the first zero of every chromosome. *)
Fixpoint count_ones (c : string) : Z :=
  match c with
  | EmptyString => 0
  | String g c' => (if Ascii.eqb g "1" then 1 else 0) + count_ones c'
  end.

Fixpoint set_first_zero (c : string) : string :=
  match c with
  | EmptyString => EmptyString
  | String g c' =>
      if Ascii.eqb g "0" then String "1" c' else String g (set_first_zero c')
  end.

Definition ops : operators string unit := {|
  evaluate_fitness := fun c => inject_Z (count_ones c);
  scale := fun fitness w => (w, ret fitness);
  select := fun population fitness quantity w =>
    (w, ret (slice population None (Some quantity),
             slice fitness None (Some quantity)));
  create_population := fun size w =>
    (w, ret (slice ["0110"; "0000"; "0111"; "0001"]%string None (Some size)));
  grow_population := fun population _ desired _ w =>
    (w, ret (slice (population ++ population) None (Some desired)));
  mutate_population := fun population _ _ w =>
    (w, ret (map set_first_zero population));
  float_pow := fun _ _ => raise ValueError
|}.

Definition args : arguments := {|
  init_pop_size := 4;
  max_pop_size := 4;
  expansion_factor := 2;
  survival_factor := 1 # 2;
  survival_elitism_factor := Some 1%Q;
  replacement := false;
  mutation_factor := 1;
  mutation_factor_growth := 0;
  mutation_factor_growth_type := Some (Name "lin");
  mutation_distribution := "uniform";
  max_generations := Some 10;
  fitness_threshold := Some 4%Q;
  stagnation_limit := None;
  diversity_bias := None;
  diversity_bias_decay := None;
  diversity_bias_decay_type := Some (Name "exp")
|}.

(** The same run with a survival factor of one. *)
Definition args_all_survive : arguments := {|
  init_pop_size := 4;
  max_pop_size := 4;
  expansion_factor := 2;
  survival_factor := 1;
  survival_elitism_factor := Some 1%Q;
  replacement := false;
  mutation_factor := 1;
  mutation_factor_growth := 0;
  mutation_factor_growth_type := Some (Name "lin");
  mutation_distribution := "uniform";
  max_generations := Some 10;
  fitness_threshold := Some 4%Q;
  stagnation_limit := None;
  diversity_bias := None;
  diversity_bias_decay := None;
  diversity_bias_decay_type := Some (Name "exp")
|}.

(** The same run with the decay type "hl-exp", which the signature of
    [run] lists but [DecayType] does not define. *)
Definition args_unknown_decay : arguments := {|
  init_pop_size := 4;
  max_pop_size := 4;
  expansion_factor := 2;
  survival_factor := 1 # 2;
  survival_elitism_factor := Some 1%Q;
  replacement := false;
  mutation_factor := 1;
  mutation_factor_growth := 0;
  mutation_factor_growth_type := Some (Name "lin");
  mutation_distribution := "uniform";
  max_generations := Some 10;
  fitness_threshold := Some 4%Q;
  stagnation_limit := None;
  diversity_bias := None;
  diversity_bias_decay := None;
  diversity_bias_decay_type := Some (Name "hl-exp")
|}.

Definition start : state string unit := {| world := tt; log := [] |}.

Definition outcome
  : state string unit * result (GeneticAlgorithmSolution string) :=
  Eval vm_compute in run ops args start.

End Examples.

(* ================================================================== *)
(** ** Further predicates and inputs for the run loop *)
(* ================================================================== *)

Module RunProperties.

Import System.

(** The generation numbers that the events of a run may carry when
    [max_generations] is given: an iteration starts at a generation
    below it, and ends at one that does not exceed it. *)
Definition generation_in_bounds {CT} (max_generations : option Z)
  (e : event CT) : Prop :=
  match max_generations, e with
  | Some limit, IterationStarted g => 0 <= g < limit
  | Some limit, GenerationEnded g _ _ _ => 1 <= g <= limit
  | _, _ => True
  end.

(** What a returned solution reports, for the fitness function
    [evaluate] and the arguments [args] of the run. *)
Definition consistent_solution {CT} (evaluate : CT -> Q) (args : arguments)
  (sol : GeneticAlgorithmSolution CT) : Prop :=
  evaluate (best_individual sol) = best_fitness sol
  /\ Forall (fun fitness => (fitness <= best_fitness sol)%Q)
            (sol_fitness_values sol)
  /\ (exists threshold,
        fitness_threshold args = Some threshold
        /\ max_fitness_reached sol
           = Qle_bool threshold (best_fitness sol))
  /\ (exists limit, max_generations args = Some limit /\ 1 <= limit).

(** The run of [Examples.args] without a fitness threshold. *)
Definition args_no_threshold : arguments := {|
  init_pop_size := 4;
  max_pop_size := 4;
  expansion_factor := 2;
  survival_factor := 1 # 2;
  survival_elitism_factor := Some 1%Q;
  replacement := false;
  mutation_factor := 1;
  mutation_factor_growth := 0;
  mutation_factor_growth_type := Some (Name "lin");
  mutation_distribution := "uniform";
  max_generations := Some 10;
  fitness_threshold := None;
  stagnation_limit := None;
  diversity_bias := None;
  diversity_bias_decay := None;
  diversity_bias_decay_type := Some (Name "exp")
|}.

End RunProperties.

(* ================================================================== *)
(** ** The other recombinators and the point mutator *)
(* ================================================================== *)

Module Operators.

Import Recombinator.

Section SplitCrossOver.
Context {G : Type}.

(** [SplitCrossOver.recombine(self, chromosome_1, chromosome_2)]. *)
Definition split_recombine (draw : Z) (chromosome_1 chromosome_2 : list G)
  : result (list G * list G) :=
  point <- randint draw 0 (Z.of_nat (List.length chromosome_1)) ;;
  ret (slice chromosome_1 None (Some point)
         ++ slice chromosome_2 (Some point) None,
       slice chromosome_2 None (Some point)
         ++ slice chromosome_1 (Some point) None).

End SplitCrossOver.

(** A gene is a string or a value of another type; a chromosome is a
    string or a list of genes.  Iterating over a string yields its
    characters as one-character strings. *)
Inductive gene : Type :=
| GStr (s : string)
| GNum (z : Z).

Inductive chromosome : Type :=
| CStr (s : string)
| CList (genes : list gene).

Definition genes_of (c : chromosome) : list gene :=
  match c with
  | CStr s => map (fun ch => GStr (String ch "")) (list_ascii_of_string s)
  | CList genes => genes
  end.

(** A gene that is a string, a gene that is a one-character string,
    and the text of a string gene. *)
Definition is_str (g : gene) : Prop :=
  match g with GStr _ => True | GNum _ => False end.

Definition is_char (g : gene) : Prop :=
  match g with GStr s => String.length s = 1%nat | GNum _ => False end.

Definition text (g : gene) : string :=
  match g with GStr s => s | GNum _ => EmptyString end.

(** At every position the offspring hold the parents' genes of that
    position, one each. *)
Definition complementary {A} (p1 p2 o1 o2 : list A) : Prop :=
  forall (i : nat) (a b : A),
    nth_error p1 i = Some a -> nth_error p2 i = Some b ->
    (nth_error o1 i = Some a /\ nth_error o2 i = Some b)
    \/ (nth_error o1 i = Some b /\ nth_error o2 i = Some a).

(** The loop of [UniformSwapper.recombine] over [zip(chromosome_1,
    chromosome_2)]; [coin k] is the raw random number behind the
    [randint(0, 2)] of iteration [k], and a result of one keeps the
    genes in place. *)
Fixpoint swap_genes (coin : nat -> Z) (k : nat) (genes_1 genes_2 : list gene)
  : list gene * list gene :=
  match genes_1, genes_2 with
  | gene_1 :: rest_1, gene_2 :: rest_2 =>
      let (new_1, new_2) := swap_genes coin (S k) rest_1 rest_2 in
      if coin k mod 2 =? 0
      then (gene_2 :: new_1, gene_1 :: new_2)
      else (gene_1 :: new_1, gene_2 :: new_2)
  | _, _ => ([], [])
  end.

(** [''.join(genes)]: every item has to be a string. *)
Fixpoint join (genes : list gene) : result string :=
  match genes with
  | [] => ret EmptyString
  | GStr s :: rest => tail <- join rest ;; ret (s ++ tail)%string
  | GNum _ :: _ => raise TypeError
  end.

(** What the name [chromosome_1] is bound to after the loop: the loop
    rebinds it to each gene taken from the first parent, so it holds the
    last of them, or still the parent when the loop did not run. *)
Definition chromosome_1_is_str (parent_1 parent_2 : chromosome) : bool :=
  let paired :=
    firstn (List.length (genes_of parent_2)) (genes_of parent_1) in
  match rev paired with
  | GStr _ :: _ => true
  | GNum _ :: _ => false
  | [] => match parent_1 with CStr _ => true | CList _ => false end
  end.

(** [UniformSwapper.recombine(self, chromosome_1, chromosome_2)]. *)
Definition uniform_recombine (coin : nat -> Z)
  (chromosome_1 chromosome_2 : chromosome)
  : result (chromosome * chromosome) :=
  let (new_chromosome_1, new_chromosome_2) :=
    swap_genes coin 0 (genes_of chromosome_1) (genes_of chromosome_2) in
  if chromosome_1_is_str chromosome_1 chromosome_2 then
    joined_1 <- join new_chromosome_1 ;;
    joined_2 <- join new_chromosome_2 ;;
    ret (CStr joined_1, CStr joined_2)
  else ret (CList new_chromosome_1, CList new_chromosome_2).

(** [PointMutator]: the number of points is checked on construction.
    ([points] is an [int] here, so that the [isinstance] test passes.) *)
Record PointMutator : Type := { points : Z }.

Definition PointMutator_init (points : Z) : result PointMutator :=
  if points <? 1 then raise ValueError else ret {| points := points |}.

Section PointMutator.
Context {G : Type}.

Fixpoint set_nth (l : list G) (i : nat) (g : G) : list G :=
  match l, i with
  | [], _ => []
  | _ :: rest, O => g :: rest
  | x :: rest, S i' => x :: set_nth rest i' g
  end.

(** [l[i] = g]. *)
Definition setitem (l : list G) (i : Z) (g : G) : result (list G) :=
  let n := Z.of_nat (List.length l) in
  let j := if i <? 0 then n + i else i in
  if (j <? 0) || (n <=? j) then raise IndexError
  else ret (set_nth l (Z.to_nat j) g).

(** [numpy.random.randint(high, size=size)]: [size] integers of
    [0 <= x < high], [ValueError] unless [high] is positive. *)
Definition randint_size (draw : nat -> Z) (high size : Z)
  : result (list Z) :=
  if high <=? 0 then raise ValueError
  else ret (map (fun k => draw k mod high) (seq 0 (Z.to_nat size))).

(** [PointMutator.mutate(self, chromosome, base)] on a list chromosome;
    [new_genes] is the value of [base.random_genes(points)]. *)
Definition mutate (self : PointMutator) (draw : nat -> Z)
  (new_genes : list G) (chromosome : list G) : result (list G) :=
  indices <- randint_size draw (Z.of_nat (List.length chromosome))
               (points self) ;;
  fold_left
    (fun acc item => chromosome <- acc ;;
                     setitem chromosome (fst item) (snd item))
    (combine indices new_genes) (ret chromosome).

End PointMutator.

End Operators.

(* ================================================================== *)
(** ** Auxiliary/moreitertools.py: the other iteration functions *)
(* ================================================================== *)

Module IterTools.

(** [range(start, stop, step)]. *)
Definition range3 (start stop step : Z) : result (list Z) :=
  if step =? 0 then raise ValueError
  else
    let n := if 0 <? step then (stop - start + step - 1) / step
             else (start - stop - step - 1) / (- step) in
    ret (map (fun k => start + Z.of_nat k * step) (seq 0 (Z.to_nat n))).

Section Iteration.
Context {A : Type}.

(** [enumerate(iterable, start)]. *)
Fixpoint enumerate_from (start : Z) (iterable : list A) : list (Z * A) :=
  match iterable with
  | [] => []
  | x :: rest => (start, x) :: enumerate_from (start + 1) rest
  end.

(** [find_first(iterable, condition)]; [None] is the implicit return
    value of a loop that found nothing. *)
Definition find_first (iterable : list A) (condition : Z -> A -> bool)
  : option (Z * A) :=
  find (fun item => condition (fst item) (snd item))
       (enumerate_from 0 iterable).

(** [find_all(iterable, condition, limit)]: the loop breaks at the index
    that equals the limit. *)
Fixpoint find_all_loop (condition : Z -> A -> bool) (limit : option Z)
  (items : list (Z * A)) : list (Z * A) :=
  match items with
  | [] => []
  | (index, element) :: rest =>
      if match limit with Some n => index =? n | None => false end
      then []
      else if condition index element
      then (index, element) :: find_all_loop condition limit rest
      else find_all_loop condition limit rest
  end.

Definition find_all (iterable : list A) (condition : Z -> A -> bool)
  (limit : option Z) : list (Z * A) :=
  find_all_loop condition limit (enumerate_from 0 iterable).

(** What a generator produced: the items it yielded and the exception
    that ended it, if any. *)
Definition generated : Type := (list A * option exn)%type.

(** [iter_to_length(iterable, length, fill)]; [is_sequence] tells
    whether the iterable is a [Sequence] or only an iterable. *)
Definition iter_to_length (is_sequence : bool) (iterable : list A)
  (length : Z) (fill : A) : generated :=
  let n := Z.of_nat (List.length iterable) in
  if is_sequence then
    if length <=? n then
      (* itertools.islice(iterable, length) *)
      if length <? 0 then ([], Some ValueError)
      else (firstn (Z.to_nat length) iterable, None)
    else (iterable ++ repeat fill (Z.to_nat (length - n)), None)
  else
    match iterable with
    | [] => ([], Some UnboundLocalError)
    | _ :: _ =>
        let index := n - 1 in
        (iterable
           ++ (if index <? length
               then repeat fill (Z.to_nat (length - index))
               else []),
         None)
    end.

(** A generator that computes its items one by one: the items it yields
    before the first exception, and that exception. *)
Fixpoint yield_until {B} (items : list (result B)) : list B * option exn :=
  match items with
  | [] => ([], None)
  | inl e :: _ => ([], Some e)
  | inr x :: rest =>
      let '(yielded, raised) := yield_until rest in (x :: yielded, raised)
  end.

(** [chunk(iterable, size, quantity, as_type)] for a true [as_type] and a
    sequence, given by its items.  [type_] is what
    [_type(iterable[index : index + size])] does with the items of the
    slice, [_type] being [as_type] if that is a type and [type(iterable)]
    otherwise: [list] and [tuple] return the items, for a [range] the
    call of [range] on the slice raises [TypeError], and so does slicing
    a [deque]. *)
Definition chunk {B} (type_ : list A -> result B) (iterable : list A)
  (size quantity : Z) : list B * option exn :=
  match range3 0 (quantity * size) size with
  | inl e => ([], Some e)
  | inr indices =>
      yield_until
        (map (fun index =>
                type_ (slice iterable (Some index) (Some (index + size))))
             indices)
  end.

(** The [while] loop of [cycle_for]; [fuel] bounds its iterations. *)
Fixpoint cycle_loop (fuel : nat) (sequence : list A)
  (cycles cycles_per_item : Q) (preempt : bool) (i : Z) (cycled : Q)
  : list A :=
  match fuel with
  | O => []
  | S fuel =>
      if (negb preempt && Decay.Qltb cycled cycles)
         || Decay.Qltb (cycled + cycles_per_item) cycles
      then
        let i := i mod Z.of_nat (List.length sequence) in
        match nth_error sequence (Z.to_nat i) with
        | Some item =>
            item :: cycle_loop fuel sequence cycles cycles_per_item preempt
                      (i + 1) (cycled + cycles_per_item)%Q
        | None => []
        end
      else []
  end.

(** [cycle_for(sequence, cycles, preempt)].  The loop is given one
    iteration more than it can use, so that it ends by its own
    condition. *)
Definition cycle_for (sequence : list A) (cycles : Q) (preempt : bool)
  : result (list A) :=
  if Decay.Qltb 0 cycles then
    match sequence with
    | [] => raise ZeroDivisionError
    | _ :: _ =>
        let n := Z.of_nat (List.length sequence) in
        ret (cycle_loop (S (Z.to_nat (Qceiling (inject_Z n * cycles))))
               sequence cycles (1 # Z.to_pos n) preempt 0 0)
    end
  else ret [].

Context (eqb : A -> A -> bool).

(** [itertools.groupby(iterable)]: the next group is keyed by the next
    item, and asking for a further group skips the items that are equal
    to that key. *)
Fixpoint drop_group (key : A) (iterable : list A) : list A :=
  match iterable with
  | [] => []
  | x :: rest => if eqb x key then drop_group key rest else iterable
  end.

Definition next_group (iterable : list A) : option (A * list A) :=
  match iterable with
  | [] => None
  | x :: rest => Some (x, drop_group x rest)
  end.

(** [list.count(value)]. *)
Definition count (value : A) (l : list A) : nat :=
  List.length (filter (fun item => eqb item value) l).

(** [all_equal(iterable, hint)]; [by_count] stands for [hint and
    isinstance(iterable, Sequence)]. *)
Definition all_equal (iterable : list A) (by_count : bool) : bool :=
  if by_count then
    match iterable with
    | [] => true
    | first :: _ => Nat.eqb (count first iterable) (List.length iterable)
    end
  else
    match next_group iterable with
    | None => true
    | Some (_, rest) =>
        match next_group rest with
        | None => true
        | Some _ => false
        end
    end.

End Iteration.

End IterTools.

(* ================================================================== *)
(** ** Bit-string gene bases *)
(* ================================================================== *)

Module GeneBases.

Import Encoder.

(** [random.getrandbits(k)]: an integer of [0 <= x < 2 ** k], drawn from
    the raw random number; [ValueError] for a negative [k]. *)
Definition randbits (raw k : Z) : result Z :=
  if k <? 0 then raise ValueError else ret (raw mod 2 ^ k).

Definition digit_chars : list ascii := list_ascii_of_string "0123456789abcdef".

Definition digit_char (d : Z) : ascii :=
  nth (Z.to_nat d) digit_chars "0"%char.

(** The digits of [n >= 0] in a radix, most significant first; [fuel]
    bounds their number. *)
Fixpoint to_digits (fuel : nat) (radix n : Z) : list Z :=
  match fuel with
  | O => []
  | S fuel =>
      if n <? radix then [n]
      else to_digits fuel radix (n / radix) ++ [n mod radix]
  end.

(** The integer that digits stand for, [int(text, radix)]. *)
Fixpoint of_digits (radix : Z) (acc : Z) (digits : list Z) : Z :=
  match digits with
  | [] => acc
  | d :: rest => of_digits radix (acc * radix + d) rest
  end.

(** The radix of the presentation types [b], [o] and [x]. *)
Definition radix_of (format_ : string) : option Z :=
  if String.eqb format_ "b" then Some 2
  else if String.eqb format_ "o" then Some 8
  else if String.eqb format_ "x" then Some 16
  else None.

(** [str.zfill(width)] on the characters of a string. *)
Definition zfill_chars (s : list ascii) (width : Z) : list ascii :=
  let len := Z.of_nat (List.length s) in
  if width <=? len then s
  else
    let zeros := repeat "0"%char (Z.to_nat (width - len)) in
    match s with
    | c :: rest =>
        if Ascii.eqb c "+" || Ascii.eqb c "-" then c :: zeros ++ rest
        else zeros ++ s
    | [] => zeros
    end.

Definition zfill (s : string) (width : Z) : string :=
  string_of_list_ascii (zfill_chars (list_ascii_of_string s) width).

(** Results in sequence, the first exception wins. *)
Fixpoint all_results {A} (l : list (result A)) : result (list A) :=
  match l with
  | [] => ret []
  | r :: rest => x <- r ;; xs <- all_results rest ;; ret (x :: xs)
  end.

Section Format.

(** [format(n, format_)] for a format specification other than the
    three presentation types. *)
Variable format_other : Z -> string -> result string.

(** [format(n, format_)] for an integer. *)
Definition format (n : Z) (format_ : string) : result string :=
  match radix_of format_ with
  | Some radix =>
      let digits :=
        to_digits (S (Z.to_nat (Z.log2 (Z.abs n)))) radix (Z.abs n) in
      let text := string_of_list_ascii (map digit_char digits) in
      ret (if n <? 0 then String "-" text else text)
  | None => format_other n format_
  end.

(** [BitStringBase.total_values]: [1 << self.bits]. *)
Definition total_values (self : BitStringBase) : result Z :=
  if bits self <? 0 then raise ValueError else ret (Z.shiftl 1 (bits self)).

(** [BitStringBase.all_values]. *)
Definition all_values (self : BitStringBase) : result (list string) :=
  total <- total_values self ;;
  all_results
    (map (fun v => format (Z.of_nat v) (format_ self))
         (seq 0 (Z.to_nat total))).

(** [BitStringBase.chromosome_bits(length)]. *)
Definition chromosome_bits (self : BitStringBase) (length : Z) : Z :=
  bits self * length.

(** [BitStringBase.random_chromosomes(length, quantity)]; [raw k] is the
    raw random number of the [k]-th chromosome. *)
Definition random_chromosomes (self : BitStringBase) (raw : nat -> Z)
  (length quantity : Z) : result (list string) :=
  all_results
    (map (fun k =>
            n <- randbits (raw k) (chromosome_bits self length) ;;
            text <- format n (format_ self) ;;
            ret (zfill text length))
         (seq 0 (Z.to_nat quantity))).

(** [BitStringBase.random_genes(quantity)]. *)
Definition random_genes (self : BitStringBase) (raw : nat -> Z)
  (quantity : Z) : result (list string) :=
  all_results
    (map (fun k =>
            n <- randbits (raw k) (bits self) ;;
            format n (format_ self))
         (seq 0 (Z.to_nat quantity))).

End Format.

(** Every character of [s] is a value of the base, as a string. *)
Definition over_alphabet (values : list string) (s : string) : Prop :=
  Forall (fun c => In (String c EmptyString) values) (list_ascii_of_string s).

End GeneBases.

(* ================================================================== *)
(** ** GeneticSystem.mutate_population *)
(* ================================================================== *)

Module Populations.

Section MutatePopulation.
Context {CT W : Type}.

(** The mutator method that the encoder's base selects, and the raw
    random numbers of the system's generator. *)
Variable mutate : CT -> W -> W * result CT.
Variable draw : nat -> Z.

(** [for index in indices: population[index] = mutate(population[index],
    base)]. *)
Fixpoint mutate_at (indices : list Z) (population : list CT) (w : W)
  : W * result (list CT) :=
  match indices with
  | [] => (w, ret population)
  | index :: rest =>
      match getitem population index with
      | inl e => (w, inl e)
      | inr individual =>
          match mutate individual w with
          | (w', inl e) => (w', inl e)
          | (w', inr mutated) =>
              match Operators.setitem population index mutated with
              | inl e => (w', inl e)
              | inr population' => mutate_at rest population' w'
              end
          end
      end
  end.

(** [Generator.choice(a, size)] for an integer [a]: [size] indices below
    [a]; a negative size, or no index to choose from, raises. *)
Definition choice_range (a size : Z) : result (list Z) :=
  if size <? 0 then raise ValueError
  else if size =? 0 then ret []
  else if a <=? 0 then raise ValueError
  else ret (map (fun k => draw k mod a) (seq 0 (Z.to_nat size))).

(** The second loop of [mutate_population]. *)
Definition mutate_randomly (population : list CT) (mutations_quantity : Z)
  (mutate_all : bool) (w : W) : W * result (list CT) :=
  if negb mutate_all || negb (mutations_quantity =? 0) then
    match choice_range (Z.of_nat (List.length population))
            mutations_quantity with
    | inl e => (w, inl e)
    | inr indices => mutate_at indices population w
    end
  else (w, ret population).

(** [GeneticSystem.mutate_population(self, population, mutation_factor,
    mutate_all)]. *)
Definition mutate_population (population : list CT) (mutation_factor : Q)
  (mutate_all : bool) (w : W) : W * result (list CT) :=
  let n := Z.of_nat (List.length population) in
  let mutations_quantity := Qfloor (inject_Z n * mutation_factor) in
  if mutate_all && (n <=? mutations_quantity) then
    if n =? 0 then (w, raise ZeroDivisionError)
    else
      let cycles := mutations_quantity / n in
      match IterTools.cycle_for
              (map Z.of_nat (seq 0 (List.length population)))
              (inject_Z cycles) false with
      | inl e => (w, inl e)
      | inr indices =>
          match mutate_at indices population w with
          | (w', inl e) => (w', inl e)
          | (w', inr population') =>
              mutate_randomly population' (mutations_quantity - n * cycles)
                mutate_all w'
          end
      end
  else mutate_randomly population mutations_quantity mutate_all w.

End MutatePopulation.

End Populations.

(* ================================================================== *)
(** ** getitem_zip *)
(* ================================================================== *)

Module GetitemZip.

Section Zip.
Context {V : Type}.

(** The four slots of a [getitem_zip].  The zipped sequences are lists,
    which support [__len__] and [__getitem__]; the fill value is a value
    like any other ([None] by default). *)
Record getitem_zip : Type := {
  sequences : list (list V);
  shortest : bool;
  len : Z;
  fill : V
}.

Definition lengths (seqs : list (list V)) : list Z :=
  map (fun seq => Z.of_nat (List.length seq)) seqs.

(** [min(iterable)] and [max(iterable)] of integers: an empty iterable
    raises [ValueError]. *)
Definition min_of (l : list Z) : result Z :=
  match l with
  | [] => raise ValueError
  | x :: rest => ret (fold_left Z.min rest x)
  end.

Definition max_of (l : list Z) : result Z :=
  match l with
  | [] => raise ValueError
  | x :: rest => ret (fold_left Z.max rest x)
  end.

(** [getitem_zip.__init__(self, *sequences, shortest, fill, strict)]. *)
Definition init (seqs : list (list V)) (shortest_ : bool) (fill_ : V)
  (strict : bool) : result getitem_zip :=
  if strict && negb (IterTools.all_equal Z.eqb (lengths seqs) false)
  then raise ValueError
  else
    n <- (if shortest_ then min_of (lengths seqs)
          else max_of (lengths seqs)) ;;
    ret {| sequences := seqs; shortest := shortest_; len := n;
           fill := fill_ |}.

(** One step of [zip]: the next item of every iterator, in order; the
    first exhausted iterator ends the zip. *)
Fixpoint heads (iterators : list (list V)) : option (list V) :=
  match iterators with
  | [] => Some []
  | [] :: _ => None
  | (x :: _) :: rest =>
      match heads rest with
      | Some row => Some (x :: row)
      | None => None
      end
  end.

Definition tails (iterators : list (list V)) : list (list V) :=
  map (@tl V) iterators.

Fixpoint zip_loop (fuel : nat) (iterators : list (list V))
  : list (list V) :=
  match fuel with
  | O => []
  | S fuel' =>
      match heads iterators with
      | None => []
      | Some row => row :: zip_loop fuel' (tails iterators)
      end
  end.

(** [zip] of the sequences; without arguments it is empty.  The loop is given one
    step more than the first sequence has items, so that it ends by an
    exhausted iterator. *)
Definition zip (seqs : list (list V)) : list (list V) :=
  match seqs with
  | [] => []
  | first :: _ => zip_loop (S (List.length first)) seqs
  end.

(** One step of [itertools.zip_longest]: it ends when every iterator is
    exhausted, and an exhausted iterator gives the fill value. *)
Definition exhausted (iterators : list (list V)) : bool :=
  forallb (fun it => match it with [] => true | _ :: _ => false end)
    iterators.

Definition heads_longest (fillvalue : V) (iterators : list (list V))
  : list V :=
  map (fun it => match it with [] => fillvalue | x :: _ => x end)
    iterators.

Fixpoint zip_longest_loop (fuel : nat) (fillvalue : V)
  (iterators : list (list V)) : list (list V) :=
  match fuel with
  | O => []
  | S fuel' =>
      if exhausted iterators then []
      else heads_longest fillvalue iterators
             :: zip_longest_loop fuel' fillvalue (tails iterators)
  end.

Definition longest (seqs : list (list V)) : nat :=
  fold_right Nat.max 0%nat (map (@List.length V) seqs).

Definition zip_longest (fillvalue : V) (seqs : list (list V))
  : list (list V) :=
  zip_longest_loop (S (longest seqs)) fillvalue seqs.

(** [getitem_zip.__iter__(self)], as the list of the tuples it yields. *)
Definition iter (self : getitem_zip) : list (list V) :=
  if shortest self then zip (sequences self)
  else zip_longest (fill self) (sequences self).

(** [getitem_zip.__getitem__(self, index)]. *)
Definition getitem_ (self : getitem_zip) (index : Z) : result (list V) :=
  if shortest self then
    GeneBases.all_results
      (map (fun sequence => getitem sequence index) (sequences self))
  else
    GeneBases.all_results
      (map (fun sequence =>
              if index <? Z.of_nat (List.length sequence)
              then getitem sequence index
              else ret (fill self))
         (sequences self)).

(** [getitem_zip.__len__(self)]. *)
Definition len_ (self : getitem_zip) : Z := len self.

(** The length of a shortest, resp. longest, of the sequences. *)
Definition is_shortest (seqs : list (list V)) (n : nat) : Prop :=
  (exists s, In s seqs /\ List.length s = n)
  /\ forall s, In s seqs -> (n <= List.length s)%nat.

Definition is_longest (seqs : list (list V)) (n : nat) : Prop :=
  (exists s, In s seqs /\ List.length s = n)
  /\ forall s, In s seqs -> (List.length s <= n)%nat.

End Zip.

Arguments getitem_zip : clear implicits.

End GetitemZip.

(* ================================================================== *)
(** * Properties *)
(* ================================================================== *)

(** ** Slices and sorting *)

Section SliceFacts.
Context {A : Type}.
Implicit Types (l : list A) (a b : nat).

Lemma clamp_index_in_range (len i : Z) :
  0 <= i <= len -> clamp_index len i = i.
Proof.
  intros H. unfold clamp_index.
  destruct (Z.ltb_spec i 0); lia.
Qed.

Lemma slice_to l a :
  (a <= List.length l)%nat ->
  slice l None (Some (Z.of_nat a)) = firstn a l.
Proof.
  intros H. unfold slice.
  rewrite clamp_index_in_range by lia.
  rewrite Z.sub_0_r, Nat2Z.id. reflexivity.
Qed.

Lemma slice_from l a :
  (a <= List.length l)%nat ->
  slice l (Some (Z.of_nat a)) None = skipn a l.
Proof.
  intros H. unfold slice.
  rewrite clamp_index_in_range by lia.
  rewrite Nat2Z.id.
  apply firstn_all2. rewrite length_skipn. lia.
Qed.

Lemma slice_between l a b :
  (a <= b <= List.length l)%nat ->
  slice l (Some (Z.of_nat a)) (Some (Z.of_nat b))
  = firstn (b - a) (skipn a l).
Proof.
  intros H. unfold slice.
  rewrite !clamp_index_in_range by lia.
  rewrite Nat2Z.id. f_equal. lia.
Qed.

Lemma slice_between_0 l b :
  (b <= List.length l)%nat ->
  slice l (Some 0) (Some (Z.of_nat b)) = firstn b l.
Proof.
  intros H. change 0 with (Z.of_nat 0).
  rewrite slice_between by lia.
  rewrite Nat.sub_0_r. reflexivity.
Qed.

End SliceFacts.

Section SortedFacts.
Context {A K : Type} (leb : K -> K -> bool) (key : A -> K).
Hypothesis leb_total : forall x y, leb x y = false -> leb y x = true.

Let le (x y : A) : Prop := leb (key x) (key y) = true.

Lemma insert_perm (x : A) (l : list A) :
  Permutation (x :: l) (Py.insert leb key x l).
Proof.
  induction l as [|y ys IH]; simpl.
  - apply Permutation_refl.
  - destruct (leb (key x) (key y)).
    + apply Permutation_refl.
    + eapply perm_trans; [apply perm_swap|].
      apply perm_skip, IH.
Qed.

Lemma sorted_perm (l : list A) : Permutation l (Py.sorted leb key l).
Proof.
  induction l as [|x xs IH]; simpl.
  - constructor.
  - eapply perm_trans; [apply perm_skip, IH|].
    apply insert_perm.
Qed.

Lemma insert_hd (x y : A) (l : list A) :
  le y x -> HdRel le y l -> HdRel le y (Py.insert leb key x l).
Proof.
  intros Hyx Hl. destruct l as [|z zs]; simpl.
  - constructor. exact Hyx.
  - destruct (leb (key x) (key z)); constructor.
    + exact Hyx.
    + inversion Hl; assumption.
Qed.

Lemma insert_sorted (x : A) (l : list A) :
  Sorted le l -> Sorted le (Py.insert leb key x l).
Proof.
  induction 1 as [|y ys Hs IH Hhd]; simpl.
  - repeat constructor.
  - destruct (leb (key x) (key y)) eqn:E.
    + constructor; [constructor; assumption|].
      constructor. exact E.
    + constructor; [exact IH|].
      apply insert_hd; [|exact Hhd].
      apply leb_total, E.
Qed.

Lemma sorted_is_sorted (l : list A) : Sorted le (Py.sorted leb key l).
Proof.
  induction l as [|x xs IH]; simpl.
  - constructor.
  - apply insert_sorted, IH.
Qed.

End SortedFacts.

Lemma Qle_bool_total (x y : Q) : Qle_bool x y = false -> Qle_bool y x = true.
Proof.
  intros H. apply Qle_bool_iff.
  destruct (Qlt_le_dec y x) as [Hlt|Hle].
  - apply Qlt_le_weak, Hlt.
  - apply Qle_bool_iff in Hle. congruence.
Qed.



(** ** max_n *)

Section MaxNFacts.
Import MoreIterTools.
Context {A : Type} (key : A -> Z).

Lemma max_from_spec (best : A) (l : list A) :
  let m := Py.max_from Z.leb key best l in
  In m (best :: l) /\ forall y, In y (best :: l) -> key y <= key m.
Proof.
  revert best. induction l as [|x xs IH]; intros best; simpl.
  - split; [now left|]. intros y [<-|[]]. lia.
  - destruct (Z.leb_spec (key x) (key best)) as [Hle|Hlt].
    + destruct (IH best) as [Hin Hmax]. split.
      * destruct Hin as [<-|Hin]; [now left|now right; right].
      * intros y [<-|[<-|Hy]].
        -- apply Hmax. now left.
        -- etransitivity; [exact Hle|]. apply Hmax. now left.
        -- apply Hmax. now right.
    + destruct (IH x) as [Hin Hmax]. split.
      * now right.
      * intros y [<-|[<-|Hy]].
        -- etransitivity; [apply Z.lt_le_incl, Hlt|]. apply Hmax. now left.
        -- apply Hmax. now left.
        -- apply Hmax. now right.
Qed.

(** With [n = 1] the result is a largest element of a non-empty
    iterable. *)
Lemma max_n_single (x : A) (xs : list A) :
  exists m, max_n key (x :: xs) 1 = ret (One m)
            /\ In m (x :: xs)
            /\ forall y, In y (x :: xs) -> key y <= key m.
Proof.
  exists (Py.max_from Z.leb key x xs). split; [reflexivity|].
  apply max_from_spec.
Qed.

(** With any other [n >= 0] the result is the first [n] elements of the
    ascending sort. *)
Lemma max_n_many (l : list A) (n : Z) :
  n <> 1 -> 0 <= n ->
  max_n key l n = ret (Many (firstn (Z.to_nat n) (sorted Z.leb key l))).
Proof.
  intros Hn1 Hn0. unfold max_n.
  destruct (Z.eqb_spec n 1) as [|_]; [contradiction|].
  f_equal. f_equal. unfold slice.
  destruct (Z.le_gt_cases n (Z.of_nat (List.length (sorted Z.leb key l))))
    as [Hle|Hgt].
  - rewrite clamp_index_in_range by lia.
    rewrite Z.sub_0_r. reflexivity.
  - unfold clamp_index.
    destruct (Z.ltb_spec n 0); [lia|].
    rewrite Z.min_r by lia. rewrite Z.sub_0_r, Nat2Z.id. simpl.
    rewrite !firstn_all2; [reflexivity| |]; lia.
Qed.

End MaxNFacts.

(** C9.  The docstring of [max_n] says "Return the n largest elements of
    an iterable", but for [n <> 1] the code takes the first [n] elements
    of the ascending sort: [max_n([1, 2, 3], n=2)] is [[1, 2]], which is
    not the two largest elements. *)
Theorem max_n_two_of_three :
  MoreIterTools.max_n (fun x => x) [1; 2; 3] 2
    = ret (MoreIterTools.Many [1; 2])
  /\ ~ MoreIterTools.n_largest (fun x => x) [1; 2; 3] 2 [1; 2].
Proof.
  split; [reflexivity|].
  intros [_ [rest [Hperm Hmax]]].
  simpl in Hperm.
  do 2 apply Permutation_cons_inv in Hperm.
  apply Permutation_sym, Permutation_length_1_inv in Hperm. subst rest.
  specialize (Hmax 1 3). simpl in Hmax.
  assert (3 <= 1) by (apply Hmax; auto).
  lia.
Qed.

(** ** GeneticEncoder.__init__ *)

Section EncoderFacts.
Import Encoder.

Lemma getitem_not_str (key : pyval) :
  isinstance_str key = false ->
  BitStringBaseTypes_getitem key = raise TypeError
  \/ BitStringBaseTypes_getitem key = raise KeyError.
Proof.
  intros Hstr. unfold BitStringBaseTypes_getitem.
  destruct (hashable key); simpl; [|now left].
  destruct key; try discriminate; now right.
Qed.

Lemma init_always_raises (chromosome_length : Z) (chunks : option Z)
  (base : pyval) :
  init chromosome_length chunks base = raise TypeError
  \/ init chromosome_length chunks base = raise KeyError.
Proof.
  unfold init. destruct (isinstance_str base) eqn:Hstr; simpl.
  - destruct base; try discriminate. now left.
  - destruct (getitem_not_str base Hstr) as [-> | ->]; simpl; auto.
Qed.

End EncoderFacts.

(** C10.  [GeneticEncoder.__init__] raises [TypeError] for every string
    [base], among them "bin", "oct" and "hex": the negated [isinstance]
    test sends a string past every branch to the unknown-base error.  A
    [BitStringBaseTypes] member or a list is used as a key into the enum
    instead and fails as well ([KeyError], and [TypeError] for the
    unhashable list); no string yields an encoder. *)
Theorem encoder_init_rejects_base_names (chromosome_length : Z)
  (chunks : option Z) :
  (forall s : string,
     Encoder.init chromosome_length chunks (Encoder.PStr s)
       = raise TypeError)
  /\ (forall m : Encoder.BitStringBaseTypes,
        Encoder.init chromosome_length chunks (Encoder.PMember m)
          = raise KeyError)
  /\ (forall items : list Encoder.pyval,
        Encoder.init chromosome_length chunks (Encoder.PList items)
          = raise TypeError)
  /\ (forall (s : string) (e : Encoder.GeneticEncoder),
        Encoder.init chromosome_length chunks (Encoder.PStr s) <> ret e).
Proof.
  repeat split; intros; try reflexivity.
  discriminate.
Qed.

(** ** GeneticSystem.__init__ *)

Lemma selector_has_no_slot :
  existsb (String.eqb (mangle Slots.class_name "__selector")) Slots.slots
  = false.
Proof. reflexivity. Qed.

Lemma encoder_has_a_slot :
  existsb (String.eqb (mangle Slots.class_name "__encoder")) Slots.slots
  = true.
Proof. reflexivity. Qed.

Section SlotFacts.
Import Slots.
Context {V : Type}.








End SlotFacts.



(** ** PointCrossOver.recombine *)

Section CrossOverFacts.
Import Recombinator.
Context {G : Type}.

Lemma randint_range (draw low high : Z) :
  low < high ->
  exists x, randint draw low high = ret x /\ low <= x < high.
Proof.
  intros H. unfold randint.
  destruct (Z.ltb_spec low high); [|lia].
  eexists. split; [reflexivity|].
  pose proof (Z.mod_pos_bound draw (high - low)). lia.
Qed.

Lemma randint_reaches (x low high : Z) :
  low <= x < high -> randint (x - low) low high = ret x.
Proof.
  intros H. unfold randint.
  destruct (Z.ltb_spec low high); [|lia].
  rewrite Z.mod_small by lia. f_equal. lia.
Qed.

(** The cut points always satisfy [0 <= left <= right < length]. *)
Lemma cut_points_range (draw_1 draw_2 length : Z) :
  0 < length ->
  exists left_point right_point,
    cut_points draw_1 draw_2 length = ret (left_point, right_point)
    /\ 0 <= left_point <= right_point /\ right_point < length.
Proof.
  intros Hlen. unfold cut_points.
  destruct (randint_range draw_1 0 length Hlen) as [l [-> Hl]]. simpl.
  destruct (randint_range draw_2 l length) as [r [-> Hr]]; [lia|]. simpl.
  exists l, r. split; [reflexivity|lia].
Qed.

(** Every such pair of cut points is drawn for some random numbers. *)
Lemma cut_points_reaches (left_point right_point length : Z) :
  0 <= left_point <= right_point -> right_point < length ->
  cut_points left_point (right_point - left_point) length
  = ret (left_point, right_point).
Proof.
  intros H1 H2. unfold cut_points.
  replace left_point with (left_point - 0) at 1 by lia.
  rewrite randint_reaches by lia. simpl.
  rewrite randint_reaches by lia. reflexivity.
Qed.

(** On an empty chromosome the first [randint] call raises. *)
Lemma cut_points_empty (draw_1 draw_2 : Z) :
  cut_points draw_1 draw_2 0 = raise ValueError.
Proof. reflexivity. Qed.

Lemma splice_spec (c1 c2 : list G) (l r : nat) :
  List.length c1 = List.length c2 -> (l <= r <= List.length c1)%nat ->
  splice c1 c2 (Z.of_nat l) (Z.of_nat r)
  = (firstn l c1 ++ firstn (r - l) (skipn l c2) ++ skipn r c1,
     firstn l c2 ++ firstn (r - l) (skipn l c1) ++ skipn r c2).
Proof.
  intros Hlen H. unfold splice.
  rewrite !slice_to, !slice_between, !slice_from by lia.
  reflexivity.
Qed.

Lemma splice_length (c1 c2 : list G) (l r : nat) :
  List.length c1 = List.length c2 -> (l <= r <= List.length c1)%nat ->
  List.length (firstn l c1 ++ firstn (r - l) (skipn l c2) ++ skipn r c1)
  = List.length c1.
Proof.
  intros Hlen H.
  rewrite !length_app, !length_firstn, !length_skipn. lia.
Qed.

Lemma recombine_spec (c1 c2 : list G) (draw_1 draw_2 : Z) :
  List.length c1 = List.length c2 -> (0 < List.length c1)%nat ->
  exists l r : nat,
    (l <= r < List.length c1)%nat
    /\ cut_points draw_1 draw_2 (Z.of_nat (List.length c1))
       = ret (Z.of_nat l, Z.of_nat r)
    /\ recombine draw_1 draw_2 c1 c2
       = ret (firstn l c1 ++ firstn (r - l) (skipn l c2) ++ skipn r c1,
              firstn l c2 ++ firstn (r - l) (skipn l c1) ++ skipn r c2).
Proof.
  intros Hlen Hpos.
  destruct (cut_points_range draw_1 draw_2 (Z.of_nat (List.length c1)))
    as [lz [rz [Hcut [Hl Hr]]]]; [lia|].
  exists (Z.to_nat lz), (Z.to_nat rz).
  rewrite !Z2Nat.id by lia.
  split; [lia|]. split; [exact Hcut|].
  unfold recombine. rewrite Hcut. simpl.
  f_equal.
  rewrite <- (Z2Nat.id lz) at 1 by lia.
  rewrite <- (Z2Nat.id rz) at 1 by lia.
  apply splice_spec; [exact Hlen|lia].
Qed.

End CrossOverFacts.

(** C7.  For parents of equal, non-zero length,
    [PointCrossOver.recombine] returns offspring 1 = parent1[:left] +
    parent2[left:right] + parent1[right:] and offspring 2 = the
    complementary swap, both of the parents' length, for cut points
    with [0 <= left <= right < length]: [randint] excludes its upper
    bound, so neither cut point is ever equal to the length, and every
    pair in that range is drawn for some random numbers.  Recombining
    "00000000" with "11111111" at the cut points (2, 5) yields
    ("00111000", "11000111"). *)
Theorem point_crossover_recombine (G : Type) (c1 c2 : list G) :
  List.length c1 = List.length c2 -> (0 < List.length c1)%nat ->
  (forall draw_1 draw_2 : Z,
     exists l r : nat,
       (l <= r < List.length c1)%nat
       /\ Recombinator.cut_points draw_1 draw_2 (Z.of_nat (List.length c1))
          = ret (Z.of_nat l, Z.of_nat r)
       /\ Recombinator.recombine draw_1 draw_2 c1 c2
          = ret (firstn l c1 ++ firstn (r - l) (skipn l c2) ++ skipn r c1,
                 firstn l c2 ++ firstn (r - l) (skipn l c1) ++ skipn r c2)
       /\ List.length
            (firstn l c1 ++ firstn (r - l) (skipn l c2) ++ skipn r c1)
          = List.length c1
       /\ List.length
            (firstn l c2 ++ firstn (r - l) (skipn l c1) ++ skipn r c2)
          = List.length c2)
  /\ (forall l r : nat,
        (l <= r < List.length c1)%nat ->
        exists draw_1 draw_2 : Z,
          Recombinator.cut_points draw_1 draw_2 (Z.of_nat (List.length c1))
          = ret (Z.of_nat l, Z.of_nat r))
  /\ (Recombinator.cut_points 2 3 8 = ret (2, 5)
      /\ Recombinator.recombine 2 3 Examples.zeros Examples.ones
         = ret (list_ascii_of_string "00111000",
                list_ascii_of_string "11000111")).
Proof.
  intros Hlen Hpos. split; [|split].
  - intros d1 d2.
    destruct (recombine_spec c1 c2 d1 d2 Hlen Hpos)
      as [l [r [Hr [Hcut Hrec]]]].
    exists l, r. repeat split; try assumption; try lia.
    + apply splice_length; [exact Hlen|lia].
    + apply splice_length; [congruence|lia].
  - intros l r H.
    exists (Z.of_nat l), (Z.of_nat r - Z.of_nat l).
    apply cut_points_reaches; lia.
  - split; reflexivity.
Qed.

Lemma point_crossover_recombine_witness :
  exists l r : nat,
    (l <= r < 8)%nat
    /\ Recombinator.recombine 2 3 Examples.zeros Examples.ones
       = ret (firstn l Examples.zeros
                ++ firstn (r - l) (skipn l Examples.ones)
                ++ skipn r Examples.zeros,
              firstn l Examples.ones
                ++ firstn (r - l) (skipn l Examples.zeros)
                ++ skipn r Examples.ones).
Proof.
  destruct (point_crossover_recombine ascii Examples.zeros Examples.ones)
    as [H _].
  - reflexivity.
  - simpl. lia.
  - destruct (H 2 3) as [l [r [Hr [_ [Hrec _]]]]].
    exists l, r. split; [exact Hr|exact Hrec].
Defined.

(** The range [0 <= left <= right <= length] is too wide: the
    cut points (2, 8) would turn "00000000" and "11111111" into
    ("00111111", "11000000"), which no random numbers produce. *)
Lemma point_crossover_never_cuts_at_length :
  Recombinator.splice Examples.zeros Examples.ones 2 8
    = (list_ascii_of_string "00111111", list_ascii_of_string "11000000")
  /\ ~ exists draw_1 draw_2 : Z,
         Recombinator.recombine draw_1 draw_2 Examples.zeros Examples.ones
         = ret (Recombinator.splice Examples.zeros Examples.ones 2 8).
Proof.
  split; [reflexivity|].
  intros [d1 [d2 H]].
  destruct (recombine_spec Examples.zeros Examples.ones d1 d2 eq_refl)
    as [l [r [Hr [_ Hrec]]]]; [simpl; lia|].
  rewrite Hrec in H. clear Hrec.
  simpl in Hr.
  assert (Hcases : (r = 0 \/ r = 1 \/ r = 2 \/ r = 3 \/ r = 4 \/ r = 5
                    \/ r = 6 \/ r = 7)%nat) by lia.
  assert (Hl : (l = 0 \/ l = 1 \/ l = 2 \/ l = 3 \/ l = 4 \/ l = 5
                \/ l = 6 \/ l = 7)%nat) by lia.
  repeat (destruct Hcases as [-> | Hcases]);
    try subst r;
    repeat (destruct Hl as [-> | Hl]); try subst l;
    try discriminate H; try lia.
Qed.

(** ** RankedSelector.select *)

Section SelectorFacts.
Import Selector.
Local Open Scope Q_scope.

Lemma Qsum_app (l1 l2 : list Q) : Qsum (l1 ++ l2) == Qsum l1 + Qsum l2.
Proof.
  induction l1 as [|x xs IH]; simpl.
  - ring.
  - rewrite IH. ring.
Qed.

Lemma Qsum_quotients (s : Q) (m : nat) :
  ~ s == 0 ->
  Qsum (map (fun i => inject_Z i / s) (map Z.of_nat (seq 0 m)))
  == inject_Z (Z.of_nat m) * (inject_Z (Z.of_nat m) - 1) / 2 / s.
Proof.
  intros Hs. induction m as [|m IH].
  - simpl. field. exact Hs.
  - rewrite seq_S, !map_app, Qsum_app, IH. simpl Qsum.
    rewrite Nat2Z.inj_succ. unfold Z.succ. rewrite inject_Z_plus.
    simpl (0 + m)%nat. field. exact Hs.
Qed.

Lemma rank_sum_nonzero (n : Z) : (1 <= n)%Z -> ~ rank_sum n == 0.
Proof.
  intros Hn. unfold rank_sum, Qeq, Qdiv, Qmult, Qinv. simpl. nia.
Qed.

(** The lowest rank gets weight zero, and the weights of a population
    of size [n] sum to [(n - 1) / (n + 1)], which is not one. *)
Lemma ranks_head (n : Z) : (1 <= n)%Z -> nth 0 (ranks n) 1 == 0.
Proof.
  intros Hn. unfold ranks, range.
  destruct (Z.to_nat n) as [|m] eqn:E; [lia|].
  simpl. unfold Qdiv. ring.
Qed.

Lemma ranks_sum (n : Z) :
  (1 <= n)%Z -> Qsum (ranks n) == inject_Z (n - 1) / inject_Z (n + 1).
Proof.
  intros Hn. unfold ranks, range.
  rewrite Qsum_quotients by (apply rank_sum_nonzero, Hn).
  rewrite Z2Nat.id by lia.
  unfold rank_sum. unfold Z.sub. rewrite !inject_Z_plus.
  change (inject_Z (- (1))) with (- (1)).
  change (inject_Z 1) with 1.
  assert (H0 : ~ inject_Z n == 0).
  { unfold Qeq. simpl. lia. }
  assert (H1 : ~ inject_Z n + 1 == 0).
  { unfold Qeq, Qplus. simpl. lia. }
  field. split; assumption.
Qed.

Lemma ranks_sum_not_one (n : Z) : (1 <= n)%Z -> ~ Qsum (ranks n) == 1.
Proof.
  intros Hn H. rewrite ranks_sum in H by exact Hn.
  revert H. unfold Qeq, Qdiv, Qmult, Qinv. simpl.
  destruct (n + 1)%Z eqn:E; simpl; lia.
Qed.

End SelectorFacts.

(** C6.  [RankedSelector.select] gives the individual at sorted position
    [i] the weight [i / sum(1..N)], not [(i + 1) / sum(1..N)]: the ranks
    run over [range(pop_size)].  For a population of three the weights
    are 0, 1/6 and 1/3; the lowest-ranked individual has probability
    zero, the weights sum to 1/2, and the generator rejects them, so
    that the selection raises [ValueError]. *)
Theorem ranked_selector_weights_of_three :
  Forall2 Qeq (Selector.ranks 3) [0; 1 # 6; 1 # 3]%Q
  /\ (Selector.Qsum (Selector.ranks 3) == 1 # 2)%Q
  /\ forall (uniforms : list Q) (quantity : Z),
       Selector.RankedSelector_select uniforms
         ["a"; "b"; "c"]%string [1; 2; 3]%Q quantity
       = raise ValueError.
Proof.
  split; [|split].
  - repeat constructor.
  - reflexivity.
  - intros. reflexivity.
Qed.

(** ** Decay functions *)

Section DecayFacts.
Import Decay.
Local Open Scope Q_scope.

Lemma Qltb_spec (a b : Q) : Qltb a b = true <-> a < b.
Proof.
  unfold Qltb. rewrite negb_true_iff. split.
  - intros H. apply Qnot_le_lt. intros Hle.
    apply Qle_bool_iff in Hle. congruence.
  - intros H. destruct (Qle_bool b a) eqn:E; [|reflexivity].
    apply Qle_bool_iff in E. apply Qlt_not_le in H. contradiction.
Qed.

End DecayFacts.

(** ** Rounding to a float *)

Section RoundingFacts.
Import Binary64.

Lemma floor_bounds (m : Q) :
  (inject_Z (Qfloor m) <= m)%Q /\ (m < inject_Z (Qfloor m) + 1)%Q.
Proof.
  split; [apply Qfloor_le|].
  pose proof (Qlt_floor m) as H. rewrite inject_Z_plus in H. exact H.
Qed.

Lemma round_half_even_cases (m : Q) :
  let f := Qfloor m in
  (round_half_even m = f /\ (m - inject_Z f <= 1 # 2)%Q
   /\ ((m - inject_Z f == 1 # 2)%Q -> Z.even f = true))
  \/ (round_half_even m = f + 1 /\ (1 # 2 <= m - inject_Z f)%Q
      /\ ((m - inject_Z f == 1 # 2)%Q -> Z.even f = false)).
Proof.
  intros f. unfold round_half_even. fold f.
  destruct (Qcompare_spec (m - inject_Z f) (1 # 2)) as [E|E|E].
  - destruct (Z.even f) eqn:Hf.
    + left. split; [reflexivity|]. split; [rewrite E; apply Qle_refl|auto].
    + right. split; [reflexivity|]. split; [rewrite E; apply Qle_refl|auto].
  - left. split; [reflexivity|]. split; [apply Qlt_le_weak, E|].
    intros H. rewrite H in E. apply Qlt_irrefl in E. contradiction.
  - right. split; [reflexivity|]. split; [apply Qlt_le_weak, E|].
    intros H. rewrite H in E. apply Qlt_irrefl in E. contradiction.
Qed.


Lemma round_half_even_le (a b : Q) :
  (a <= b)%Q -> round_half_even a <= round_half_even b.
Proof.
  intros Hab.
  pose proof (Qfloor_resp_le a b Hab) as Hf.
  destruct (round_half_even_cases a) as [[Ea [Ha Ha']]|[Ea [Ha Ha']]];
    destruct (round_half_even_cases b) as [[Eb [Hb Hb']]|[Eb [Hb Hb']]];
    rewrite Ea, Eb; try lia.
  destruct (Z.eq_dec (Qfloor a) (Qfloor b)) as [E|E]; [|lia].
  exfalso. rewrite E in *.
  assert (Hhalf : (a - inject_Z (Qfloor b) == 1 # 2)%Q) by lra.
  assert (Hhalf' : (b - inject_Z (Qfloor b) == 1 # 2)%Q) by lra.
  specialize (Ha' Hhalf). specialize (Hb' Hhalf'). congruence.
Qed.

Lemma round_half_even_comp (a b : Q) :
  (a == b)%Q -> round_half_even a = round_half_even b.
Proof.
  intros H. apply Z.le_antisymm; apply round_half_even_le; rewrite H;
    apply Qle_refl.
Qed.

Lemma round_half_even_Z (k : Z) : round_half_even (inject_Z k) = k.
Proof.
  unfold round_half_even. rewrite Qfloor_Z.
  destruct (Qcompare_spec (inject_Z k - inject_Z k) (1 # 2)) as [E|E|E].
  - exfalso. assert (H : (0 == 1 # 2)%Q) by (rewrite <- E; ring).
    discriminate H.
  - reflexivity.
  - exfalso. assert (H : (1 # 2 < 0)%Q) by lra. discriminate H.
Qed.

Lemma shift_nonneg (s : Q) : 0 <= shift s.
Proof. unfold shift. lia. Qed.

Lemma shift_le (s t : Q) : (s <= t)%Q -> shift s <= shift t.
Proof.
  intros H. unfold shift.
  pose proof (Z.log2_le_mono _ _ (Qfloor_resp_le s t H)). lia.
Qed.

Lemma pow2_pos (j : Z) : 0 <= j -> 0 < 2 ^ j.
Proof. intros H. apply Z.pow_pos_nonneg; lia. Qed.

Lemma inject_pow2_pos (j : Z) : 0 <= j -> (0 < inject_Z (2 ^ j))%Q.
Proof.
  intros H. change 0%Q with (inject_Z 0). rewrite <- Zlt_Qlt.
  apply pow2_pos, H.
Qed.

Lemma below_next_power (s : Q) :
  (0 <= s)%Q -> (s < inject_Z (2 ^ (53 + shift s)))%Q.
Proof.
  intros Hs.
  assert (Hf : 0 <= Qfloor s).
  { change 0 with (Qfloor 0). apply Qfloor_resp_le, Hs. }
  assert (Hlt : Qfloor s < 2 ^ (Z.log2 (Qfloor s) + 1)).
  { destruct (Z.eq_dec (Qfloor s) 0) as [E|E].
    - rewrite E. reflexivity.
    - pose proof (Z.log2_spec (Qfloor s) ltac:(lia)) as H.
      unfold Z.succ in H. lia. }
  assert (Hpow : 2 ^ (Z.log2 (Qfloor s) + 1) <= 2 ^ (53 + shift s)).
  { apply Z.pow_le_mono_r; [lia|]. unfold shift. lia. }
  destruct (floor_bounds s) as [_ H2].
  eapply Qlt_le_trans; [exact H2|].
  change 1%Q with (inject_Z 1). rewrite <- inject_Z_plus, <- Zle_Qle. lia.
Qed.

Lemma above_power (s : Q) :
  1 <= shift s -> (inject_Z (2 ^ (52 + shift s)) <= s)%Q.
Proof.
  intros H. unfold shift in *.
  assert (HL : 53 <= Z.log2 (Qfloor s)) by lia.
  assert (Hpos : 0 < Qfloor s).
  { destruct (Z.lt_ge_cases 0 (Qfloor s)) as [Hp|Hn]; [exact Hp|].
    rewrite Z.log2_nonpos in HL by lia. lia. }
  pose proof (Z.log2_spec (Qfloor s) Hpos) as [Hlo _].
  eapply Qle_trans; [|apply Qfloor_le].
  rewrite <- Zle_Qle.
  replace (52 + Z.max (Z.log2 (Qfloor s) - 52) 0) with (Z.log2 (Qfloor s))
    by lia.
  exact Hlo.
Qed.

Lemma scaled_split (a j : Z) :
  0 <= a -> 0 <= j ->
  (inject_Z (2 ^ (a + j)) == inject_Z (2 ^ a) * inject_Z (2 ^ j))%Q.
Proof.
  intros Ha Hj. rewrite Z.pow_add_r by lia. rewrite inject_Z_mult.
  reflexivity.
Qed.

Lemma mantissa_bounds (s : Q) :
  (0 <= s)%Q ->
  let k := round_half_even (s / inject_Z (2 ^ shift s)) in
  0 <= k <= 2 ^ 53 /\ (1 <= shift s -> 2 ^ 52 <= k).
Proof.
  intros Hs k.
  pose proof (shift_nonneg s) as Hj.
  pose proof (inject_pow2_pos _ Hj) as Hpos.
  assert (Hm0 : (0 <= s / inject_Z (2 ^ shift s))%Q).
  { apply Qle_shift_div_l; [exact Hpos|]. rewrite Qmult_0_l. exact Hs. }
  assert (Hm1 : (s / inject_Z (2 ^ shift s) <= inject_Z (2 ^ 53))%Q).
  { apply Qle_shift_div_r; [exact Hpos|].
    rewrite <- scaled_split by lia. apply Qlt_le_weak, below_next_power, Hs. }
  split; [split|].
  - rewrite <- (round_half_even_Z 0). apply round_half_even_le, Hm0.
  - rewrite <- (round_half_even_Z (2 ^ 53)). apply round_half_even_le, Hm1.
  - intros H1. rewrite <- (round_half_even_Z (2 ^ 52)).
    apply round_half_even_le.
    apply Qle_shift_div_l; [exact Hpos|].
    rewrite <- scaled_split by lia. apply above_power, H1.
Qed.

Lemma round_magnitude_comp (s t : Q) :
  (s == t)%Q -> round_magnitude s = round_magnitude t.
Proof.
  intros H. unfold round_magnitude, shift.
  rewrite (Qfloor_comp s t H).
  f_equal. apply round_half_even_comp. rewrite H. reflexivity.
Qed.

Lemma round_magnitude_nonneg (s : Q) : (0 <= s)%Q -> 0 <= round_magnitude s.
Proof.
  intros Hs. unfold round_magnitude.
  destruct (mantissa_bounds s Hs) as [[H0 _] _].
  pose proof (pow2_pos _ (shift_nonneg s)). nia.
Qed.

Lemma round_magnitude_le (s t : Q) :
  (0 <= s)%Q -> (s <= t)%Q -> round_magnitude s <= round_magnitude t.
Proof.
  intros Hs Hst.
  assert (Ht : (0 <= t)%Q) by lra.
  pose proof (shift_le s t Hst) as Hj.
  pose proof (shift_nonneg s) as Hjs.
  destruct (mantissa_bounds s Hs) as [[_ Hks] _].
  destruct (mantissa_bounds t Ht) as [_ Hkt].
  unfold round_magnitude.
  destruct (Z.eq_dec (shift s) (shift t)) as [E|E].
  - rewrite E. apply Z.mul_le_mono_nonneg_r.
    + apply Z.lt_le_incl, pow2_pos. lia.
    + apply round_half_even_le.
      apply Qmult_le_compat_r; [exact Hst|].
      apply Qinv_le_0_compat, Qlt_le_weak, inject_pow2_pos. lia.
  - specialize (Hkt ltac:(lia)).
    apply Z.le_trans with (2 ^ 53 * 2 ^ shift s).
    + apply Z.mul_le_mono_nonneg_r; [|exact Hks].
      apply Z.lt_le_incl, pow2_pos. lia.
    + apply Z.le_trans with (2 ^ 52 * 2 ^ shift t).
      * rewrite <- !Z.pow_add_r by lia. apply Z.pow_le_mono_r; lia.
      * apply Z.mul_le_mono_nonneg_r; [|exact Hkt].
        apply Z.lt_le_incl, pow2_pos. lia.
Qed.

Lemma round_magnitude_fixed (k j : Z) :
  0 <= k <= 2 ^ 53 -> 0 <= j ->
  round_magnitude (inject_Z (k * 2 ^ j)) = k * 2 ^ j.
Proof.
  intros Hk Hj.
  set (n := k * 2 ^ j).
  assert (Hdiv : exists k', n = k' * 2 ^ shift (inject_Z n)).
  { unfold shift. rewrite Qfloor_Z.
    destruct (Z.le_gt_cases (Z.log2 n) 52) as [Hsmall|Hbig].
    - rewrite Z.max_r by lia. exists n. rewrite Z.pow_0_r. lia.
    - rewrite Z.max_l by lia.
      assert (Hkpos : 0 < k).
      { destruct (Z.eq_dec k 0) as [E|E]; [|lia].
        subst n. rewrite E in Hbig. simpl in Hbig. lia. }
      assert (Hlog : Z.log2 n = j + Z.log2 k).
      { subst n. apply Z.log2_mul_pow2; lia. }
      assert (Hlk : Z.log2 k <= 53).
      { change 53 with (Z.log2 (2 ^ 53)). apply Z.log2_le_mono. lia. }
      destruct (Z.eq_dec (Z.log2 k) 53) as [E53|E53].
      + assert (Ek : k = 2 ^ 53).
        { pose proof (Z.log2_spec k Hkpos) as [Hlo _]. rewrite E53 in Hlo.
          lia. }
        exists (2 ^ 52). rewrite Hlog, E53. subst n. rewrite Ek.
        replace (j + 53 - 52) with (j + 1) by lia.
        rewrite <- !Z.pow_add_r by lia. f_equal. lia.
      + exists (k * 2 ^ (j - (Z.log2 n - 52))). subst n.
        rewrite <- Z.mul_assoc, <- Z.pow_add_r by lia. do 2 f_equal. lia. }
  destruct Hdiv as [k' Hk'].
  unfold round_magnitude.
  set (j' := shift (inject_Z n)) in *.
  assert (Hj' : 0 <= j') by apply shift_nonneg.
  pose proof (inject_pow2_pos j' Hj') as Hpos.
  assert (Hm : (inject_Z n / inject_Z (2 ^ j') == inject_Z k')%Q).
  { rewrite Hk' at 1. rewrite inject_Z_mult. field.
    intros H. rewrite H in Hpos. apply Qlt_irrefl in Hpos. exact Hpos. }
  rewrite (round_half_even_comp _ _ Hm), round_half_even_Z. lia.
Qed.

End RoundingFacts.

Section SignedRoundingFacts.
Import Binary64.

Lemma round_of_nonneg (s : Q) : (0 <= s)%Q -> round s = round_magnitude s.
Proof.
  intros H. unfold round.
  destruct (Decay.Qltb s 0) eqn:E; [|reflexivity].
  apply Qltb_spec in E. lra.
Qed.

Lemma round_of_neg (s : Q) : (s < 0)%Q -> round s = - round_magnitude (- s).
Proof.
  intros H. unfold round.
  apply Qltb_spec in H. rewrite H. reflexivity.
Qed.

Lemma round_le (s t : Q) : (s <= t)%Q -> round s <= round t.
Proof.
  intros Hst.
  destruct (Qlt_le_dec s 0) as [Hs|Hs]; destruct (Qlt_le_dec t 0) as [Ht|Ht].
  - rewrite !round_of_neg by assumption.
    assert (H : round_magnitude (- t) <= round_magnitude (- s))
      by (apply round_magnitude_le; lra).
    lia.
  - rewrite round_of_neg, round_of_nonneg by assumption.
    assert (H1 : 0 <= round_magnitude (- s))
      by (apply round_magnitude_nonneg; lra).
    assert (H2 : 0 <= round_magnitude t)
      by (apply round_magnitude_nonneg; lra).
    lia.
  - lra.
  - rewrite !round_of_nonneg by assumption.
    apply round_magnitude_le; assumption.
Qed.

Lemma round_comp (s t : Q) : (s == t)%Q -> round s = round t.
Proof.
  intros H. apply Z.le_antisymm; apply round_le; rewrite H; apply Qle_refl.
Qed.

Lemma inject_Z_nonneg (n : Z) : 0 <= n -> (0 <= inject_Z n)%Q.
Proof. intros H. change 0%Q with (inject_Z 0). rewrite <- Zle_Qle. exact H. Qed.

Lemma round_fixed (k j : Z) :
  0 <= k <= 2 ^ 53 -> 0 <= j -> round (inject_Z (k * 2 ^ j)) = k * 2 ^ j.
Proof.
  intros Hk Hj. rewrite round_of_nonneg.
  - apply round_magnitude_fixed; assumption.
  - apply inject_Z_nonneg. pose proof (pow2_pos j Hj). nia.
Qed.

Lemma round_0 : round 0 = 0.
Proof. reflexivity. Qed.

Lemma round_one : round (inject_Z one_units) = one_units.
Proof.
  unfold one_units. rewrite <- (Z.mul_1_l (2 ^ 1074)).
  apply round_fixed; lia.
Qed.

Lemma round_nonneg (s : Q) : (0 <= s)%Q -> 0 <= round s.
Proof. intros H. rewrite <- round_0. apply round_le, H. Qed.

(** Rounding gives a value of the format. *)
Lemma round_magnitude_round (s : Q) :
  (0 <= s)%Q ->
  round (inject_Z (round_magnitude s)) = round_magnitude s.
Proof.
  intros Hs. unfold round_magnitude at 1 2.
  apply round_fixed; [apply mantissa_bounds, Hs|apply shift_nonneg].
Qed.

Lemma round_opp (n : Z) :
  round (inject_Z n) = n -> round (inject_Z (- n)) = - n.
Proof.
  intros H.
  destruct (Z.lt_trichotomy n 0) as [Hn|[Hn|Hn]].
  - rewrite round_of_neg in H
      by (change 0%Q with (inject_Z 0); rewrite <- Zlt_Qlt; exact Hn).
    rewrite round_of_nonneg by (apply inject_Z_nonneg; lia).
    rewrite <- inject_Z_opp in H. lia.
  - subst n. reflexivity.
  - rewrite round_of_nonneg in H by (apply inject_Z_nonneg; lia).
    rewrite round_of_neg
      by (change 0%Q with (inject_Z 0); rewrite <- Zlt_Qlt; lia).
    rewrite <- inject_Z_opp, Z.opp_involutive. lia.
Qed.

Lemma round_round (s : Q) : round (inject_Z (round s)) = round s.
Proof.
  destruct (Qlt_le_dec s 0) as [Hs|Hs].
  - rewrite (round_of_neg s Hs).
    apply round_opp. apply round_magnitude_round. lra.
  - rewrite (round_of_nonneg s Hs).
    apply round_magnitude_round, Hs.
Qed.

Lemma of_units_finite (s : Q) (n : Z) :
  of_units s = Finite n <-> n = round s /\ Z.abs (round s) < overflow_units.
Proof.
  unfold of_units. cbv zeta.
  destruct (Z.leb_spec overflow_units (Z.abs (round s))) as [H|H].
  - split; [discriminate|]. intros [_ H']. lia.
  - split.
    + intros E. injection E as <-. auto.
    + intros [-> _]. reflexivity.
Qed.

Lemma of_units_in_range (s : Q) :
  Z.abs (round s) < overflow_units -> of_units s = Finite (round s).
Proof. intros H. apply of_units_finite. auto. Qed.

Lemma of_Q_finite (q : Q) (x : float) :
  of_Q q = ret x <->
  x = Finite (round (q * inject_Z one_units))
  /\ Z.abs (round (q * inject_Z one_units)) < overflow_units.
Proof.
  unfold of_Q, of_units. cbv zeta.
  destruct (Z.leb_spec overflow_units
              (Z.abs (round (q * inject_Z one_units)))) as [H|H].
  - split; [discriminate|]. intros [_ H']. lia.
  - split.
    + intros E. injection E as <-. auto.
    + intros [-> _]. reflexivity.
Qed.

Lemma of_Q_raises (q : Q) :
  overflow_units <= Z.abs (round (q * inject_Z one_units)) ->
  of_Q q = raise OverflowError.
Proof.
  intros H. unfold of_Q, of_units. cbv zeta.
  destruct (Z.leb_spec overflow_units
              (Z.abs (round (q * inject_Z one_units)))) as [_|H'];
    [reflexivity|lia].
Qed.

Lemma one_below_overflow : one_units < overflow_units.
Proof.
  unfold one_units, overflow_units. apply Z.pow_lt_mono_r; lia.
Qed.

Lemma one_units_pos : 0 < one_units.
Proof. unfold one_units. apply pow2_pos. lia. Qed.

End SignedRoundingFacts.

(** Some values as Python prints them: [0.1] is
    [3602879701896397 * 2^-55], [1.0 - 0.1] is [0.9], that is
    [8106479329266893 * 2^-53], [0.1 * 0.9] is [0.09000000000000001],
    that is [6485183463413515 * 2^-56], [1.0 / 3.0] is
    [6004799503160661 * 2^-54], the smallest float is [2^-1074], and
    [float(Fraction(10 ** 400))] raises [OverflowError]. *)
Lemma float_examples :
  Binary64.of_Q (1 # 10)
  = ret (Binary64.Finite (3602879701896397 * 2 ^ 1019))
  /\ Binary64.sub Binary64.one
       (Binary64.Finite (3602879701896397 * 2 ^ 1019))
     = Binary64.Finite (8106479329266893 * 2 ^ 1021)
  /\ Binary64.mul (Binary64.Finite (3602879701896397 * 2 ^ 1019))
       (Binary64.Finite (8106479329266893 * 2 ^ 1021))
     = Binary64.Finite (6485183463413515 * 2 ^ 1018)
  /\ Binary64.div Binary64.one (Binary64.Finite (3 * 2 ^ 1074))
     = ret (Binary64.Finite (6004799503160661 * 2 ^ 1020))
  /\ Binary64.of_Q (1 # 2 ^ 1074) = ret (Binary64.Finite 1)
  /\ Binary64.of_Q (1 # 2 ^ 1076) = ret (Binary64.Finite 0)
  /\ Binary64.of_Q (10 ^ 400 # 1) = raise OverflowError.
Proof. repeat split; vm_compute; reflexivity. Qed.

(** ** The decay schedules *)

Section ScheduleFacts.
Import Binary64 Schedule.

Lemma representable_round (s : Q) :
  Z.abs (round s) < overflow_units -> representable (round s).
Proof. intros H. split; [apply round_round|exact H]. Qed.

Lemma of_Q_representable (q : Q) (n : Z) :
  of_Q q = ret (Finite n) -> representable n.
Proof.
  intros H. apply of_Q_finite in H. destruct H as [E H].
  injection E as ->. apply representable_round, H.
Qed.


Lemma of_Q_unit (d : Q) :
  (0 <= d)%Q -> (d <= 1)%Q ->
  exists b, of_Q d = ret (Finite b) /\ 0 <= b <= one_units.
Proof.
  intros H0 H1.
  assert (Hpos : (0 <= inject_Z one_units)%Q)
    by (apply inject_Z_nonneg; pose proof one_units_pos; lia).
  assert (Hb : 0 <= round (d * inject_Z one_units) <= one_units).
  { split.
    - apply round_nonneg. apply Qmult_le_0_compat; assumption.
    - rewrite <- round_one. apply round_le.
      rewrite <- (Qmult_1_l (inject_Z one_units)) at 2.
      apply Qmult_le_compat_r; assumption. }
  exists (round (d * inject_Z one_units)). split; [|exact Hb].
  apply of_Q_finite. split; [reflexivity|].
  pose proof one_below_overflow. lia.
Qed.

Lemma sub_from_one (b : Z) :
  0 <= b <= one_units ->
  exists t, sub one (Finite b) = Finite t /\ 0 <= t <= one_units
            /\ t = round (inject_Z (one_units - b)).
Proof.
  intros Hb.
  assert (Ht : 0 <= round (inject_Z (one_units - b)) <= one_units).
  { split.
    - apply round_nonneg, inject_Z_nonneg. lia.
    - apply Z.le_trans with (round (inject_Z one_units));
        [|rewrite round_one; lia].
      apply round_le. rewrite <- Zle_Qle. lia. }
  exists (round (inject_Z (one_units - b))).
  split; [|split; [exact Ht|reflexivity]].
  unfold sub, one, opp, add. rewrite Z.add_opp_r.
  apply of_units_in_range. pose proof one_below_overflow. lia.
Qed.


Lemma mul_by_part (a t : Z) :
  0 <= a -> representable a -> 0 <= t <= one_units ->
  exists r, mul (Finite a) (Finite t) = Finite r /\ 0 <= r <= a
            /\ representable r
            /\ r = round (inject_Z (a * t) / inject_Z one_units).
Proof.
  intros Ha [Hfix Hrange] Ht.
  assert (Hpos : (0 < inject_Z one_units)%Q).
  { change 0%Q with (inject_Z 0). rewrite <- Zlt_Qlt. apply one_units_pos. }
  assert (Hr : 0 <= round (inject_Z (a * t) / inject_Z one_units) <= a).
  { split.
    - apply round_nonneg. apply Qle_shift_div_l; [exact Hpos|].
      rewrite Qmult_0_l. apply inject_Z_nonneg. nia.
    - rewrite <- Hfix at 2. apply round_le.
      apply Qle_shift_div_r; [exact Hpos|].
      rewrite <- inject_Z_mult, <- Zle_Qle. nia. }
  exists (round (inject_Z (a * t) / inject_Z one_units)).
  assert (Hin : Z.abs (round (inject_Z (a * t) / inject_Z one_units))
                < overflow_units) by lia.
  split; [|split; [exact Hr|split; [|reflexivity]]].
  - unfold mul. apply of_units_in_range, Hin.
  - apply representable_round, Hin.
Qed.

Lemma exponential_decay_spec (x : real) (d : Q) (a : Z) :
  to_float x = ret (Finite a) -> 0 <= a -> representable a ->
  (0 <= d)%Q -> (d <= 1)%Q ->
  exists b t r,
    of_Q d = ret (Finite b)
    /\ t = round (inject_Z (one_units - b)) /\ 0 <= t <= one_units
    /\ r = round (inject_Z (a * t) / inject_Z one_units)
    /\ exponential_decay x (Fraction d) = ret (Float (Finite r))
    /\ 0 <= r <= a /\ representable r.
Proof.
  intros Hx Ha Hrep H0 H1.
  destruct (of_Q_unit d H0 H1) as [b [Hb Hbr]].
  destruct (sub_from_one b Hbr) as [t [Hsub [Htr Ht]]].
  destruct (mul_by_part a t Ha Hrep Htr) as [r [Hmul [Hrr [Hrrep Hr]]]].
  exists b, t, r.
  split; [exact Hb|]. split; [exact Ht|]. split; [exact Htr|].
  split; [exact Hr|]. split; [|split; [exact Hrr|exact Hrrep]].
  unfold exponential_decay. cbn [to_float]. rewrite Hb. cbn [bind ret].
  rewrite Hx. cbn [bind ret]. rewrite Hsub, Hmul. reflexivity.
Qed.


End ScheduleFacts.

Section PolynomialFacts.
Import Binary64 Schedule.












End PolynomialFacts.

Section LinearFacts.
Import Binary64 Schedule.

Lemma linear_decay_fractions (v d : Q) :
  linear_decay (Fraction v) (Fraction d)
  = ret (if Decay.Qltb 0 (v - d) then Fraction (v - d) else Float zero).
Proof. reflexivity. Qed.




Lemma of_Q_nonneg (d : Q) (b : Z) :
  (0 <= d)%Q -> of_Q d = ret (Finite b) -> 0 <= b.
Proof.
  intros Hd H. apply of_Q_finite in H. destruct H as [E _].
  injection E as ->. apply round_nonneg.
  apply Qmult_le_0_compat; [exact Hd|].
  apply inject_Z_nonneg. pose proof one_units_pos. lia.
Qed.

Lemma of_Q_returns_finite (d : Q) (x : float) :
  of_Q d = ret x -> exists b, x = Finite b.
Proof. intros H. apply of_Q_finite in H. destruct H as [-> _]. eauto. Qed.

Lemma linear_decay_floored (d : Q) (x : float) :
  (0 <= d)%Q -> of_Q d = ret x ->
  linear_decay (Float zero) (Fraction d) = ret (Float zero).
Proof.
  intros Hd Hx.
  destruct (of_Q_returns_finite d x Hx) as [b ->].
  pose proof (of_Q_nonneg d b Hd Hx) as Hb.
  destruct (of_Q_representable d b Hx) as [Hfix Hrange].
  unfold linear_decay, real_sub. cbn [to_float bind ret].
  rewrite Hx. cbn [bind ret].
  assert (E : sub zero (Finite b) = Finite (- b)).
  { unfold sub, zero, opp, add. rewrite Z.add_0_l.
    rewrite <- (round_opp b Hfix) at 2.
    apply of_units_in_range. rewrite (round_opp b Hfix). lia. }
  rewrite E. cbn [positive ltb zero].
  destruct (Z.ltb_spec 0 (- b)); [lia|reflexivity].
Qed.

Lemma linear_decay_floored_raises (d : Q) :
  of_Q d = raise OverflowError ->
  linear_decay (Float zero) (Fraction d) = raise OverflowError.
Proof.
  intros H. unfold linear_decay, real_sub. cbn [to_float bind ret].
  rewrite H. reflexivity.
Qed.

Lemma iterate_succ_r (g : nat) (schedule : real -> result real) (x : real) :
  iterate (S g) schedule x = (y <- iterate g schedule x ;; schedule y).
Proof.
  revert x. induction g as [|g IH]; intros x.
  - simpl. destruct (schedule x); reflexivity.
  - change (iterate (S (S g)) schedule x)
      with (y <- schedule x ;; iterate (S g) schedule y).
    change (iterate (S g) schedule x)
      with (y <- schedule x ;; iterate g schedule y).
    destruct (schedule x) as [e|y]; [reflexivity|].
    cbn [bind]. apply IH.
Qed.

Lemma iterate_linear_floored (g : nat) (d : Q) (x : float) :
  (0 <= d)%Q -> of_Q d = ret x ->
  iterate g (fun value => linear_decay value (Fraction d)) (Float zero)
  = ret (Float zero).
Proof.
  intros Hd Hx. induction g as [|g IH]; [reflexivity|].
  cbn [iterate]. rewrite (linear_decay_floored d x Hd Hx). exact IH.
Qed.

Lemma iterate_linear (g : nat) (v d : Q) (fd : float) :
  (0 <= d)%Q -> of_Q d = ret fd ->
  exists x,
    iterate (S g) (fun value => linear_decay value (Fraction d)) (Fraction v)
    = ret x
    /\ ((0 < v - inject_Z (Z.of_nat (S g)) * d)%Q ->
        exists q, x = Fraction q
                  /\ (q == v - inject_Z (Z.of_nat (S g)) * d)%Q)
    /\ ((v - inject_Z (Z.of_nat (S g)) * d <= 0)%Q -> x = Float zero).
Proof.
  intros Hd Hfd. revert v. induction g as [|g IH]; intros v.
  - cbn [iterate]. rewrite linear_decay_fractions. cbn [bind ret].
    change (inject_Z (Z.of_nat 1)) with 1%Q.
    destruct (Decay.Qltb 0 (v - d)) eqn:E.
    + apply Qltb_spec in E. eexists. split; [reflexivity|]. split.
      * intros _. eexists. split; [reflexivity|]. ring.
      * intros H. lra.
    + assert (H : (v - d <= 0)%Q).
      { apply Qnot_lt_le. intros H. apply Qltb_spec in H. congruence. }
      eexists. split; [reflexivity|]. split.
      * intros H'. lra.
      * reflexivity.
  - change (iterate (S (S g)) (fun value => linear_decay value (Fraction d))
              (Fraction v))
      with (y <- linear_decay (Fraction v) (Fraction d) ;;
            iterate (S g) (fun value => linear_decay value (Fraction d)) y).
    rewrite linear_decay_fractions. cbn [bind ret].
    assert (Hn : (inject_Z (Z.of_nat (S (S g)))
                  == inject_Z (Z.of_nat (S g)) + 1)%Q).
    { rewrite (Nat2Z.inj_succ (S g)). unfold Z.succ.
      rewrite inject_Z_plus. reflexivity. }
    assert (Hk : (0 <= inject_Z (Z.of_nat (S g)))%Q)
      by (apply inject_Z_nonneg; lia).
    assert (Hkd : (0 <= inject_Z (Z.of_nat (S g)) * d)%Q)
      by (apply Qmult_le_0_compat; assumption).
    destruct (Decay.Qltb 0 (v - d)) eqn:E.
    + destruct (IH (v - d)%Q) as [x [Hx [Hpos Hneg]]].
      exists x. split; [exact Hx|]. split.
      * intros H. destruct Hpos as [q [-> Hq]].
        { rewrite Hn in H. lra. }
        exists q. split; [reflexivity|]. rewrite Hq, Hn. ring.
      * intros H. apply Hneg. rewrite Hn in H. lra.
    + assert (H : (v - d <= 0)%Q).
      { apply Qnot_lt_le. intros H. apply Qltb_spec in H. congruence. }
      exists (Float zero). split.
      * apply (iterate_linear_floored (S g) d fd Hd Hfd).
      * split; [|reflexivity]. intros H'. rewrite Hn in H'. lra.
Qed.

Lemma iterate_linear_overflow (g : nat) (v d : Q) :
  of_Q d = raise OverflowError -> (v - d <= 0)%Q ->
  iterate 1 (fun value => linear_decay value (Fraction d)) (Fraction v)
  = ret (Float zero)
  /\ iterate (S (S g)) (fun value => linear_decay value (Fraction d))
       (Fraction v)
     = raise OverflowError.
Proof.
  intros Hd Hv.
  assert (E : Decay.Qltb 0 (v - d) = false).
  { destruct (Decay.Qltb 0 (v - d)) eqn:E; [|reflexivity].
    apply Qltb_spec in E. lra. }
  split.
  - cbn [iterate]. rewrite linear_decay_fractions, E. reflexivity.
  - change (iterate (S (S g)) (fun value => linear_decay value (Fraction d))
              (Fraction v))
      with (y <- linear_decay (Fraction v) (Fraction d) ;;
            z <- linear_decay y (Fraction d) ;;
            iterate g (fun value => linear_decay value (Fraction d)) z).
    rewrite linear_decay_fractions, E. cbn [bind ret].
    rewrite (linear_decay_floored_raises d Hd). reflexivity.
Qed.

Lemma iterate_exponential (g : nat) (v d : Q) (a : Z) :
  (0 <= v)%Q -> of_Q v = ret (Finite a) -> (0 <= d)%Q -> (d <= 1)%Q ->
  exists r,
    iterate (S g) (fun value => exponential_decay value (Fraction d))
      (Fraction v)
    = ret (Float (Finite r))
    /\ 0 <= r <= a /\ representable r.
Proof.
  intros Hv Ha H0 H1.
  pose proof (of_Q_nonneg v a Hv Ha) as Ha0.
  pose proof (of_Q_representable v a Ha) as Harep.
  induction g as [|g IH].
  - destruct (exponential_decay_spec (Fraction v) d a Ha Ha0 Harep H0 H1)
      as [b [t [r [_ [_ [_ [_ [E [Hr Hrep]]]]]]]]].
    exists r. split; [|split; assumption].
    cbn [iterate]. rewrite E. reflexivity.
  - destruct IH as [r [E [Hr Hrep]]].
    destruct (exponential_decay_spec (Float (Finite r)) d r eq_refl
                ltac:(lia) Hrep H0 H1)
      as [b [t [r' [_ [_ [_ [_ [E' [Hr' Hrep']]]]]]]]].
    exists r'. split; [|split; [lia|exact Hrep']].
    rewrite iterate_succ_r, E. cbn [bind]. exact E'.
Qed.

End LinearFacts.




(** ** The run monad *)

Section MonadFacts.
Import System.
Context {CT W : Type}.

Lemma produces_ret {A} (P : event CT -> Prop) (Q : A -> Prop) (a : A) :
  Q a -> produces (W:=W) P Q (retM a).
Proof.
  intros H s. exists []. simpl. rewrite app_nil_r. auto.
Qed.

Lemma produces_raise {A} (P : event CT -> Prop) (Q : A -> Prop) (e : exn) :
  produces (W:=W) P Q (raiseM e).
Proof.
  intros s. exists []. simpl. rewrite app_nil_r. auto.
Qed.

Lemma produces_liftR {A} (P : event CT -> Prop) (Q : A -> Prop)
  (r : result A) :
  (forall a, r = inr a -> Q a) -> produces (W:=W) P Q (liftR r).
Proof.
  intros H s. exists []. simpl. rewrite app_nil_r.
  repeat split; [constructor|]. destruct r; auto.
Qed.

Lemma produces_call {A} (P : event CT -> Prop) (f : W -> W * result A) :
  produces P (fun _ => True) (call f).
Proof.
  intros s. exists []. unfold call.
  destruct (f (world s)) as [w r]. simpl. rewrite app_nil_r.
  repeat split; [constructor|]. destruct r; auto.
Qed.

Lemma produces_emit (P : event CT -> Prop) (e : event CT) :
 
  P e -> produces (W:=W) P (fun _ => True) (emit e).
Proof.
  intros H s. exists [e]. simpl. auto.
Qed.

Lemma produces_bind {A B} (P : event CT -> Prop) (Q : A -> Prop)
  (R : B -> Prop) (m : @M CT W A) (f : A -> @M CT W B) :
  produces P Q m ->
  (forall a, Q a -> produces P R (f a)) ->
  produces P R (bindM m f).
Proof.
  intros Hm Hf s. unfold bindM.
  destruct (Hm s) as [t1 [Hlog1 [HP1 HQ]]].
  destruct (m s) as [s1 [e|a]]; simpl in *.
  - exists t1. auto.
  - destruct (Hf a HQ s1) as [t2 [Hlog2 [HP2 HR]]].
    exists (t1 ++ t2). rewrite Hlog2, Hlog1, app_assoc.
    split; [reflexivity|]. split; [|exact HR].
    apply Forall_app; auto.
Qed.

End MonadFacts.


(** ** cull_population *)

Section CullFacts.
Import System.
Context {CT W : Type} (self : operators CT W).

Lemma sorted_split (l : list Q) (k : nat) :
  Sorted Qle l ->
  forall x y, In y (firstn k l) -> In x (skipn k l) -> (y <= x)%Q.
Proof.
  intros Hs x y Hy Hx.
  apply Sorted_StronglySorted in Hs; [|exact Qle_trans].
  rewrite <- (firstn_skipn k l) in Hs.
  revert Hs Hy. generalize (firstn k l) as l1.
  induction l1 as [|z zs IH]; intros Hs Hy; [contradiction|].
  simpl in Hs. apply StronglySorted_inv in Hs. destruct Hs as [Hs Hall].
  destruct Hy as [<-|Hy].
  - rewrite Forall_forall in Hall. apply Hall.
    apply in_or_app. right. exact Hx.
  - apply IH; assumption.
Qed.

(** With a competitive part, the survivors are the selector's choice
    among the non-elite followed by the elite. *)
Lemma cull_population_competitive (population : list CT)
  (fitness_values : list Q) (survival_factor elitism_factor : Q)
  (s : state CT W) :
  let n := Z.of_nat (List.length population) in
  let survive := Qceiling (inject_Z n * survival_factor) in
  let elite := Qceiling (inject_Z survive * elitism_factor) in
  let k := Z.to_nat (n - elite) in
  List.length fitness_values = List.length population ->
  0 < elite < survive -> survive < n ->
  cull_population self population fitness_values survival_factor
    (Some elitism_factor) s
  = match select self (firstn k population) (firstn k fitness_values)
            (survive - elite) (world s) with
    | (w, inr (comp_population, comp_fitness_values)) =>
        ({| world := w; log := log s |},
         inr (comp_population ++ skipn k population,
              comp_fitness_values ++ skipn k fitness_values))
    | (w, inl e) => ({| world := w; log := log s |}, inl e)
    end.
Proof.
  intros n survive elite k Hlen Helite Hsurvive.
  unfold cull_population. fold n. fold survive. fold elite.
  destruct (Z.eqb_spec n survive) as [E|_]; [lia|].
  destruct (Z.eqb_spec survive elite) as [E|_]; [lia|].
  assert (Hk : n - elite = Z.of_nat k) by (unfold k; lia).
  rewrite Hk.
  rewrite !slice_between_0, !slice_from by lia.
  unfold bindM, call.
  destruct (select self (firstn k population) (firstn k fitness_values)
              (survive - elite) (world s)) as [w [e|[cp cf]]];
    reflexivity.
Qed.

(** With only elite survivors no selection takes place. *)
Lemma cull_population_all_elite (population : list CT)
  (fitness_values : list Q) (survival_factor elitism_factor : Q)
  (s : state CT W) :
  let n := Z.of_nat (List.length population) in
  let survive := Qceiling (inject_Z n * survival_factor) in
  let elite := Qceiling (inject_Z survive * elitism_factor) in
  let k := Z.to_nat (n - survive) in
  List.length fitness_values = List.length population ->
  elite = survive -> 0 <= survive < n ->
  cull_population self population fitness_values survival_factor
    (Some elitism_factor) s
  = (s, inr (skipn k population, skipn k fitness_values)).
Proof.
  intros n survive elite k Hlen Helite Hsurvive.
  unfold cull_population. fold n. fold survive. fold elite.
  destruct (Z.eqb_spec n survive) as [E|_]; [lia|].
  destruct (Z.eqb_spec survive elite) as [_|E]; [|lia].
  assert (Hk : n - survive = Z.of_nat k) by (unfold k; lia).
  rewrite Hk. rewrite !slice_from by lia. reflexivity.
Qed.

End CullFacts.

(** C4.  For fitness values sorted ascending and
    [0 < elite < survive < size], where [survive = ceil(size *
    survival_factor)] and [elite = ceil(survive * elitism_factor)],
    [cull_population] keeps the [elite] last, hence best, individuals
    unconditionally, lets the selector choose [survive - elite]
    competitors among the others and returns the competitors followed by
    the elite.  Culling [[A, B, C, D]] with fitness [[1, 2, 3, 4]],
    [survival_factor = 0.5] and [elitism_factor = 1.0] yields exactly
    [[C, D]]. *)
Theorem cull_population_elite_last (CT W : Type)
  (self : System.operators CT W)
  (population : list CT) (fitness_values : list Q)
  (survival_factor elitism_factor : Q) (s : System.state CT W)
  (w : W) (comp_population : list CT) (comp_fitness_values : list Q) :
  let n := Z.of_nat (List.length population) in
  let survive := Qceiling (inject_Z n * survival_factor) in
  let elite := Qceiling (inject_Z survive * elitism_factor) in
  let k := Z.to_nat (n - elite) in
  List.length fitness_values = List.length population ->
  Sorted Qle fitness_values ->
  0 < elite < survive -> survive < n ->
  System.select self (firstn k population) (firstn k fitness_values)
    (survive - elite) (System.world s)
  = (w, inr (comp_population, comp_fitness_values)) ->
  System.cull_population self population fitness_values survival_factor
    (Some elitism_factor) s
  = ({| System.world := w; System.log := System.log s |},
     inr (comp_population ++ skipn k population,
          comp_fitness_values ++ skipn k fitness_values))
  /\ Z.of_nat (List.length (skipn k population)) = elite
  /\ (forall x y : Q,
        In y (firstn k fitness_values) -> In x (skipn k fitness_values) ->
        (y <= x)%Q)
  /\ (forall (A B C D : CT) (s' : System.state CT W),
        System.cull_population self [A; B; C; D]
          [1; 2; 3; 4]%Q (1 # 2) (Some 1%Q) s'
        = (s', inr ([C; D], [3; 4]%Q))).
Proof.
  intros n survive elite k Hlen Hsorted Helite Hsurvive Hsel.
  split; [|split; [|split]].
  - rewrite cull_population_competitive by assumption.
    fold n survive elite k. rewrite Hsel. reflexivity.
  - rewrite length_skipn. unfold k, n in *. lia.
  - intros x y Hy Hx. exact (sorted_split _ k Hsorted x y Hy Hx).
  - intros A B C D s'. reflexivity.
Qed.

Lemma cull_population_elite_last_witness :
  System.cull_population Examples.ops ["A"; "B"; "C"; "D"]%string
    [1; 2; 3; 4]%Q (3 # 4) (Some (1 # 2)) Examples.start
  = (Examples.start,
     inr (["A"%string] ++ ["C"%string; "D"%string], [1%Q] ++ [3; 4]%Q)%list).
Proof.
  refine (proj1 (cull_population_elite_last string unit Examples.ops
                   ["A"; "B"; "C"; "D"]%string [1; 2; 3; 4]%Q
                   (3 # 4) (1 # 2) Examples.start tt ["A"%string] [1%Q]
                   _ _ _ _ _)).
  - reflexivity.
  - repeat constructor; unfold Qle; simpl; lia.
  - vm_compute. split; reflexivity.
  - vm_compute. reflexivity.
  - reflexivity.
Defined.

(** The survivors are not in elite-first order: with three survivors of
    which two are elite, the competitor [A] comes before the elite
    [[C, D]]. *)
Lemma cull_population_not_elite_first :
  System.cull_population Examples.ops ["A"; "B"; "C"; "D"]%string
    [1; 2; 3; 4]%Q (3 # 4) (Some (1 # 2)) Examples.start
  = (Examples.start, inr (["A"; "C"; "D"]%string, [1; 3; 4]%Q))
  /\ ["A"; "C"; "D"]%string
     <> (["C"%string; "D"%string] ++ ["A"%string])%list.
Proof.
  split; [reflexivity|discriminate].
Qed.

(** ** The run loop *)

(** Steps whose result the argument does not depend on. *)
Ltac produces_any :=
  repeat first
    [ apply produces_ret; exact I
    | apply produces_raise
    | apply produces_call
    | apply produces_emit; first [exact I | intro; exact I]
    | apply produces_liftR; intros; exact I
    | eapply produces_bind with (Q := fun _ => True); [|intros ? _]
    | match goal with
      | |- System.produces _ _ (match ?x with _ => _ end) => destruct x
      end ].

Ltac produces_skip :=
  eapply produces_bind with (Q := fun _ => True);
  [solve [produces_any]|intros ? _].

Section RunFacts.
Import System.
Context {CT W : Type} (self : operators CT W) (args : arguments).

Let evaluate : CT -> Q := evaluate_fitness self.

(** The events of an elitist run satisfy the standing invariant. *)
Let P (e : event CT) : Prop :=
  survival_elitism_factor args <> None -> generation_ok evaluate e.

Let inv (population : list CT) (fitness_values : list Q) : Prop :=
  survival_elitism_factor args <> None ->
  sorted_and_aligned evaluate population fitness_values.

Let Post (sol : GeneticAlgorithmSolution CT) : Prop :=
  exactly_one_flag sol = true
  /\ inv (sol_population sol) (sol_fitness_values sol).

Lemma combine_aligned (population : list CT) :
  Forall (fun item => snd item = evaluate (fst item))
         (combine population (map evaluate population)).
Proof.
  induction population as [|x xs IH]; simpl; constructor; auto.
Qed.

Lemma map_snd_sorted (items : list (CT * Q)) :
  Sorted (fun a b => Qle_bool (snd a) (snd b) = true) items ->
  Sorted Qle (map snd items).
Proof.
  induction 1 as [|a l Hs IH Hhd]; simpl; constructor.
  - exact IH.
  - destruct Hhd as [|b l Hab]; simpl; constructor.
    apply Qle_bool_iff, Hab.
Qed.

Lemma sort_by_fitness_spec (population p : list CT) (f : list Q) :
  sort_by_fitness population (map evaluate population) = inr (p, f) ->
  sorted_and_aligned evaluate p f.
Proof.
  unfold sort_by_fitness.
  set (items := sorted Qle_bool snd
                  (combine population (map evaluate population))).
  assert (Hsorted : Sorted (fun a b => Qle_bool (snd a) (snd b) = true) items)
    by (apply sorted_is_sorted; exact Qle_bool_total).
  assert (Hall : Forall (fun item => snd item = evaluate (fst item)) items).
  { eapply Permutation_Forall; [apply sorted_perm|apply combine_aligned]. }
  clearbody items.
  destruct items as [|i items]; [discriminate|].
  intros H. injection H as <- <-. split.
  - apply (map_snd_sorted (i :: items)), Hsorted.
  - change (map snd (i :: items) = map evaluate (map fst (i :: items))).
    rewrite map_map. apply map_ext_Forall. exact Hall.
Qed.

Lemma cull_population_produces (population : list CT)
  (fitness_values : list Q) (survival_factor : Q)
  (elitism_factor : option Q) :
  produces P (fun _ => True)
    (cull_population self population fitness_values survival_factor
       elitism_factor).
Proof.
  unfold cull_population. cbv zeta.
  destruct (_ =? _); [produces_any|].
  destruct elitism_factor; [|produces_any].
  destruct (_ =? _); produces_any.
Qed.

Lemma solution_produces (l : locals CT) (a b c : bool) :
  inv (population l) (fitness_values l) ->
  (a = true /\ b = false /\ c = false)
  \/ (a = false /\ b = true /\ c = false)
  \/ (a = false /\ b = false /\ c = true) ->
  produces (W:=W) P Post (solution l a b c).
Proof.
  intros Hinv Hflags. unfold solution.
  destruct (best_individual_achieved l); [|apply produces_raise].
  apply produces_ret. split; [|exact Hinv].
  unfold exactly_one_flag. simpl.
  destruct Hflags as [[-> [-> ->]]|[[-> [-> ->]]|[-> [-> ->]]]];
    reflexivity.
Qed.

Lemma generation_body_produces
  (f g : option (Q -> Q -> result Q)) (l : locals CT) :
  produces P (fun l' => inv (population l') (fitness_values l'))
    (generation_body self args f g l).
Proof.
  unfold generation_body. cbv zeta.
  produces_skip.
  produces_skip.
  match goal with |- produces _ _ (match ?x with _ => _ end) =>
    destruct x as [bias fitness] end.
  produces_skip.
  eapply produces_bind with (Q := fun _ => True);
    [apply cull_population_produces|intros [culled fitness'] _].
  produces_skip.
  produces_skip.
  produces_skip.
  eapply produces_bind
    with (Q := fun x => inv (fst (fst (fst x))) (snd (fst (fst x)))).
  - destruct (survival_elitism_factor args) eqn:E.
    + eapply produces_bind
        with (Q := fun x => sorted_and_aligned evaluate (fst x) (snd x)).
      * apply produces_liftR. intros [pop' fit'] H.
        apply sort_by_fitness_spec in H. exact H.
      * intros [pop' fit'] H.
        produces_skip. produces_skip.
        apply produces_ret. intro Hne. exact H.
    + eapply produces_bind with (Q := fun _ => True).
      * apply produces_liftR. intros; exact I.
      * intros [i m] _. produces_skip.
        apply produces_ret. intro Hne. exfalso. apply Hne. reflexivity.
  - intros [[[pop' fit'] mi] mf] H. simpl in H.
    eapply produces_bind with (Q := fun _ => True).
    + apply produces_emit. intros Hne. simpl. apply H, Hne.
    + intros _ _. apply produces_ret. simpl. exact H.
Qed.

Lemma generations_produces (remaining : nat) (limit : option Z)
  (f g : option (Q -> Q -> result Q)) (l : locals CT) :
  inv (population l) (fitness_values l) ->
  produces P Post (generations self args remaining limit f g l).
Proof.
  revert l. induction remaining as [|remaining IH]; intros l Hinv; simpl.
  - apply solution_produces; auto.
  - eapply produces_bind; [apply generation_body_produces|].
    intros l' Hinv'. cbv beta in Hinv'.
    destruct (fitness_threshold args); [|apply produces_raise].
    destruct (Qle_bool _ _); [apply solution_produces; auto|].
    match goal with |- produces _ _ (if ?c then _ else _) =>
      destruct c end.
    + apply solution_produces; auto.
    + apply IH. exact Hinv'.
Qed.

(** [evolve] after the event of the initial population. *)
Ltac evolve_after_event :=
  eapply produces_bind with (Q := fun _ => True);
    [apply produces_call|intros ? _];
  eapply produces_bind with (Q := fun x => inv (fst x) (snd x));
  [ destruct (survival_elitism_factor args);
    [ apply produces_liftR; intros [? ?] ?; intro; simpl;
      eapply sort_by_fitness_spec; eassumption
    | apply produces_ret; intro; congruence ]
  | intros [? ?] ?; simpl in *;
    produces_skip; produces_skip; produces_skip;
    destruct (max_generations args); [|apply produces_raise];
    apply generations_produces; assumption ].

Lemma evolve_produces (limit : option Z) :
  produces P Post (evolve self args limit).
Proof.
  unfold evolve. cbv zeta.
  produces_skip.
  evolve_after_event.
Qed.

Lemma run_produces : produces P Post (run self args).
Proof.
  unfold run. produces_skip. apply evolve_produces.
Qed.

(** The configuration checks fail exactly on a violated precondition,
    with a [ValueError] or a [TypeError]. *)
Lemma check_arguments_raises :
  precondition_violated args = true ->
  exists e, check_arguments args = inl e
            /\ (e = ValueError \/ e = TypeError).
Proof.
  unfold precondition_violated, check_arguments.
  destruct (Qle_bool 1 (survival_factor args)); simpl;
    [intros _; exists ValueError; auto|].
  destruct (replacement args && _)%bool; simpl;
    [intros _; exists ValueError; auto|].
  destruct (stagnation_limit args) as [[z|q]|]; try discriminate.
  destruct (max_generations args); try discriminate.
  intros _. exists TypeError. auto.
Qed.

Lemma check_arguments_passes :
  precondition_violated args = false ->
  exists limit, check_arguments args = inr limit.
Proof.
  unfold precondition_violated, check_arguments.
  destruct (Qle_bool 1 (survival_factor args)); simpl; [discriminate|].
  destruct (replacement args && _)%bool; simpl; [discriminate|].
  destruct (stagnation_limit args) as [[z|q]|]; eauto.
  destruct (max_generations args); [eauto|discriminate].
Qed.

(** Past the checks the first thing [run] does is to create the initial
    population. *)
Lemma evolve_creates_population (limit : option Z) (s : state CT W) :
  exists t,
    log (fst (evolve self args limit s))
    = log s ++ PopulationCreated (init_pop_size args) :: t.
Proof.
  pose proof (evolve_produces limit) as H.
  unfold evolve in *.
  match goal with
  | H : produces _ _ (bindM ?m ?k) |- _ =>
      assert (Hk : produces P Post (k tt))
  end.
  { clear H. cbv zeta. evolve_after_event. }
  unfold bindM at 1. unfold emit at 1.
  match goal with
  | |- context [log (fst (?k' ?s1))] =>
      destruct (Hk s1) as [t [Hlog _]]
  end.
  exists t. cbv beta in Hlog |- *. rewrite Hlog. simpl.
  rewrite <- app_assoc. reflexivity.
Qed.

End RunFacts.

Section ConfigurationFacts.
Import System.
Context {CT W : Type} (self : operators CT W) (args : arguments).

Lemma precondition_violated_spec :
  precondition_violated args = true <-> violates_precondition args.
Proof.
  unfold precondition_violated, violates_precondition.
  rewrite !orb_true_iff, andb_true_iff, !Qle_bool_iff.
  split.
  - intros [[H|H]|H]; auto.
    right. right.
    destruct (stagnation_limit args) as [[z|q]|]; try discriminate.
    destruct (max_generations args); try discriminate.
    eauto.
  - intros [H|[H|[q [-> ->]]]]; auto.
Qed.

Lemma run_raises_on_violation (s : state CT W) :
  violates_precondition args ->
  exists e, (e = ValueError \/ e = TypeError)
            /\ run self args s = (s, inl e).
Proof.
  intros H. apply precondition_violated_spec in H.
  destruct (check_arguments_raises args H) as [e [Hcheck He]].
  exists e. split; [exact He|].
  unfold run, bindM, liftR. rewrite Hcheck. reflexivity.
Qed.

Lemma run_creates_population (s : state CT W) :
  ~ violates_precondition args ->
  exists t,
    log (fst (run self args s))
    = log s ++ PopulationCreated (init_pop_size args) :: t.
Proof.
  intros H.
  assert (Hb : precondition_violated args = false).
  { destruct (precondition_violated args) eqn:E; [|reflexivity].
    exfalso. apply H, precondition_violated_spec, E. }
  destruct (check_arguments_passes args Hb) as [limit Hcheck].
  unfold run, bindM, liftR. rewrite Hcheck.
  apply evolve_creates_population.
Qed.

Lemma violates_precondition_dec :
  violates_precondition args \/ ~ violates_precondition args.
Proof.
  destruct (precondition_violated args) eqn:E.
  - left. apply precondition_violated_spec, E.
  - right. intros H. apply precondition_violated_spec in H. congruence.
Qed.

End ConfigurationFacts.

(** C2.  Whenever [run] returns a solution, exactly one of
    [max_fitness_reached], [max_generations_reached] and
    [stagnation_limit_reached] is true on it. *)
Theorem run_sets_exactly_one_flag (CT W : Type)
  (self : System.operators CT W) (args : System.arguments)
  (s s' : System.state CT W) (sol : System.GeneticAlgorithmSolution CT) :
  System.run self args s = (s', inr sol) ->
  List.length
    (filter (fun flag : bool => flag)
       [System.max_fitness_reached sol;
        System.max_generations_reached sol;
        System.stagnation_limit_reached sol])
  = 1%nat.
Proof.
  intros H.
  destruct (run_produces self args s) as [t [_ [_ Hpost]]].
  rewrite H in Hpost. simpl in Hpost. destruct Hpost as [Hflags _].
  unfold System.exactly_one_flag in Hflags.
  destruct (System.max_fitness_reached sol),
           (System.max_generations_reached sol),
           (System.stagnation_limit_reached sol);
    try discriminate; reflexivity.
Qed.

Lemma run_sets_exactly_one_flag_witness :
  exists s' sol,
    System.run Examples.ops Examples.args Examples.start = (s', inr sol)
    /\ System.max_fitness_reached sol = true
    /\ List.length
         (filter (fun flag : bool => flag)
            [System.max_fitness_reached sol;
             System.max_generations_reached sol;
             System.stagnation_limit_reached sol])
       = 1%nat.
Proof.
  assert (H : System.run Examples.ops Examples.args Examples.start
              = Examples.outcome) by (vm_compute; reflexivity).
  unfold Examples.outcome in H.
  eexists. eexists. split; [exact H|]. split; [reflexivity|].
  exact (run_sets_exactly_one_flag _ _ _ _ _ _ _ H).
Defined.

(** C3.  [run] raises from its configuration checks, leaving
    everything as it was (no population is created, no iteration of the
    generation loop starts), if and only if [survival_factor >= 1.0], or
    replacement is enabled and [expansion_factor * survival_factor <=
    1.0], or [stagnation_limit] is a fraction while [max_generations] is
    [None]; the exception is then a [ValueError] or a [TypeError].
    Otherwise [run] goes on to create the initial population; it can
    still raise after that and before the first generation. *)
Theorem run_configuration_checks (CT W : Type)
  (self : System.operators CT W) (args : System.arguments)
  (s : System.state CT W) :
  (System.violates_precondition args
   <-> exists e, System.run self args s = (s, inl e))
  /\ (System.violates_precondition args ->
      exists e, (e = ValueError \/ e = TypeError)
                /\ System.run self args s = (s, inl e))
  /\ (~ System.violates_precondition args ->
      exists t,
        System.log (fst (System.run self args s))
        = System.log s
            ++ System.PopulationCreated (System.init_pop_size args) :: t).
Proof.
  split; [|split].
  - split.
    + intros H.
      destruct (run_raises_on_violation self args s H) as [e [_ He]].
      exists e. exact He.
    + intros [e He].
      destruct (violates_precondition_dec args) as [H|H]; [exact H|].
      destruct (run_creates_population self args s H) as [t Ht].
      rewrite He in Ht. simpl in Ht.
      exfalso. apply (f_equal (@List.length _)) in Ht.
      rewrite length_app in Ht. simpl in Ht. lia.
  - apply run_raises_on_violation.
  - apply run_creates_population.
Qed.

Lemma run_configuration_checks_witness :
  (exists e,
     (e = ValueError \/ e = TypeError)
     /\ System.run Examples.ops Examples.args_all_survive Examples.start
        = (Examples.start, inl e))
  /\ (exists t,
        System.log (fst (System.run Examples.ops Examples.args Examples.start))
        = [] ++ System.PopulationCreated 4 :: t).
Proof.
  split.
  - apply (proj1 (proj2 (run_configuration_checks string unit Examples.ops
                           Examples.args_all_survive Examples.start))).
    left. simpl. unfold Qle. simpl. lia.
  - apply (proj2 (proj2 (run_configuration_checks string unit Examples.ops
                           Examples.args Examples.start))).
    intros [H|[[H _]|[q [H _]]]].
    + revert H. simpl. unfold Qle. simpl. lia.
    + discriminate H.
    + discriminate H.
Defined.

(** With every precondition satisfied, [run] still raises before the
    first generation when the decay type is not a name of [DecayType]:
    the population has been created, and no iteration has started. *)
Lemma run_unknown_decay_type_raises :
  ~ System.violates_precondition Examples.args_unknown_decay
  /\ System.run Examples.ops Examples.args_unknown_decay Examples.start
     = ({| System.world := tt;
           System.log := [System.PopulationCreated 4] |},
        inl KeyError).
Proof.
  split.
  - intros [H|[[H _]|[q [H _]]]].
    + revert H. simpl. unfold Qle. simpl. lia.
    + discriminate H.
    + discriminate H.
  - vm_compute. reflexivity.
Qed.

(** C5.  In a run with a survival elitism factor, at the end of every
    generation the fitness values are non-decreasing and
    [fitness_values[i]] is the encoder's fitness of [population[i]];
    the same holds for the population and fitness values of a returned
    solution. *)
Theorem run_keeps_fitness_sorted (CT W : Type)
  (self : System.operators CT W) (args : System.arguments)
  (elitism : Q) (s : System.state CT W) :
  System.survival_elitism_factor args = Some elitism ->
  exists t,
    System.log (fst (System.run self args s)) = System.log s ++ t
    /\ Forall (System.generation_ok (System.evaluate_fitness self)) t
    /\ forall sol,
         snd (System.run self args s) = inr sol ->
         System.sorted_and_aligned (System.evaluate_fitness self)
           (System.sol_population sol) (System.sol_fitness_values sol).
Proof.
  intros He.
  destruct (run_produces self args s) as [t [Hlog [Hev Hpost]]].
  assert (Hne : System.survival_elitism_factor args <> None)
    by (rewrite He; discriminate).
  exists t. split; [exact Hlog|]. split.
  - eapply Forall_impl; [|exact Hev].
    intros e H. apply H, Hne.
  - intros sol Hsol. rewrite Hsol in Hpost.
    destruct Hpost as [_ Hinv]. apply Hinv, Hne.
Qed.

Lemma run_keeps_fitness_sorted_witness :
  exists t,
    System.log (fst (System.run Examples.ops Examples.args Examples.start))
    = [] ++ t
    /\ Forall (System.generation_ok (System.evaluate_fitness Examples.ops)) t
    /\ forall sol,
         snd (System.run Examples.ops Examples.args Examples.start) = inr sol ->
         System.sorted_and_aligned (System.evaluate_fitness Examples.ops)
           (System.sol_population sol) (System.sol_fitness_values sol).
Proof.
  apply (run_keeps_fitness_sorted string unit Examples.ops Examples.args 1
           Examples.start).
  reflexivity.
Defined.

(* ================================================================== *)
(** * Further properties *)
(* ================================================================== *)

(** ** What a run reports *)

Section MaxFacts.
Context {A : Type} (key : A -> Q).

Lemma Qmax_from_spec (best : A) (l : list A) :
  let m := Py.max_from Qle_bool key best l in
  In m (best :: l)
  /\ forall y, In y (best :: l) -> (key y <= key m)%Q.
Proof.
  revert best. induction l as [|x xs IH]; intros best; simpl.
  - split; [now left|]. intros y [<-|[]]. apply Qle_refl.
  - destruct (Qle_bool (key x) (key best)) eqn:E.
    + apply Qle_bool_iff in E.
      destruct (IH best) as [Hin Hmax]. split.
      * destruct Hin as [<-|Hin]; [now left|now right; right].
      * intros y [<-|[<-|Hy]].
        -- apply Hmax. now left.
        -- eapply Qle_trans; [exact E|]. apply Hmax. now left.
        -- apply Hmax. now right.
    + apply Qle_bool_total, Qle_bool_iff in E.
      destruct (IH x) as [Hin Hmax]. split.
      * now right.
      * intros y [<-|[<-|Hy]].
        -- eapply Qle_trans; [exact E|]. apply Hmax. now left.
        -- apply Hmax. now left.
        -- apply Hmax. now right.
Qed.

Lemma Qmax_spec (l : list A) (m : A) :
  Py.max Qle_bool key l = inr m ->
  In m l /\ forall y, In y l -> (key y <= key m)%Q.
Proof.
  destruct l as [|x xs]; simpl; [discriminate|].
  intros H. injection H as <-. apply Qmax_from_spec.
Qed.

End MaxFacts.

Section IndexFacts.
Context {A : Type}.

Lemma getitem_nonnegative (l : list A) (i : Z) (x : A) :
  0 <= i -> getitem l i = inr x -> nth_error l (Z.to_nat i) = Some x.
Proof.
  intros Hi. unfold getitem.
  destruct (Z.ltb_spec i 0) as [Hneg|_]; [lia|].
  destruct (_ || _)%bool; [discriminate|].
  destruct (nth_error l (Z.to_nat i)); [|discriminate].
  intros Hget. injection Hget as <-. reflexivity.
Qed.

Lemma getitem_last (l : list A) (x : A) :
  getitem l (-1) = inr x -> exists l0, l = l0 ++ [x].
Proof.
  unfold getitem. simpl.
  destruct (_ || _)%bool eqn:E; [discriminate|].
  apply orb_false_iff in E. destruct E as [E1 E2].
  apply Z.ltb_ge in E1. apply Z.leb_gt in E2.
  destruct (nth_error l (Z.to_nat (Z.of_nat (List.length l) + -1))) eqn:En;
    [|discriminate].
  intros H. injection H as <-.
  apply nth_error_split in En. destruct En as [l1 [l2 [Hl Hlen]]].
  exists l1. rewrite Hl. f_equal.
  destruct l2 as [|y l2]; [reflexivity|].
  exfalso. rewrite Hl in Hlen. rewrite length_app in Hlen. simpl in Hlen. lia.
Qed.

Lemma enumerate_from_nth (l : list A) (start : nat) (i : Z) (x : A) :
  In (i, x) (combine (map Z.of_nat (seq start (List.length l))) l) ->
  Z.of_nat start <= i
  /\ nth_error l (Z.to_nat i - start) = Some x.
Proof.
  revert start. induction l as [|y ys IH]; intros start; simpl; [tauto|].
  intros [H|H].
  - injection H as <- <-. split; [lia|].
    rewrite Nat2Z.id, Nat.sub_diag. reflexivity.
  - apply IH in H. destruct H as [Hle Hnth]. split; [lia|].
    replace (Z.to_nat i - start)%nat with (S (Z.to_nat i - S start)) by lia.
    exact Hnth.
Qed.

Lemma enumerate_nth (l : list A) (i : Z) (x : A) :
  In (i, x) (System.enumerate l) ->
  0 <= i /\ nth_error l (Z.to_nat i) = Some x.
Proof.
  intros H. apply enumerate_from_nth in H. destruct H as [Hle Hnth].
  split; [lia|]. rewrite Nat.sub_0_r in Hnth. exact Hnth.
Qed.

Lemma enumerate_snd (l : list A) : map snd (System.enumerate l) = l.
Proof.
  unfold System.enumerate. generalize 0%nat as start.
  induction l as [|x xs IH]; intros start; simpl; [reflexivity|].
  f_equal. apply IH.
Qed.

End IndexFacts.

Lemma sorted_last_is_max (l : list Q) (x : Q) :
  Sorted Qle (l ++ [x]) -> Forall (fun y => (y <= x)%Q) (l ++ [x]).
Proof.
  intros Hs. apply Forall_app. split.
  - apply Forall_forall. intros y Hy.
    apply (sorted_split (l ++ [x]) (List.length l) Hs).
    + rewrite firstn_app, Nat.sub_diag, firstn_all. simpl.
      rewrite app_nil_r. exact Hy.
    + rewrite skipn_app, Nat.sub_diag, skipn_all. simpl. now left.
  - constructor; [apply Qle_refl|constructor].
Qed.

Section RunReportFacts.
Import System RunProperties.
Context {CT W : Type} (self : operators CT W) (args : arguments).

Let evaluate : CT -> Q := evaluate_fitness self.

Lemma produces_liftR_eq {A} (P : event CT -> Prop) (r : result A) :
  produces (W:=W) P (fun a => r = inr a) (liftR r).
Proof. apply produces_liftR. auto. Qed.

Lemma produces_weaken {A} (P P' : event CT -> Prop) (Q Q' : A -> Prop)
  (m : @M CT W A) :
  (forall e, P e -> P' e) -> (forall a, Q a -> Q' a) ->
  produces P Q m -> produces P' Q' m.
Proof.
  intros HP HQ Hm s.
  destruct (Hm s) as [t [Hlog [Ht Hr]]].
  exists t. split; [exact Hlog|]. split.
  - eapply Forall_impl; [exact HP|exact Ht].
  - destruct (snd (m s)); auto.
Qed.

(** Culling adds nothing to the log. *)
Lemma cull_population_quiet (P : event CT -> Prop) (population : list CT)
  (fitness_values : list Q) (survival_factor : Q)
  (elitism_factor : option Q) :
  produces P (fun _ => True)
    (cull_population self population fitness_values survival_factor
       elitism_factor).
Proof.
  unfold cull_population. cbv zeta.
  destruct (_ =? _); [produces_any|].
  destruct elitism_factor; [|produces_any].
  destruct (_ =? _); produces_any.
Qed.

(** What the loop knows about its best individual. *)
Let tracked (l : locals CT) : Prop :=
  (forall i, best_individual_achieved l = Some i ->
             evaluate i = best_fitness_achieved l)
  /\ Forall (fun f => (f <= best_fitness_achieved l)%Q) (fitness_values l).

Let numbered (l : locals CT) (e : event CT) : Prop :=
  match e with
  | IterationStarted g => g = generation l
  | GenerationEnded g _ _ _ => g = generation l + 1
  | PopulationCreated _ => True
  end.

Lemma evaluated_best (population : list CT) (fitness_values : list Q)
  (max_individual : CT) (max_fitness : Q) :
  Forall (fun f => (f <= max_fitness)%Q) fitness_values ->
  evaluate max_individual = max_fitness ->
  forall l : locals CT,
    (forall i, best_individual_achieved l = Some i ->
               evaluate i = best_fitness_achieved l) ->
    let improved := Decay.Qltb (best_fitness_achieved l) max_fitness in
    (forall i,
       (if improved then Some max_individual
        else best_individual_achieved l) = Some i ->
       evaluate i
       = (if improved then max_fitness else best_fitness_achieved l))
    /\ Forall (fun f =>
                 (f <= (if improved then max_fitness
                        else best_fitness_achieved l))%Q)
              fitness_values.
Proof.
  intros Hall Hbest l Hl improved. unfold improved.
  destruct (Decay.Qltb (best_fitness_achieved l) max_fitness) eqn:E.
  - split; [|exact Hall]. intros i H. injection H as <-. exact Hbest.
  - split; [exact Hl|].
    assert (Hle : (max_fitness <= best_fitness_achieved l)%Q).
    { apply Qnot_lt_le. intros Hlt. apply Qltb_spec in Hlt. congruence. }
    eapply Forall_impl; [|exact Hall].
    intros f Hf. eapply Qle_trans; [exact Hf|exact Hle].
Qed.

Lemma generation_body_tracks
  (f g : option (Q -> Q -> result Q)) (l : locals CT) :
  (forall i, best_individual_achieved l = Some i ->
             evaluate i = best_fitness_achieved l) ->
  produces (numbered l)
    (fun l' => generation l' = generation l + 1 /\ tracked l')
    (generation_body self args f g l).
Proof.
  intros Hl. unfold generation_body. cbv zeta.
  eapply produces_bind with (Q := fun _ => True);
    [apply produces_emit; reflexivity|intros _ _].
  produces_skip.
  match goal with |- produces _ _ (match ?x with _ => _ end) =>
    destruct x as [bias fitness] end.
  produces_skip.
  eapply produces_bind with (Q := fun _ => True);
    [apply cull_population_quiet|intros [culled fitness'] _].
  produces_skip.
  produces_skip.
  produces_skip.
  eapply produces_bind
    with (Q := fun x =>
                 Forall (fun y => (y <= snd x)%Q) (snd (fst (fst x)))
                 /\ evaluate (snd (fst x)) = snd x).
  - destruct (survival_elitism_factor args).
    + eapply produces_bind
        with (Q := fun x => sorted_and_aligned evaluate (fst x) (snd x)).
      * apply produces_liftR. intros [pop' fit'] H.
        apply (sort_by_fitness_spec self) in H. exact H.
      * intros [pop' fit'] [Hsorted Haligned]. simpl in Hsorted, Haligned.
        eapply produces_bind; [apply produces_liftR_eq|].
        intros mi Hmi. cbv beta in Hmi.
        eapply produces_bind; [apply produces_liftR_eq|].
        intros mf Hmf. cbv beta in Hmf.
        apply produces_ret. simpl.
        apply getitem_last in Hmi. destruct Hmi as [p0 ->].
        apply getitem_last in Hmf. destruct Hmf as [f0 ->].
        split; [apply sorted_last_is_max, Hsorted|].
        rewrite map_app in Haligned. simpl in Haligned.
        apply app_inj_tail in Haligned. symmetry. apply Haligned.
    + eapply produces_bind; [apply produces_liftR_eq|].
      intros [idx mf] Hmax. cbv beta in Hmax.
      eapply produces_bind; [apply produces_liftR_eq|].
      intros mi Hmi. cbv beta in Hmi.
      apply produces_ret. simpl.
      apply Qmax_spec in Hmax. destruct Hmax as [Hin Hmax].
      split.
      * apply Forall_forall. intros y Hy.
        match type of Hy with
        | In y ?fv => rewrite <- (enumerate_snd fv) in Hy
        end.
        apply in_map_iff in Hy. destruct Hy as [[j y'] [Hy' Hin']].
        simpl in Hy'. subst y'. exact (Hmax (j, y) Hin').
      * apply enumerate_nth in Hin. destruct Hin as [Hidx Hnth].
        apply getitem_nonnegative in Hmi; [|exact Hidx].
        rewrite nth_error_map, Hmi in Hnth. simpl in Hnth.
        injection Hnth as <-. reflexivity.
  - intros [[[pop' fit'] mi] mf] [Hall Hbest]. simpl in Hall, Hbest.
    eapply produces_bind with (Q := fun _ => True);
      [apply produces_emit; reflexivity|intros _ _].
    apply produces_ret. split; [reflexivity|].
    unfold tracked. simpl.
    apply (evaluated_best pop' fit' mi mf Hall Hbest l Hl).
Qed.

Let continuing (l : locals CT) : Prop :=
  best_individual_achieved l <> None ->
  1 <= generation l
  /\ exists threshold,
       fitness_threshold args = Some threshold
       /\ Qle_bool threshold (best_fitness_achieved l) = false.

Let reported := consistent_solution evaluate args.

Lemma solution_reports (l : locals CT) (a b c : bool) (limit : Z) :
  tracked l ->
  max_generations args = Some limit ->
  (best_individual_achieved l <> None ->
   1 <= generation l <= limit
   /\ exists threshold,
        fitness_threshold args = Some threshold
        /\ a = Qle_bool threshold (best_fitness_achieved l)) ->
  produces (W:=W) (generation_in_bounds (max_generations args)) reported
    (solution l a b c).
Proof.
  intros [Hbest Hall] Hlimit Hflag. unfold solution.
  destruct (best_individual_achieved l) as [i|] eqn:E;
    [|apply produces_raise].
  apply produces_ret.
  destruct Hflag as [Hgen [threshold [Hth Ha]]]; [discriminate|].
  unfold reported, consistent_solution. simpl.
  split; [apply Hbest; reflexivity|].
  split; [exact Hall|].
  split; [exists threshold; auto|].
  exists limit. split; [exact Hlimit|lia].
Qed.

Lemma generations_report (remaining : nat) (stagnation : option Z)
  (f g : option (Q -> Q -> result Q)) (limit : Z) (l : locals CT) :
  max_generations args = Some limit ->
  generation l = Z.max limit 0 - Z.of_nat remaining ->
  0 <= generation l ->
  tracked l -> continuing l ->
  produces (generation_in_bounds (max_generations args)) reported
    (generations self args remaining stagnation f g l).
Proof.
  intros Hlimit. revert l.
  induction remaining as [|remaining IH];
    intros l Hgen Hpos Htracked Hcont; simpl.
  - apply (solution_reports l false true false limit Htracked Hlimit).
    intros Hsome. destruct (Hcont Hsome) as [H1 [threshold [Hth Hlt]]].
    split; [lia|]. exists threshold. auto.
  - eapply produces_bind.
    + eapply produces_weaken;
        [| |apply (generation_body_tracks f g l (proj1 Htracked))].
      * intros e He. rewrite Hlimit.
        destruct e as [n|n|n p q b]; simpl in *; lia.
      * intros l' H. exact H.
    + intros l' [Hgen' Htracked'].
      destruct (fitness_threshold args) as [threshold|] eqn:Hth;
        [|apply produces_raise].
      destruct (Qle_bool threshold (best_fitness_achieved l')) eqn:Hreached.
      * apply (solution_reports l' true false false limit Htracked' Hlimit).
        intros _. split; [lia|]. exists threshold. auto.
      * match goal with |- produces _ _ (if ?c then _ else _) =>
          destruct c end.
        -- apply (solution_reports l' false false true limit Htracked'
                    Hlimit).
           intros _. split; [lia|]. exists threshold. auto.
        -- apply IH; try assumption; try lia.
           intros _. split; [lia|]. exists threshold. auto.
Qed.

Lemma evolve_reports (stagnation : option Z) :
  produces (generation_in_bounds (max_generations args)) reported
    (evolve self args stagnation).
Proof.
  unfold evolve. cbv zeta.
  eapply produces_bind with (Q := fun _ => True).
  { apply produces_emit. unfold generation_in_bounds.
    destruct (max_generations args); exact I. }
  intros _ _.
  eapply produces_bind with (Q := fun _ => True);
    [apply produces_call|intros created _].
  produces_skip.
  match goal with |- produces _ _ (match ?x with _ => _ end) =>
    destruct x as [pop' fit'] end.
  eapply produces_bind; [apply produces_liftR_eq|].
  intros mf Hmf. cbv beta in Hmf.
  produces_skip. produces_skip.
  destruct (max_generations args) as [limit|] eqn:Hlimit;
    [|apply produces_raise].
  rewrite <- Hlimit.
  apply (generations_report _ _ _ _ limit); simpl;
    try exact Hlimit; try lia.
  - split; simpl; [discriminate|].
    apply Qmax_spec in Hmf. destruct Hmf as [_ Hmax].
    apply Forall_forall. exact Hmax.
  - intros H. exfalso. apply H. reflexivity.
Qed.

Lemma run_reports :
  produces (generation_in_bounds (max_generations args)) reported
    (run self args).
Proof.
  unfold run. produces_skip. apply evolve_reports.
Qed.

End RunReportFacts.

(** X1.  A solution returned by [run] is consistent: its best fitness is
    at least every fitness value of its final population, and
    [max_fitness_reached] is set exactly when the best fitness reaches
    the fitness threshold.  (Nothing is said of the best individual: the
    code keeps a reference to a chromosome that later generations may
    change in place, and chromosomes are values here.) *)
Theorem run_solution_is_consistent (CT W : Type)
  (self : System.operators CT W) (args : System.arguments)
  (s s' : System.state CT W) (sol : System.GeneticAlgorithmSolution CT) :
  System.run self args s = (s', inr sol) ->
  Forall (fun fitness => (fitness <= System.best_fitness sol)%Q)
         (System.sol_fitness_values sol)
  /\ exists threshold,
       System.fitness_threshold args = Some threshold
       /\ System.max_fitness_reached sol
          = Qle_bool threshold (System.best_fitness sol).
Proof.
  intros H.
  destruct (run_reports self args s) as [t [_ [_ Hpost]]].
  rewrite H in Hpost. simpl in Hpost.
  destruct Hpost as [_ [H2 [H3 _]]]. auto.
Qed.

Lemma run_solution_is_consistent_witness :
  exists s' sol,
    System.run Examples.ops Examples.args Examples.start = (s', inr sol)
    /\ Forall (fun fitness => (fitness <= System.best_fitness sol)%Q)
              (System.sol_fitness_values sol).
Proof.
  assert (H : System.run Examples.ops Examples.args Examples.start
              = Examples.outcome) by (vm_compute; reflexivity).
  unfold Examples.outcome in H.
  eexists. eexists. split; [exact H|].
  exact (proj1 (run_solution_is_consistent _ _ _ _ _ _ _ H)).
Defined.

(** X2.  [run] returns a solution only if [max_generations] is an
    integer of at least one and a [fitness_threshold] is given: with
    [max_generations] [None] or not positive, or without a threshold,
    every run raises. *)
Theorem run_needs_generations_and_threshold (CT W : Type)
  (self : System.operators CT W) (args : System.arguments)
  (s : System.state CT W) :
  System.max_generations args = None
  \/ (exists limit, System.max_generations args = Some limit /\ limit <= 0)
  \/ System.fitness_threshold args = None ->
  exists e, snd (System.run self args s) = inl e.
Proof.
  intros Hargs.
  destruct (run_reports self args s) as [t [_ [_ Hpost]]].
  destruct (snd (System.run self args s)) as [e|sol]; [eauto|].
  exfalso.
  destruct Hpost as [_ [_ [[threshold [Hth _]] [limit [Hlimit Hpos]]]]].
  destruct Hargs as [H|[[limit' [H Hle]]|H]]; try congruence.
  rewrite H in Hlimit. injection Hlimit as ->. lia.
Qed.

Lemma run_needs_generations_and_threshold_witness :
  exists e,
    snd (System.run Examples.ops RunProperties.args_no_threshold
           Examples.start)
    = inl e.
Proof.
  apply (run_needs_generations_and_threshold string unit Examples.ops
           RunProperties.args_no_threshold Examples.start).
  right. right. reflexivity.
Defined.

(** X3.  With [max_generations] given, every iteration that [run] starts
    has a generation number [0 <= g < max_generations], and every
    generation it completes is numbered [1 <= g <= max_generations]:
    the loop never runs past the limit. *)
Theorem run_stays_within_max_generations (CT W : Type)
  (self : System.operators CT W) (args : System.arguments)
  (limit : Z) (s : System.state CT W) :
  System.max_generations args = Some limit ->
  exists t,
    System.log (fst (System.run self args s)) = System.log s ++ t
    /\ Forall (RunProperties.generation_in_bounds (Some limit)) t.
Proof.
  intros Hlimit.
  destruct (run_reports self args s) as [t [Hlog [Hev _]]].
  exists t. rewrite <- Hlimit. auto.
Qed.

Lemma run_stays_within_max_generations_witness :
  exists t,
    System.log (fst (System.run Examples.ops Examples.args Examples.start))
    = [] ++ t
    /\ Forall (RunProperties.generation_in_bounds (Some 10)) t.
Proof.
  apply (run_stays_within_max_generations string unit Examples.ops
           Examples.args 10 Examples.start).
  reflexivity.
Defined.


(** ** Culling with full elitism *)

Lemma Qceiling_mult_1 (z : Z) : Qceiling (inject_Z z * 1) = z.
Proof.
  rewrite <- (Qceiling_Z z) at 2.
  apply Qceiling_comp. apply Qmult_1_r.
Qed.

Lemma survive_quantity_bounds (n : Z) (survival_factor : Q) :
  0 <= n -> (0 <= survival_factor <= 1)%Q ->
  0 <= Qceiling (inject_Z n * survival_factor) <= n.
Proof.
  intros Hn [H0 H1].
  assert (Hn' : (0 <= inject_Z n)%Q).
  { unfold Qle. simpl. lia. }
  split.
  - change 0 with (Qceiling 0). apply Qceiling_resp_le.
    apply Qmult_le_0_compat; assumption.
  - rewrite <- (Qceiling_Z n) at 2. apply Qceiling_resp_le.
    rewrite <- (Qmult_1_l (inject_Z n)) at 2.
    rewrite (Qmult_comm (inject_Z n)).
    apply Qmult_le_compat_r; assumption.
Qed.

(** X4.  With an elitism factor of one and [0 <= survival_factor <= 1],
    [cull_population] keeps exactly the last [ceil(size *
    survival_factor)] individuals and their fitness values without
    consulting the selector; for fitness values sorted ascending no
    culled individual is fitter than a survivor. *)
Theorem cull_population_full_elitism (CT W : Type)
  (self : System.operators CT W)
  (population : list CT) (fitness_values : list Q)
  (survival_factor : Q) (s : System.state CT W) :
  let n := Z.of_nat (List.length population) in
  let survive := Qceiling (inject_Z n * survival_factor) in
  let k := Z.to_nat (n - survive) in
  List.length fitness_values = List.length population ->
  (0 <= survival_factor <= 1)%Q ->
  System.cull_population self population fitness_values survival_factor
    (Some 1%Q) s
  = (s, inr (skipn k population, skipn k fitness_values))
  /\ Z.of_nat (List.length (skipn k population)) = survive
  /\ (Sorted Qle fitness_values ->
      forall x y : Q,
        In y (firstn k fitness_values) -> In x (skipn k fitness_values) ->
        (y <= x)%Q).
Proof.
  intros n survive k Hlen Hsf.
  assert (Hbounds : 0 <= survive <= n)
    by (apply survive_quantity_bounds; [unfold n; lia|exact Hsf]).
  split; [|split].
  - destruct (Z.eq_dec n survive) as [E|E].
    + unfold System.cull_population. fold n. fold survive.
      rewrite <- E, Z.eqb_refl.
      unfold k. rewrite <- E, Z.sub_diag. reflexivity.
    + apply cull_population_all_elite; try assumption.
      * apply Qceiling_mult_1.
      * fold n survive. lia.
  - rewrite length_skipn. unfold k, n in *. lia.
  - intros Hsorted x y Hy Hx. exact (sorted_split _ k Hsorted x y Hy Hx).
Qed.

Lemma cull_population_full_elitism_witness :
  System.cull_population Examples.ops ["A"; "B"; "C"; "D"]%string
    [1; 2; 3; 4]%Q (1 # 2) (Some 1%Q) Examples.start
  = (Examples.start, inr (["C"; "D"]%string, [3; 4]%Q)).
Proof.
  refine (proj1 (cull_population_full_elitism string unit Examples.ops
                   ["A"; "B"; "C"; "D"]%string [1; 2; 3; 4]%Q (1 # 2)
                   Examples.start _ _)).
  - reflexivity.
  - split; unfold Qle; simpl; lia.
Defined.


(** ** Decay over several generations *)

(** X5.  Applying [exponential_decay] once per generation, with
    [0 <= decay <= 1] and a start value [v >= 0] in the range of floats,
    gives after every generation a finite float that is not negative, not
    above the value of the generation before, and not above
    [float(v)]. *)
Theorem exponential_decay_over_generations (v d : Q) (a : Z) (g : nat) :
  (0 <= v)%Q -> Binary64.of_Q v = ret (Binary64.Finite a) ->
  (0 <= d)%Q -> (d <= 1)%Q ->
  exists r r',
    Schedule.iterate (S g)
      (fun value => Schedule.exponential_decay value (Schedule.Fraction d))
      (Schedule.Fraction v)
    = ret (Schedule.Float (Binary64.Finite r))
    /\ Schedule.iterate (S (S g))
         (fun value => Schedule.exponential_decay value (Schedule.Fraction d))
         (Schedule.Fraction v)
       = ret (Schedule.Float (Binary64.Finite r'))
    /\ 0 <= r' /\ r' <= r /\ r <= a.
Proof.
  intros Hv Ha H0 H1.
  destruct (iterate_exponential g v d a Hv Ha H0 H1) as [r [E [Hr Hrep]]].
  destruct (exponential_decay_spec (Schedule.Float (Binary64.Finite r)) d r
              eq_refl ltac:(lia) Hrep H0 H1)
    as [b [t [r' [_ [_ [_ [_ [E' [Hr' _]]]]]]]]].
  exists r, r'. split; [exact E|]. split; [|lia].
  rewrite iterate_succ_r, E. cbn [bind]. exact E'.
Qed.

Lemma exponential_decay_over_generations_witness :
  exists r r',
    Schedule.iterate 3
      (fun value =>
         Schedule.exponential_decay value (Schedule.Fraction (1 # 10)))
      (Schedule.Fraction (1 # 10))
    = ret (Schedule.Float (Binary64.Finite r))
    /\ Schedule.iterate 4
         (fun value =>
            Schedule.exponential_decay value (Schedule.Fraction (1 # 10)))
         (Schedule.Fraction (1 # 10))
       = ret (Schedule.Float (Binary64.Finite r'))
    /\ 0 <= r' /\ r' <= r.
Proof.
  destruct (exponential_decay_over_generations (1 # 10) (1 # 10)
              (Binary64.round ((1 # 10) * inject_Z Binary64.one_units)) 2)
    as [r [r' [E [E' [H0 [H1 _]]]]]].
  - discriminate.
  - vm_compute. reflexivity.
  - discriminate.
  - discriminate.
  - exists r, r'. auto.
Defined.

(** X6.  Applying [linear_decay] once per generation to [Fraction]s,
    with a decay [d >= 0] in the range of floats, gives after [g >= 1]
    generations the exact [Fraction] [v - g * d] while that is positive
    and the float [0.0] from then on.  With a decay beyond the range of
    floats the generation after the value was floored raises
    [OverflowError]: the floored value is a float, and subtracting from
    it converts the decay. *)
Theorem linear_decay_over_generations (v d : Q) (g : nat) :
  (0 <= d)%Q ->
  (forall fd, Binary64.of_Q d = ret fd ->
     exists x,
       Schedule.iterate (S g)
         (fun value => Schedule.linear_decay value (Schedule.Fraction d))
         (Schedule.Fraction v)
       = ret x
       /\ ((0 < v - inject_Z (Z.of_nat (S g)) * d)%Q ->
           exists q, x = Schedule.Fraction q
                     /\ (q == v - inject_Z (Z.of_nat (S g)) * d)%Q)
       /\ ((v - inject_Z (Z.of_nat (S g)) * d <= 0)%Q ->
           x = Schedule.Float Binary64.zero))
  /\ (Binary64.of_Q d = raise OverflowError -> (v - d <= 0)%Q ->
      Schedule.iterate 1
        (fun value => Schedule.linear_decay value (Schedule.Fraction d))
        (Schedule.Fraction v)
      = ret (Schedule.Float Binary64.zero)
      /\ Schedule.iterate (S (S g))
           (fun value => Schedule.linear_decay value (Schedule.Fraction d))
           (Schedule.Fraction v)
         = raise OverflowError).
Proof.
  intros Hd. split.
  - intros fd Hfd. apply (iterate_linear g v d fd Hd Hfd).
  - apply iterate_linear_overflow.
Qed.

Lemma linear_decay_over_generations_witness :
  (exists x,
     Schedule.iterate 3
       (fun value => Schedule.linear_decay value (Schedule.Fraction (1 # 4)))
       (Schedule.Fraction (1 # 2))
     = ret x
     /\ x = Schedule.Float Binary64.zero)
  /\ Schedule.iterate 2
       (fun value =>
          Schedule.linear_decay value (Schedule.Fraction (10 ^ 400 # 1)))
       (Schedule.Fraction (1 # 2))
     = raise OverflowError.
Proof.
  split.
  - destruct (proj1 (linear_decay_over_generations (1 # 2) (1 # 4) 2
                       ltac:(discriminate))
                (Binary64.Finite (2 ^ 1072)))
      as [x [E [_ Hzero]]].
    + vm_compute. reflexivity.
    + exists x. split; [exact E|]. apply Hzero. discriminate.
  - apply (proj2 (linear_decay_over_generations (1 # 2) (10 ^ 400 # 1) 0
                    ltac:(discriminate))).
    + vm_compute. reflexivity.
    + vm_compute. discriminate.
Defined.

(** ** SplitCrossOver, UniformSwapper and PointMutator *)

Section SplitFacts.
Import Recombinator Operators.
Context {G : Type}.

Lemma last_app_nonempty (l1 l2 : list G) (d : G) :
  l2 <> [] -> last (l1 ++ l2) d = last l2 d.
Proof.
  intros Hne. induction l1 as [|x xs IH]; [reflexivity|].
  simpl. destruct (xs ++ l2) eqn:E; [|exact IH].
  apply app_eq_nil in E. destruct E as [_ E]. contradiction.
Qed.

Lemma split_recombine_spec (c1 c2 : list G) (draw : Z) :
  List.length c1 = List.length c2 -> (0 < List.length c1)%nat ->
  exists p : nat,
    (p < List.length c1)%nat
    /\ split_recombine draw c1 c2
       = ret (firstn p c1 ++ skipn p c2, firstn p c2 ++ skipn p c1).
Proof.
  intros Hlen Hpos. unfold split_recombine.
  destruct (randint_range draw 0 (Z.of_nat (List.length c1)))
    as [pz [-> Hp]]; [lia|].
  exists (Z.to_nat pz). split; [lia|]. simpl.
  rewrite <- (Z2Nat.id pz) by lia.
  rewrite !slice_to, !slice_from by lia.
  rewrite Nat2Z.id. reflexivity.
Qed.

End SplitFacts.

(** X7.  For parents of equal, non-zero length [SplitCrossOver.recombine]
    cuts both at one point [0 <= point < length] and swaps the tails:
    both offspring have the parents' length, they are what a point
    crossover would give for the cut points [(point, length)], and the
    first offspring always ends with the last gene of the second
    parent. *)
Theorem split_crossover_recombine (G : Type) (c1 c2 : list G) (draw : Z) :
  List.length c1 = List.length c2 -> (0 < List.length c1)%nat ->
  exists (p : nat) (o1 o2 : list G),
    (p < List.length c1)%nat
    /\ Operators.split_recombine draw c1 c2 = ret (o1, o2)
    /\ o1 = firstn p c1 ++ skipn p c2
    /\ o2 = firstn p c2 ++ skipn p c1
    /\ List.length o1 = List.length c1
    /\ List.length o2 = List.length c1
    /\ (o1, o2)
       = Recombinator.splice c1 c2 (Z.of_nat p)
           (Z.of_nat (List.length c1))
    /\ forall d : G, last o1 d = last c2 d.
Proof.
  intros Hlen Hpos.
  destruct (split_recombine_spec c1 c2 draw Hlen Hpos) as [p [Hp Hrec]].
  exists p, (firstn p c1 ++ skipn p c2), (firstn p c2 ++ skipn p c1).
  repeat split; try assumption.
  - rewrite length_app, length_firstn, length_skipn. lia.
  - rewrite length_app, length_firstn, length_skipn. lia.
  - rewrite splice_spec by lia.
    rewrite (@skipn_all2 _ (List.length c1) c1) by lia.
    rewrite (@skipn_all2 _ (List.length c1) c2) by lia.
    rewrite !app_nil_r.
    rewrite (@firstn_all2 _ (List.length c1 - p) (skipn p c2))
      by (rewrite length_skipn; lia).
    rewrite (@firstn_all2 _ (List.length c1 - p) (skipn p c1))
      by (rewrite length_skipn; lia).
    reflexivity.
  - intros d.
    assert (Hne : skipn p c2 <> []).
    { intros E. apply (f_equal (@List.length _)) in E.
      rewrite length_skipn in E. simpl in E. lia. }
    rewrite last_app_nonempty by exact Hne.
    rewrite <- (firstn_skipn p c2) at 2.
    rewrite last_app_nonempty by exact Hne. reflexivity.
Qed.

Lemma split_crossover_recombine_witness :
  exists (p : nat) (o1 o2 : list ascii),
    (p < 8)%nat
    /\ Operators.split_recombine 3 Examples.zeros Examples.ones
       = ret (o1, o2)
    /\ o1 = firstn p Examples.zeros ++ skipn p Examples.ones.
Proof.
  destruct (split_crossover_recombine ascii Examples.zeros Examples.ones 3)
    as [p [o1 [o2 [Hp [Hrec [Ho1 _]]]]]].
  - reflexivity.
  - simpl. lia.
  - exists p, o1, o2. auto.
Defined.


Section SwapFacts.
Import Operators.

Lemma swap_genes_spec (coin : nat -> Z) (k : nat) (g1 g2 : list gene) :
  List.length (fst (swap_genes coin k g1 g2))
  = Nat.min (List.length g1) (List.length g2)
  /\ List.length (snd (swap_genes coin k g1 g2))
     = Nat.min (List.length g1) (List.length g2)
  /\ complementary g1 g2 (fst (swap_genes coin k g1 g2))
       (snd (swap_genes coin k g1 g2)).
Proof.
  revert k g2. induction g1 as [|a g1 IH]; intros k g2.
  - simpl. repeat split. intros i x y H. destruct i; discriminate H.
  - destruct g2 as [|b g2].
    + simpl. repeat split. intros i x y _ H. destruct i; discriminate H.
    + simpl. destruct (IH (S k) g2) as [H1 [H2 H3]].
      destruct (swap_genes coin (S k) g1 g2) as [n1 n2]. simpl in *.
      destruct (coin k mod 2 =? 0); simpl;
        (split; [lia|]; split; [lia|]);
        intros [|i] x y Hx Hy; simpl in *.
      * injection Hx as <-. injection Hy as <-. right. auto.
      * apply (H3 i x y Hx Hy).
      * injection Hx as <-. injection Hy as <-. left. auto.
      * apply (H3 i x y Hx Hy).
Qed.

(** The genes of the offspring are genes of the parents. *)
Lemma swap_genes_in (coin : nat -> Z) (k : nat) (g1 g2 : list gene)
  (P : gene -> Prop) :
  Forall P g1 -> Forall P g2 ->
  Forall P (fst (swap_genes coin k g1 g2))
  /\ Forall P (snd (swap_genes coin k g1 g2)).
Proof.
  intros H1. revert k g2. induction H1 as [|a g1 Ha H1 IH]; intros k g2 H2.
  - simpl. auto.
  - destruct H2 as [|b g2 Hb H2]; simpl; [auto|].
    destruct (IH (S k) g2 H2) as [Hn1 Hn2].
    destruct (swap_genes coin (S k) g1 g2) as [n1 n2]. simpl in *.
    destruct (coin k mod 2 =? 0); simpl; auto.
Qed.

Lemma join_strs (genes : list gene) :
  Forall is_str genes -> join genes = ret (String.concat "" (map text genes)).
Proof.
  induction 1 as [|g genes Hg Hall IH]; [reflexivity|].
  destruct g as [s|z]; [|contradiction]. simpl. rewrite IH. simpl.
  destruct genes as [|g' genes']; simpl; [|reflexivity].
  f_equal. clear. induction s as [|c s IHs]; simpl; [reflexivity|].
  f_equal. exact IHs.
Qed.

Lemma last_paired_is_str (otherwise : bool) (g1 : list gene) (n : nat) :
  Forall is_str g1 ->
  (firstn n g1 = [] -> otherwise = true) ->
  match rev (firstn n g1) with
  | GStr _ :: _ => true
  | GNum _ :: _ => false
  | [] => otherwise
  end = true.
Proof.
  intros Hall Hempty.
  assert (Hrev : Forall is_str (rev (firstn n g1))).
  { apply Forall_rev. apply Forall_forall. intros x Hx.
    rewrite Forall_forall in Hall. apply Hall.
    rewrite <- (firstn_skipn n g1). apply in_or_app. now left. }
  destruct (rev (firstn n g1)) as [|g rest] eqn:E.
  - apply Hempty.
    rewrite <- (rev_involutive (firstn n g1)), E. reflexivity.
  - inversion Hrev as [|? ? Hg _]. destruct g; [reflexivity|contradiction].
Qed.

Lemma list_ascii_length (s : string) :
  List.length (list_ascii_of_string s) = String.length s.
Proof. induction s as [|c s IH]; simpl; congruence. Qed.

Lemma genes_of_str (s : string) : Forall is_char (genes_of (CStr s)).
Proof.
  simpl. induction (list_ascii_of_string s); simpl; constructor; auto.
  reflexivity.
Qed.

Lemma is_char_is_str (genes : list gene) :
  Forall is_char genes -> Forall is_str genes.
Proof.
  apply Forall_impl. intros [s|z]; simpl; auto.
Qed.

Lemma concat_chars_length (genes : list gene) :
  Forall is_char genes ->
  String.length (String.concat "" (map text genes)) = List.length genes.
Proof.
  induction 1 as [|g genes Hg Hall IH]; [reflexivity|].
  destruct g as [s|z]; [|contradiction]. simpl in Hg.
  destruct s as [|c [|c' s']]; try discriminate.
  simpl. destruct genes as [|g' genes']; [reflexivity|].
  simpl in *. f_equal. exact IH.
Qed.

End SwapFacts.

(** X8.  The offspring gene sequences of [UniformSwapper.recombine] are
    as long as the shorter parent, and at every position the two
    offspring hold the two parents' genes of that position, one each. *)
Theorem uniform_swapper_is_complementary (coin : nat -> Z)
  (genes_1 genes_2 : list Operators.gene) :
  let offspring := Operators.swap_genes coin 0 genes_1 genes_2 in
  List.length (fst offspring)
  = Nat.min (List.length genes_1) (List.length genes_2)
  /\ List.length (snd offspring)
     = Nat.min (List.length genes_1) (List.length genes_2)
  /\ forall (i : nat) (a b : Operators.gene),
       nth_error genes_1 i = Some a -> nth_error genes_2 i = Some b ->
       (nth_error (fst offspring) i = Some a
        /\ nth_error (snd offspring) i = Some b)
       \/ (nth_error (fst offspring) i = Some b
           /\ nth_error (snd offspring) i = Some a).
Proof.
  intros offspring. apply (swap_genes_spec coin 0 genes_1 genes_2).
Qed.

Lemma uniform_swapper_is_complementary_witness :
  let offspring :=
    Operators.swap_genes (fun k => Z.of_nat k) 0
      [Operators.GNum 1; Operators.GNum 2]
      [Operators.GNum 3; Operators.GNum 4] in
  (nth_error (fst offspring) 1 = Some (Operators.GNum 2)
   /\ nth_error (snd offspring) 1 = Some (Operators.GNum 4))
  \/ (nth_error (fst offspring) 1 = Some (Operators.GNum 4)
      /\ nth_error (snd offspring) 1 = Some (Operators.GNum 2)).
Proof.
  apply (uniform_swapper_is_complementary (fun k => Z.of_nat k)
           [Operators.GNum 1; Operators.GNum 2]
           [Operators.GNum 3; Operators.GNum 4]);
    reflexivity.
Defined.

(** X9.  [UniformSwapper.recombine] returns two strings for string
    parents, each as long as the shorter parent.  It also returns two
    joined strings, not lists, for non-empty list chromosomes whose
    genes are strings: after the loop the name [chromosome_1] is bound
    to the last gene, and that is what the [isinstance] test sees.  List
    chromosomes of other genes come back as lists. *)
Theorem uniform_swapper_result_type (coin : nat -> Z) :
  (forall s1 s2 : string,
     exists o1 o2 : string,
       Operators.uniform_recombine coin (Operators.CStr s1)
         (Operators.CStr s2)
       = ret (Operators.CStr o1, Operators.CStr o2)
       /\ String.length o1 = Nat.min (String.length s1) (String.length s2)
       /\ String.length o2 = Nat.min (String.length s1) (String.length s2))
  /\ (forall genes_1 genes_2 : list Operators.gene,
        Forall Operators.is_str genes_1 -> Forall Operators.is_str genes_2 ->
        genes_1 <> [] -> genes_2 <> [] ->
        exists o1 o2 : string,
          Operators.uniform_recombine coin (Operators.CList genes_1)
            (Operators.CList genes_2)
          = ret (Operators.CStr o1, Operators.CStr o2))
  /\ (forall genes_1 genes_2 : list Operators.gene,
        Forall (fun g => ~ Operators.is_str g) genes_1 ->
        Operators.uniform_recombine coin (Operators.CList genes_1)
          (Operators.CList genes_2)
        = ret (Operators.CList
                 (fst (Operators.swap_genes coin 0 genes_1 genes_2)),
               Operators.CList
                 (snd (Operators.swap_genes coin 0 genes_1 genes_2)))).
Proof.
  split; [|split].
  - intros s1 s2. unfold Operators.uniform_recombine.
    pose proof (genes_of_str s1) as H1. pose proof (genes_of_str s2) as H2.
    destruct (swap_genes_in coin 0 _ _ Operators.is_char H1 H2) as [Hn1 Hn2].
    destruct (swap_genes_spec coin 0 (Operators.genes_of (Operators.CStr s1))
                (Operators.genes_of (Operators.CStr s2))) as [Hl1 [Hl2 _]].
    destruct (Operators.swap_genes coin 0 _ _) as [n1 n2]. simpl fst in *.
    simpl snd in *.
    unfold Operators.chromosome_1_is_str. cbv zeta.
    rewrite last_paired_is_str;
      [|apply is_char_is_str, H1|reflexivity].
    rewrite (join_strs n1) by (apply is_char_is_str, Hn1).
    rewrite (join_strs n2) by (apply is_char_is_str, Hn2).
    simpl. eexists. eexists. split; [reflexivity|].
    rewrite !concat_chars_length by assumption.
    rewrite Hl1, Hl2. simpl. rewrite !length_map.
    rewrite !list_ascii_length. auto.
  - intros g1 g2 H1 H2 Hne1 Hne2. unfold Operators.uniform_recombine.
    destruct (swap_genes_in coin 0 _ _ Operators.is_str H1 H2) as [Hn1 Hn2].
    simpl Operators.genes_of.
    destruct (Operators.swap_genes coin 0 g1 g2) as [n1 n2]. simpl in Hn1, Hn2.
    unfold Operators.chromosome_1_is_str. cbv zeta.
    simpl Operators.genes_of.
    rewrite last_paired_is_str; [|exact H1|].
    + rewrite (join_strs n1 Hn1), (join_strs n2 Hn2). simpl. eauto.
    + intros E. exfalso.
      destruct g1 as [|a g1]; [contradiction|].
      destruct g2 as [|b g2]; [contradiction|].
      discriminate E.
  - intros g1 g2 H1. unfold Operators.uniform_recombine.
    simpl Operators.genes_of.
    destruct (Operators.swap_genes coin 0 g1 g2) as [n1 n2]. simpl.
    unfold Operators.chromosome_1_is_str. cbv zeta.
    simpl Operators.genes_of.
    assert (Hrev : Forall (fun g => ~ Operators.is_str g)
                     (rev (firstn (List.length g2) g1))).
    { apply Forall_rev. apply Forall_forall. intros x Hx.
      rewrite Forall_forall in H1. apply H1.
      rewrite <- (firstn_skipn (List.length g2) g1).
      apply in_or_app. now left. }
    destruct (rev (firstn (List.length g2) g1)) as [|g rest];
      [reflexivity|].
    inversion Hrev as [|? ? Hg _].
    destruct g; [exfalso; apply Hg; exact I|reflexivity].
Qed.

Lemma uniform_swapper_result_type_witness :
  exists o1 o2 : string,
    Operators.uniform_recombine (fun k => Z.of_nat k)
      (Operators.CList [Operators.GStr "london"; Operators.GStr "leeds"])
      (Operators.CList [Operators.GStr "york"; Operators.GStr "bath"])
    = ret (Operators.CStr o1, Operators.CStr o2).
Proof.
  apply (proj1 (proj2 (uniform_swapper_result_type (fun k => Z.of_nat k)))).
  - repeat constructor.
  - repeat constructor.
  - discriminate.
  - discriminate.
Defined.


Section MutatorFacts.
Import Operators.
Context {G : Type}.

Lemma set_nth_length (l : list G) (i : nat) (g : G) :
  List.length (set_nth l i g) = List.length l.
Proof.
  revert i. induction l as [|x l IH]; intros [|i]; simpl; auto.
Qed.

Lemma set_nth_same (l : list G) (i : nat) (g : G) :
  (i < List.length l)%nat -> nth_error (set_nth l i g) i = Some g.
Proof.
  revert i. induction l as [|x l IH]; intros [|i] H; simpl in *;
    try lia; [reflexivity|].
  apply IH. lia.
Qed.

Lemma set_nth_other (l : list G) (i j : nat) (g : G) :
  i <> j -> nth_error (set_nth l i g) j = nth_error l j.
Proof.
  revert i j. induction l as [|x l IH]; intros [|i] [|j] H; simpl;
    try reflexivity; try contradiction.
  apply IH. congruence.
Qed.

Lemma setitem_in_range (l : list G) (i : Z) (g : G) :
  0 <= i < Z.of_nat (List.length l) ->
  setitem l i g = ret (set_nth l (Z.to_nat i) g).
Proof.
  intros H. unfold setitem.
  destruct (Z.ltb_spec i 0) as [Hneg|_]; [lia|].
  destruct (Z.ltb_spec i 0) as [Hneg|_]; [lia|].
  destruct (Z.leb_spec (Z.of_nat (List.length l)) i) as [Hout|_]; [lia|].
  reflexivity.
Qed.

(** The assignments of [mutate], for indices inside the chromosome. *)
Lemma assignments_spec (items : list (Z * G)) (chromosome : list G) :
  Forall (fun item => 0 <= fst item < Z.of_nat (List.length chromosome))
         items ->
  exists mutated,
    fold_left
      (fun acc item => chromosome <- acc ;;
                       setitem chromosome (fst item) (snd item))
      items (ret chromosome)
    = ret mutated
    /\ List.length mutated = List.length chromosome
    /\ (forall (j : nat) (g : G),
          nth_error mutated j = Some g ->
          nth_error chromosome j = Some g \/ In g (map snd items))
    /\ (forall j : nat,
          ~ In (Z.of_nat j) (map fst items) ->
          nth_error mutated j = nth_error chromosome j).
Proof.
  revert chromosome. induction items as [|[i g] items IH];
    intros chromosome Hall.
  - exists chromosome. simpl. auto.
  - inversion Hall as [|? ? Hi Hrest]; subst. simpl in Hi.
    simpl fold_left. rewrite setitem_in_range by exact Hi.
    destruct (IH (set_nth chromosome (Z.to_nat i) g))
      as [mutated [Hfold [Hlen [Hin Hout]]]].
    { rewrite set_nth_length. exact Hrest. }
    exists mutated. split; [exact Hfold|].
    rewrite set_nth_length in Hlen. split; [exact Hlen|]. split.
    + intros j x Hx. destruct (Hin j x Hx) as [H|H].
      * destruct (Nat.eq_dec (Z.to_nat i) j) as [E|E].
        -- subst j. rewrite set_nth_same in H by lia.
           injection H as <-. right. simpl. now left.
        -- rewrite set_nth_other in H by exact E. now left.
      * right. simpl. now right.
    + intros j Hj. simpl in Hj.
      rewrite Hout by tauto.
      apply set_nth_other. intros E. apply Hj. left. lia.
Qed.

End MutatorFacts.

(** X10.  [PointMutator.mutate] raises [ValueError] on an empty
    chromosome.  On any other it returns a chromosome of the same
    length in which every gene is the original gene of its position or
    one of the new genes, and a position that is not among the drawn
    indices keeps its gene. *)
Theorem point_mutator_mutate (G : Type) (self : Operators.PointMutator)
  (draw : nat -> Z) (new_genes : list G) (chromosome : list G) :
  Operators.mutate self draw new_genes [] = raise ValueError
  /\ (chromosome <> [] ->
      exists mutated,
        Operators.mutate self draw new_genes chromosome = ret mutated
        /\ List.length mutated = List.length chromosome
        /\ (forall (j : nat) (g : G),
              nth_error mutated j = Some g ->
              nth_error chromosome j = Some g \/ In g new_genes)
        /\ (forall j : nat,
              (forall k : nat,
                 (k < Z.to_nat (Operators.points self))%nat ->
                 draw k mod Z.of_nat (List.length chromosome)
                 <> Z.of_nat j) ->
              nth_error mutated j = nth_error chromosome j)).
Proof.
  split; [reflexivity|].
  intros Hne. unfold Operators.mutate, Operators.randint_size.
  set (n := Z.of_nat (List.length chromosome)).
  assert (Hn : 0 < n).
  { unfold n. destruct chromosome; [contradiction|simpl; lia]. }
  destruct (Z.leb_spec n 0) as [Hle|_]; [lia|]. simpl.
  set (indices := map (fun k => draw k mod n)
                      (seq 0 (Z.to_nat (Operators.points self)))).
  destruct (assignments_spec (combine indices new_genes) chromosome)
    as [mutated [Hfold [Hlen [Hin Hout]]]].
  { apply Forall_forall. intros [i g] Hitem. simpl.
    apply in_combine_l in Hitem. unfold indices in Hitem.
    apply in_map_iff in Hitem. destruct Hitem as [k [<- _]].
    apply Z.mod_pos_bound. exact Hn. }
  exists mutated. split; [exact Hfold|]. split; [exact Hlen|]. split.
  - intros j g Hg. destruct (Hin j g Hg) as [H|H]; [now left|].
    right. apply in_map_iff in H. destruct H as [[i g'] [Hg' Hitem]].
    simpl in Hg'. subst g'. apply in_combine_r in Hitem. exact Hitem.
  - intros j Hj. apply Hout. intros H.
    apply in_map_iff in H. destruct H as [[i g] [Hi Hitem]].
    simpl in Hi. apply in_combine_l in Hitem. unfold indices in Hitem.
    apply in_map_iff in Hitem. destruct Hitem as [k [Hk Hseq]].
    apply in_seq in Hseq.
    apply (Hj k); [lia|]. fold n. congruence.
Qed.

Lemma point_mutator_mutate_witness :
  exists mutated,
    Operators.mutate {| Operators.points := 2 |} (fun k => Z.of_nat k + 5)
      ["1"; "1"]%string ["0"; "0"; "0"; "0"]%string
    = ret mutated
    /\ List.length mutated = 4%nat.
Proof.
  destruct (point_mutator_mutate string {| Operators.points := 2 |}
              (fun k => Z.of_nat k + 5) ["1"; "1"]%string
              ["0"; "0"; "0"; "0"]%string) as [_ H].
  destruct H as [mutated [Hm [Hlen _]]]; [discriminate|].
  exists mutated. auto.
Defined.


(** ** find_first, find_all, all_equal and iter_to_length *)

Section FindFacts.
Import IterTools.
Context {A : Type} (condition : Z -> A -> bool).

Lemma enumerate_from_in (start : Z) (l : list A) (i : Z) (x : A) :
  In (i, x) (enumerate_from start l)
  <-> start <= i /\ nth_error l (Z.to_nat (i - start)) = Some x.
Proof.
  revert start. induction l as [|y ys IH]; intros start; simpl.
  - split; [tauto|]. intros [_ H]. destruct (Z.to_nat (i - start)); discriminate.
  - rewrite IH. split.
    + intros [H|[Hle Hnth]].
      * injection H as <- <-. split; [lia|].
        rewrite Z.sub_diag. reflexivity.
      * split; [lia|].
        replace (Z.to_nat (i - start)) with (S (Z.to_nat (i - (start + 1))))
          by lia.
        exact Hnth.
    + intros [Hle Hnth].
      destruct (Z.eq_dec i start) as [->|Hne].
      * left. rewrite Z.sub_diag in Hnth. simpl in Hnth. congruence.
      * right. split; [lia|].
        replace (Z.to_nat (i - start)) with (S (Z.to_nat (i - (start + 1))))
          in Hnth by lia.
        exact Hnth.
Qed.

Lemma find_first_from_spec (start : Z) (l : list A) :
  match find (fun item => condition (fst item) (snd item))
             (enumerate_from start l) with
  | Some (i, x) =>
      start <= i
      /\ nth_error l (Z.to_nat (i - start)) = Some x
      /\ condition i x = true
      /\ forall j y, start <= j < i ->
                     nth_error l (Z.to_nat (j - start)) = Some y ->
                     condition j y = false
  | None =>
      forall j y, start <= j ->
                  nth_error l (Z.to_nat (j - start)) = Some y ->
                  condition j y = false
  end.
Proof.
  revert start. induction l as [|x xs IH]; intros start; simpl.
  - intros j y _ H. destruct (Z.to_nat (j - start)); discriminate.
  - destruct (condition start x) eqn:E.
    + split; [lia|]. rewrite Z.sub_diag. split; [reflexivity|].
      split; [exact E|]. intros j y Hj. lia.
    + specialize (IH (start + 1)).
      destruct (find _ (enumerate_from (start + 1) xs)) as [[i y]|].
      * destruct IH as [Hle [Hnth [Hc Hbefore]]].
        split; [lia|]. split.
        { replace (Z.to_nat (i - start))
            with (S (Z.to_nat (i - (start + 1)))) by lia.
          exact Hnth. }
        split; [exact Hc|]. intros j z Hj Hz.
        destruct (Z.eq_dec j start) as [->|Hne].
        -- rewrite Z.sub_diag in Hz. simpl in Hz. congruence.
        -- apply (Hbefore j z); [lia|].
           replace (Z.to_nat (j - start))
             with (S (Z.to_nat (j - (start + 1)))) in Hz by lia.
           exact Hz.
      * intros j z Hj Hz.
        destruct (Z.eq_dec j start) as [->|Hne].
        -- rewrite Z.sub_diag in Hz. simpl in Hz. congruence.
        -- apply (IH j z); [lia|].
           replace (Z.to_nat (j - start))
             with (S (Z.to_nat (j - (start + 1)))) in Hz by lia.
           exact Hz.
Qed.

Lemma find_all_loop_hd (items : list (Z * A)) :
  hd_error (find_all_loop condition None items)
  = find (fun item => condition (fst item) (snd item)) items.
Proof.
  induction items as [|[i x] items IH]; simpl; [reflexivity|].
  destruct (condition i x); [reflexivity|exact IH].
Qed.

Lemma find_all_loop_in (limit : option Z) (start : Z) (l : list A)
  (i : Z) (x : A) :
  In (i, x) (find_all_loop condition limit (enumerate_from start l))
  <-> In (i, x) (enumerate_from start l)
      /\ condition i x = true
      /\ match limit with
         | Some n => start <= n -> i < n
         | None => True
         end.
Proof.
  revert start. induction l as [|y ys IH]; intros start; simpl.
  - tauto.
  - destruct limit as [n|].
    + destruct (Z.eqb_spec start n) as [E|E].
      * split; [contradiction|]. intros [Hin [_ Hlim]].
        destruct Hin as [H|H].
        -- injection H as <- <-. lia.
        -- apply enumerate_from_in in H. lia.
      * destruct (condition start y) eqn:Ec; simpl; rewrite IH; split.
        -- intros [H|[Hin [Hc Hlim]]].
           ++ injection H as <- <-. split; [now left|]. split; [exact Ec|lia].
           ++ split; [now right|]. split; [exact Hc|]. intros Hs.
              apply enumerate_from_in in Hin. apply Hlim. lia. 
        -- intros [[H|Hin] [Hc Hlim]]; [now left|]. right.
           split; [exact Hin|]. split; [exact Hc|]. intros Hs.
           apply enumerate_from_in in Hin. apply Hlim. lia.
        -- intros [Hin [Hc Hlim]]. split; [now right|]. split; [exact Hc|].
           intros Hs. apply enumerate_from_in in Hin. apply Hlim. lia.
        -- intros [[H|Hin] [Hc Hlim]].
           ++ injection H as <- <-. congruence.
           ++ split; [exact Hin|]. split; [exact Hc|]. intros Hs.
              apply enumerate_from_in in Hin. apply Hlim. lia.
    + destruct (condition start y) eqn:Ec; simpl; rewrite IH; split.
      * intros [H|[Hin [Hc _]]].
        -- injection H as <- <-. auto.
        -- auto.
      * intros [[H|Hin] [Hc _]]; auto.
      * intros [Hin [Hc _]]. auto.
      * intros [[H|Hin] [Hc _]]; [|auto].
        injection H as <- <-. congruence.
Qed.

End FindFacts.

(** X11.  [find_first] returns the first item that satisfies the
    condition, with its index, and [None] exactly when no item does; it
    is the first item that [find_all] yields without a limit. *)
Theorem find_first_is_first (A : Type) (condition : Z -> A -> bool)
  (iterable : list A) :
  match IterTools.find_first iterable condition with
  | Some (i, x) =>
      0 <= i
      /\ nth_error iterable (Z.to_nat i) = Some x
      /\ condition i x = true
      /\ forall j y, 0 <= j < i ->
                     nth_error iterable (Z.to_nat j) = Some y ->
                     condition j y = false
  | None =>
      forall j y, 0 <= j ->
                  nth_error iterable (Z.to_nat j) = Some y ->
                  condition j y = false
  end
  /\ IterTools.find_first iterable condition
     = hd_error (IterTools.find_all iterable condition None).
Proof.
  split.
  - pose proof (find_first_from_spec condition 0 iterable) as H.
    unfold IterTools.find_first.
    destruct (find _ (IterTools.enumerate_from 0 iterable)) as [[i x]|].
    + destruct H as [H1 [H2 [H3 H4]]]. rewrite Z.sub_0_r in H2.
      repeat split; try assumption.
      intros j y Hj Hy. apply (H4 j y Hj). rewrite Z.sub_0_r. exact Hy.
    + intros j y Hj Hy. apply (H j y Hj). rewrite Z.sub_0_r. exact Hy.
  - unfold IterTools.find_first, IterTools.find_all.
    symmetry. apply find_all_loop_hd.
Qed.

(** X12.  [find_all] yields exactly the items that satisfy the
    condition, with their indices, up to the index that equals the
    limit; a negative limit limits nothing. *)
Theorem find_all_is_complete (A : Type) (condition : Z -> A -> bool)
  (iterable : list A) (limit : option Z) (i : Z) (x : A) :
  In (i, x) (IterTools.find_all iterable condition limit)
  <-> 0 <= i
      /\ nth_error iterable (Z.to_nat i) = Some x
      /\ condition i x = true
      /\ match limit with
         | Some n => 0 <= n -> i < n
         | None => True
         end.
Proof.
  unfold IterTools.find_all.
  rewrite find_all_loop_in, (enumerate_from_in condition), Z.sub_0_r.
  tauto.
Qed.


Section AllEqualFacts.
Import IterTools.
Context {A : Type} (eqb : A -> A -> bool).
Hypothesis eqb_eq : forall x y, eqb x y = true <-> x = y.

Lemma filter_length_all (f : A -> bool) (l : list A) :
  List.length (filter f l) = List.length l <-> Forall (fun x => f x = true) l.
Proof.
  induction l as [|x xs IH]; simpl.
  - split; auto.
  - pose proof (filter_length_le f xs) as Hle.
    destruct (f x) eqn:E; simpl.
    + split.
      * intros H. constructor; [exact E|]. apply IH. lia.
      * intros H. inversion H; subst. f_equal. apply IH. assumption.
    + split; [lia|]. intros H. inversion H; subst. congruence.
Qed.

Lemma drop_group_nil (key : A) (l : list A) :
  drop_group eqb key l = [] <-> Forall (fun x => x = key) l.
Proof.
  induction l as [|x xs IH]; simpl.
  - split; auto.
  - destruct (eqb x key) eqn:E.
    + apply eqb_eq in E. rewrite IH. split.
      * intros H. constructor; assumption.
      * intros H. inversion H; assumption.
    + split; [discriminate|].
      intros H. inversion H; subst.
      assert (Ht : eqb key key = true) by (apply eqb_eq; reflexivity).
      congruence.
Qed.

Lemma all_equal_head (l : list A) (by_count : bool) :
  all_equal eqb l by_count = true
  <-> match l with
      | [] => True
      | x :: rest => Forall (fun y => y = x) rest
      end.
Proof.
  unfold all_equal. destruct l as [|x rest]; [destruct by_count; tauto|].
  destruct by_count.
  - rewrite Nat.eqb_eq. unfold count. rewrite filter_length_all.
    split.
    + intros H. inversion H as [|? ? _ Hrest]; subst.
      eapply Forall_impl; [|exact Hrest]. intros y Hy. apply eqb_eq, Hy.
    + intros H. constructor; [apply eqb_eq; reflexivity|].
      eapply Forall_impl; [|exact H]. intros y Hy. apply eqb_eq, Hy.
  - simpl. rewrite <- drop_group_nil.
    destruct (drop_group eqb x rest); simpl; split;
      try reflexivity; try discriminate.
Qed.

End AllEqualFacts.

(** X13.  For an equality test that decides equality, [all_equal]
    returns [True] exactly when all items of the iterable are equal (so
    also for an empty one), whether it counts the first item or groups
    the items: the hint does not change the result. *)
Theorem all_equal_decides (A : Type) (eqb : A -> A -> bool)
  (iterable : list A) (by_count : bool) :
  (forall x y, eqb x y = true <-> x = y) ->
  (IterTools.all_equal eqb iterable by_count = true
   <-> forall x y, In x iterable -> In y iterable -> x = y)
  /\ IterTools.all_equal eqb iterable true
     = IterTools.all_equal eqb iterable false.
Proof.
  intros Heq. split.
  - rewrite (all_equal_head eqb Heq). destruct iterable as [|x rest].
    + split; [intros _ a b []|auto].
    + rewrite Forall_forall. split.
      * intros H a b Ha Hb.
        assert (Hx : forall z, In z (x :: rest) -> z = x).
        { intros z [<-|Hz]; [reflexivity|apply H, Hz]. }
        rewrite (Hx a Ha), (Hx b Hb). reflexivity.
      * intros H y Hy. apply H; [now right|now left].
  - destruct (IterTools.all_equal eqb iterable true) eqn:E1;
      destruct (IterTools.all_equal eqb iterable false) eqn:E2;
      try reflexivity.
    + apply (all_equal_head eqb Heq) in E1.
      apply (all_equal_head eqb Heq iterable false) in E1. congruence.
    + apply (all_equal_head eqb Heq) in E2.
      apply (all_equal_head eqb Heq iterable true) in E2. congruence.
Qed.

Lemma all_equal_decides_witness :
  IterTools.all_equal Z.eqb [2; 2; 2] true
  = IterTools.all_equal Z.eqb [2; 2; 2] false.
Proof.
  apply (all_equal_decides Z Z.eqb [2; 2; 2] true).
  intros x y. apply Z.eqb_eq.
Defined.

Section PaddingFacts.
Context {A : Type}.

Lemma firstn_repeat (x : A) (k n : nat) :
  (k <= n)%nat -> firstn k (repeat x n) = repeat x k.
Proof.
  revert n. induction k as [|k IH]; intros n H; [reflexivity|].
  destruct n as [|n]; [lia|]. simpl. f_equal. apply IH. lia.
Qed.

End PaddingFacts.

(** X14.  On a sequence and for a length that is not negative,
    [iter_to_length] yields exactly [length] items: the first [length]
    items of the sequence followed by the fill value. *)
Theorem iter_to_length_of_sequence (A : Type) (iterable : list A)
  (length : Z) (fill : A) :
  0 <= length ->
  IterTools.iter_to_length true iterable length fill
  = (firstn (Z.to_nat length) (iterable ++ repeat fill (Z.to_nat length)),
     None)
  /\ Z.of_nat
       (List.length (fst (IterTools.iter_to_length true iterable length fill)))
     = length.
Proof.
  intros Hlen.
  assert (Heq : IterTools.iter_to_length true iterable length fill
                = (firstn (Z.to_nat length)
                     (iterable ++ repeat fill (Z.to_nat length)), None)).
  { unfold IterTools.iter_to_length.
    destruct (Z.leb_spec length (Z.of_nat (List.length iterable)))
      as [Hle|Hgt].
    - destruct (Z.ltb_spec length 0) as [Hneg|_]; [lia|].
      f_equal. rewrite firstn_app.
      replace (Z.to_nat length - List.length iterable)%nat with 0%nat by lia.
      simpl. rewrite app_nil_r. reflexivity.
    - f_equal. rewrite firstn_app.
      rewrite (@firstn_all2 _ (Z.to_nat length) iterable) by lia.
      rewrite firstn_repeat by lia. f_equal. f_equal. lia. }
  split; [exact Heq|].
  rewrite Heq. simpl. rewrite length_firstn, length_app, repeat_length. lia.
Qed.

Lemma iter_to_length_of_sequence_witness :
  IterTools.iter_to_length true [1; 2] 4 0
  = (firstn 4 ([1; 2] ++ repeat 0 4), None).
Proof.
  apply (proj1 (iter_to_length_of_sequence Z [1; 2] 4 0 ltac:(lia))).
Defined.

(** X15.  On an iterable that is not a sequence [iter_to_length] yields
    every item, however many, and then [length - n + 1] fill values for
    [n] items: one item more than asked for when [n <= length].  On an
    empty iterable it yields nothing and raises [UnboundLocalError]. *)
Theorem iter_to_length_of_iterator (A : Type) (iterable : list A)
  (length : Z) (fill : A) :
  let n := Z.of_nat (List.length iterable) in
  IterTools.iter_to_length false [] length fill
  = ([], Some UnboundLocalError)
  /\ (iterable <> [] ->
      IterTools.iter_to_length false iterable length fill
      = (iterable ++ repeat fill (Z.to_nat (length - n + 1)), None)
      /\ Z.of_nat
           (List.length
              (fst (IterTools.iter_to_length false iterable length fill)))
         = Z.max n (length + 1)).
Proof.
  intros n. split; [reflexivity|].
  intros Hne.
  assert (Heq : IterTools.iter_to_length false iterable length fill
                = (iterable ++ repeat fill (Z.to_nat (length - n + 1)),
                   None)).
  { unfold IterTools.iter_to_length. fold n.
    destruct iterable as [|x rest]; [contradiction|].
    f_equal. f_equal.
    destruct (Z.ltb_spec (n - 1) length) as [Hlt|Hge].
    - f_equal. lia.
    - replace (Z.to_nat (length - n + 1)) with 0%nat by lia. reflexivity. }
  split; [exact Heq|].
  rewrite Heq. simpl. rewrite length_app, repeat_length.
  assert (0 < n) by (unfold n; destruct iterable; [contradiction|simpl; lia]).
  unfold n in *. lia.
Qed.

Lemma iter_to_length_of_iterator_witness :
  IterTools.iter_to_length false [1; 2] 4 0
  = ([1; 2] ++ repeat 0 (Z.to_nat (4 - 2 + 1)), None).
Proof.
  apply (proj2 (iter_to_length_of_iterator Z [1; 2] 4 0)).
  discriminate.
Defined.


(** ** chunk *)

Section ChunkFacts.
Import IterTools.
Context {A : Type}.

Lemma slice_window (l : list A) (a b : nat) :
  (a <= b)%nat ->
  slice l (Some (Z.of_nat a)) (Some (Z.of_nat b))
  = firstn (b - a) (skipn a l).
Proof.
  intros Hab.
  destruct (Nat.le_gt_cases b (List.length l)) as [Hb|Hb].
  - apply slice_between. lia.
  - unfold slice. unfold clamp_index.
    destruct (Z.ltb_spec (Z.of_nat a) 0) as [Hneg|_]; [lia|].
    destruct (Z.ltb_spec (Z.of_nat b) 0) as [Hneg|_]; [lia|].
    rewrite (Z.min_r (Z.of_nat b)) by lia.
    destruct (Nat.le_gt_cases a (List.length l)) as [Ha|Ha].
    + rewrite Z.min_l by lia. rewrite Nat2Z.id.
      rewrite !firstn_all2; [reflexivity| |]; rewrite length_skipn; lia.
    + rewrite Z.min_r by lia. rewrite Nat2Z.id, Z.sub_diag. simpl.
      rewrite (@skipn_all2 _ a l) by lia. rewrite firstn_nil. reflexivity.
Qed.

Lemma firstn_plus (l : list A) (a b : nat) :
  firstn (a + b) l = firstn a l ++ firstn b (skipn a l).
Proof.
  revert l. induction a as [|a IH]; intros l; [reflexivity|].
  destruct l as [|x l]; simpl.
  - rewrite firstn_nil. reflexivity.
  - f_equal. apply IH.
Qed.

Lemma chunks_concat (l : list A) (size q : nat) :
  List.concat (map (fun k => firstn size (skipn (k * size) l)) (seq 0 q))
  = firstn (q * size) l.
Proof.
  induction q as [|q IH]; [reflexivity|].
  rewrite seq_S, map_app, concat_app, IH. simpl.
  rewrite app_nil_r.
  replace (size + q * size)%nat with (q * size + size)%nat by lia.
  rewrite firstn_plus. reflexivity.
Qed.

Lemma range3_chunks (size quantity : Z) :
  1 <= size -> 0 <= quantity ->
  range3 0 (quantity * size) size
  = ret (map (fun k => Z.of_nat k * size) (seq 0 (Z.to_nat quantity))).
Proof.
  intros Hs Hq. unfold range3.
  destruct (Z.eqb_spec size 0) as [E|_]; [lia|].
  destruct (Z.ltb_spec 0 size) as [_|Hn]; [|lia].
  replace (quantity * size - 0 + size - 1) with (quantity * size + (size - 1))
    by lia.
  rewrite Z.div_add_l by lia. rewrite Z.div_small by lia.
  rewrite Z.add_0_r. reflexivity.
Qed.

Lemma yield_until_ret {B : Type} (l : list B) :
  yield_until (map (fun x => ret x) l) = (l, None).
Proof.
  induction l as [|x l IH]; [reflexivity|]. simpl. rewrite IH. reflexivity.
Qed.

Lemma chunk_slices {B : Type} (type_ : list A -> result B) (l : list A)
  (size quantity : nat) :
  (1 <= size)%nat ->
  chunk type_ l (Z.of_nat size) (Z.of_nat quantity)
  = yield_until
      (map (fun k => type_ (firstn size (skipn (k * size) l)))
           (seq 0 quantity)).
Proof.
  intros Hs. unfold chunk.
  rewrite range3_chunks by lia. cbn [ret]. rewrite Nat2Z.id, map_map.
  f_equal. apply map_ext. intros k. f_equal.
  replace (Z.of_nat k * Z.of_nat size + Z.of_nat size)
    with (Z.of_nat (k * size + size)) by lia.
  replace (Z.of_nat k * Z.of_nat size) with (Z.of_nat (k * size)) by lia.
  rewrite slice_window by lia. f_equal. lia.
Qed.

Lemma chunk_spec (type_ : list A -> result (list A)) (l : list A)
  (size quantity : nat) :
  (1 <= size)%nat ->
  (forall items, type_ items = ret items) ->
  chunk type_ l (Z.of_nat size) (Z.of_nat quantity)
  = (map (fun k => firstn size (skipn (k * size) l)) (seq 0 quantity),
     None).
Proof.
  intros Hs Htype. rewrite chunk_slices by exact Hs.
  rewrite <- yield_until_ret. f_equal. rewrite map_map.
  apply map_ext. intros k. apply Htype.
Qed.

End ChunkFacts.

(** X16.  [chunk] of a sequence with a true [as_type] calls [as_type], or
    else the type of the sequence, on each slice.  When that call returns
    the items of the slice (a [list] or a [tuple]), then for a size of at
    least one and a quantity that is not negative [chunk] yields
    [quantity] chunks, the consecutive slices of [size] items; together
    they are the first [quantity * size] items of the sequence, and each
    has exactly [size] items when the sequence holds that many.  When the
    call raises on the first slice (a [range]), [chunk] yields nothing
    and raises that exception.  A size of zero raises [ValueError]
    whatever the type. *)
Theorem chunk_of_sequence (A : Type) (type_ : list A -> result (list A))
  (iterable : list A) (size quantity : nat) :
  IterTools.chunk type_ iterable 0 (Z.of_nat quantity)
  = ([], Some ValueError)
  /\ ((1 <= size)%nat ->
      (forall items, type_ items = ret items) ->
      exists chunks,
        IterTools.chunk type_ iterable (Z.of_nat size) (Z.of_nat quantity)
        = (chunks, None)
        /\ List.length chunks = quantity
        /\ List.concat chunks = firstn (quantity * size) iterable
        /\ ((quantity * size <= List.length iterable)%nat ->
            Forall (fun c => List.length c = size) chunks))
  /\ ((1 <= size)%nat -> (1 <= quantity)%nat ->
      forall e, type_ (firstn size iterable) = raise e ->
      IterTools.chunk type_ iterable (Z.of_nat size) (Z.of_nat quantity)
      = ([], Some e)).
Proof.
  split; [reflexivity|]. split.
  - intros Hs Htype. eexists. split; [apply chunk_spec; assumption|].
    split; [rewrite length_map, length_seq; reflexivity|].
    split; [apply chunks_concat|].
    intros Hlen. apply Forall_forall. intros c Hc.
    apply in_map_iff in Hc. destruct Hc as [k [<- Hk]].
    apply in_seq in Hk.
    rewrite length_firstn, length_skipn. nia.
  - intros Hs Hq e He. rewrite chunk_slices by exact Hs.
    destruct quantity as [|quantity]; [lia|].
    simpl seq. simpl map. rewrite He. reflexivity.
Qed.

Lemma chunk_of_sequence_witness :
  (exists chunks,
     IterTools.chunk (fun items => ret items) [1; 2; 3; 4; 5] 2 2
     = (chunks, None)
     /\ List.concat chunks = firstn (2 * 2) [1; 2; 3; 4; 5])
  /\ IterTools.chunk (fun _ => raise TypeError) [1; 2; 3; 4; 5] 2 2
     = (@nil (list Z), Some TypeError).
Proof.
  split.
  - destruct (proj1 (proj2 (chunk_of_sequence Z (fun items => ret items)
                              [1; 2; 3; 4; 5] 2 2)))
      as [chunks [H1 [_ [H2 _]]]].
    + lia.
    + reflexivity.
    + exists chunks. split; [exact H1|exact H2].
  - apply (proj2 (proj2 (chunk_of_sequence Z (fun _ => raise TypeError)
                           [1; 2; 3; 4; 5] 2 2))).
    + lia.
    + lia.
    + reflexivity.
Defined.


(** ** cycle_for *)

Section CycleFacts.
Import IterTools Decay.
Context {A : Type} (sequence : list A) (cycles : Q) (preempt : bool) (d : A).

Let n : Z := Z.of_nat (List.length sequence).
Let per_item : Q := 1 # Z.to_pos n.
Let total : Z := Qceiling (inject_Z n * cycles).
Let items : nat := Z.to_nat (total - if preempt then 1 else 0).

Hypothesis non_empty : 0 < n.

Lemma lt_ceiling (k : Z) (q : Q) : (inject_Z k < q)%Q <-> k < Qceiling q.
Proof.
  split.
  - intros H. rewrite Zlt_Qlt.
    eapply Qlt_le_trans; [exact H|apply Qle_ceiling].
  - intros H.
    eapply Qle_lt_trans; [|apply Qceiling_lt].
    rewrite <- Zle_Qle. lia.
Qed.

Lemma per_item_total : (inject_Z n * per_item == 1)%Q.
Proof.
  unfold per_item, Qeq, Qmult. simpl.
  rewrite Z2Pos.id by exact non_empty. lia.
Qed.

Lemma cycled_lt (k : Z) :
  (inject_Z k * per_item < cycles)%Q <-> k < total.
Proof.
  unfold total. rewrite <- lt_ceiling.
  assert (Hpos : (0 < inject_Z n)%Q).
  { unfold Qlt. simpl. lia. }
  rewrite <- (Qmult_lt_l _ _ (inject_Z n) Hpos).
  assert (E : (inject_Z n * (inject_Z k * per_item) == inject_Z k)%Q).
  { rewrite (Qmult_comm (inject_Z k)), Qmult_assoc, per_item_total.
    apply Qmult_1_l. }
  rewrite E. reflexivity.
Qed.

Lemma continue_iff (k : nat) (cycled : Q) :
  (cycled == inject_Z (Z.of_nat k) * per_item)%Q ->
  (0 < cycles)%Q ->
  (negb preempt && Qltb cycled cycles) || Qltb (cycled + per_item) cycles
  = true
  <-> (k < items)%nat.
Proof.
  intros Hc Hcycles.
  assert (Hnext : (cycled + per_item
                   == inject_Z (Z.of_nat k + 1) * per_item)%Q).
  { rewrite Hc, inject_Z_plus. ring. }
  assert (Htotal : 1 <= total).
  { assert (H0 : 0 < total); [|lia].
    apply cycled_lt. rewrite Qmult_0_l. exact Hcycles. }
  rewrite orb_true_iff, andb_true_iff, negb_true_iff, !Qltb_spec.
  rewrite Hnext, Hc, !cycled_lt.
  unfold items. destruct preempt; split; intros H.
  - destruct H as [[H _]|H]; [discriminate|lia].
  - right. lia.
  - destruct H as [[_ H]|H]; lia.
  - left. split; [reflexivity|lia].
Qed.

Lemma cycle_loop_spec (fuel k : nat) (i : Z) (cycled : Q) :
  (0 < cycles)%Q ->
  i mod n = Z.of_nat k mod n ->
  (cycled == inject_Z (Z.of_nat k) * per_item)%Q ->
  (k <= items)%nat -> (items - k < fuel)%nat ->
  cycle_loop fuel sequence cycles per_item preempt i cycled
  = map (fun j => nth (Z.to_nat (Z.of_nat j mod n)) sequence d)
        (seq k (items - k)).
Proof.
  intros Hcycles. revert k i cycled.
  induction fuel as [|fuel IH]; intros k i cycled Hi Hc Hk Hfuel; [lia|].
  simpl.
  destruct ((negb preempt && Qltb cycled cycles)
            || Qltb (cycled + per_item) cycles) eqn:E.
  - apply (continue_iff k cycled Hc Hcycles) in E.
    fold n. rewrite Hi.
    assert (Hrange : 0 <= Z.of_nat k mod n < n)
      by (apply Z.mod_pos_bound; exact non_empty).
    assert (Hnth : nth_error sequence (Z.to_nat (Z.of_nat k mod n))
                   = Some (nth (Z.to_nat (Z.of_nat k mod n)) sequence d)).
    { apply nth_error_nth'. unfold n in *. lia. }
    rewrite Hnth.
    replace (items - k)%nat with (S (items - S k)) by lia.
    simpl. f_equal.
    apply IH; try lia.
    + rewrite Z.add_mod_idemp_l by lia. f_equal. lia.
    + rewrite Hc. rewrite Nat2Z.inj_succ. unfold Z.succ.
      rewrite inject_Z_plus. ring.
  - replace (items - k)%nat with 0%nat; [reflexivity|].
    destruct (Nat.eq_dec k items) as [->|Hne]; [lia|].
    assert (Hlt : (k < items)%nat) by lia.
    apply (continue_iff k cycled Hc Hcycles) in Hlt. congruence.
Qed.

End CycleFacts.

Lemma cycle_for_spec (A : Type) (sequence : list A) (cycles : Q)
  (preempt : bool) (d : A) :
  let n := Z.of_nat (List.length sequence) in
  let items :=
    Z.to_nat (Qceiling (inject_Z n * cycles) - if preempt then 1 else 0) in
  ((cycles <= 0)%Q ->
   IterTools.cycle_for sequence cycles preempt = ret [])
  /\ ((0 < cycles)%Q ->
      IterTools.cycle_for (@nil A) cycles preempt = raise ZeroDivisionError
      /\ (sequence <> [] ->
          IterTools.cycle_for sequence cycles preempt
          = ret (map (fun k => nth (Z.to_nat (Z.of_nat k mod n)) sequence d)
                     (seq 0 items)))).
Proof.
  intros n items. split.
  - intros H. unfold IterTools.cycle_for.
    destruct (Decay.Qltb 0 cycles) eqn:E; [|reflexivity].
    apply Qltb_spec in E. apply Qlt_not_le in E. contradiction.
  - intros H. apply Qltb_spec in H.
    unfold IterTools.cycle_for. rewrite H.
    split; [reflexivity|]. intros Hne.
    destruct sequence as [|x rest]; [contradiction|].
    cbv iota zeta. f_equal.
    unfold items, n.
    rewrite (cycle_loop_spec (x :: rest) cycles preempt d) with (k := 0%nat).
    + rewrite Nat.sub_0_r. reflexivity.
    + simpl. lia.
    + apply Qltb_spec, H.
    + reflexivity.
    + simpl. rewrite Qmult_0_l. reflexivity.
    + lia.
    + destruct preempt; lia.
Qed.

(** X17.  For a non-empty sequence of [n] items and [cycles > 0],
    [cycle_for] yields [ceil(n * cycles)] items, the [k]-th being
    [sequence[k mod n]]; with [preempt] it yields one item fewer, which
    is fewer than [floor(n * cycles)] when [n * cycles] is a whole
    number.  For [cycles <= 0] it yields nothing, and on an empty
    sequence with [cycles > 0] it raises [ZeroDivisionError]. *)
Theorem cycle_for_yields (A : Type) (sequence : list A) (cycles : Q)
  (preempt : bool) (d : A) :
  let n := Z.of_nat (List.length sequence) in
  let items :=
    Z.to_nat (Qceiling (inject_Z n * cycles) - if preempt then 1 else 0) in
  ((cycles <= 0)%Q ->
   IterTools.cycle_for sequence cycles preempt = ret [])
  /\ ((0 < cycles)%Q ->
      IterTools.cycle_for (@nil A) cycles preempt = raise ZeroDivisionError
      /\ (sequence <> [] ->
          IterTools.cycle_for sequence cycles preempt
          = ret (map (fun k => nth (Z.to_nat (Z.of_nat k mod n)) sequence d)
                     (seq 0 items)))).
Proof. apply cycle_for_spec. Qed.

Lemma cycle_for_yields_witness :
  IterTools.cycle_for [1; 2; 3] (3 # 2) false
  = ret (map (fun k => nth (Z.to_nat (Z.of_nat k mod 3)) [1; 2; 3] 0)
             (seq 0 5)).
Proof.
  refine (proj2 (proj2 (cycle_for_yields Z [1; 2; 3] (3 # 2) false 0) _) _).
  - reflexivity.
  - discriminate.
Defined.


Section WholeCycleFacts.
Context {A : Type} (sequence : list A) (d : A).

Let len : nat := List.length sequence.

Lemma nth_seq_all :
  map (fun j => nth j sequence d) (seq 0 len) = sequence.
Proof.
  apply (nth_ext _ _ d d).
  - rewrite length_map, length_seq. reflexivity.
  - intros i Hi. rewrite length_map, length_seq in Hi.
    rewrite (nth_indep _ d (nth 0 sequence d))
      by (rewrite length_map, length_seq; exact Hi).
    rewrite (map_nth (fun j => nth j sequence d) (seq 0 len) 0%nat i).
    rewrite seq_nth by exact Hi. reflexivity.
Qed.

Lemma map_seq_ext {B} (f g : nat -> B) (a b n : nat) :
  (forall i, (i < n)%nat -> f (a + i)%nat = g (b + i)%nat) ->
  map f (seq a n) = map g (seq b n).
Proof.
  revert a b. induction n as [|n IH]; intros a b H; [reflexivity|].
  simpl. f_equal.
  - specialize (H 0%nat ltac:(lia)). rewrite !Nat.add_0_r in H. exact H.
  - apply IH. intros i Hi.
    specialize (H (S i) ltac:(lia)).
    rewrite !Nat.add_succ_r in H. exact H.
Qed.

Lemma whole_cycles (m : nat) :
  (0 < len)%nat ->
  map (fun k => nth (Z.to_nat (Z.of_nat k mod Z.of_nat len)) sequence d)
      (seq 0 (len * m))
  = List.concat (repeat sequence m).
Proof.
  intros Hlen. induction m as [|m IH].
  - rewrite Nat.mul_0_r. reflexivity.
  - replace (len * S m)%nat with (len * m + len)%nat by lia.
    rewrite seq_app, map_app, IH.
    change (repeat sequence (S m)) with (sequence :: repeat sequence m).
    rewrite repeat_cons, concat_app. simpl. rewrite app_nil_r.
    f_equal.
    transitivity (map (fun j => nth j sequence d) (seq 0 len));
      [|apply nth_seq_all].
    apply map_seq_ext. intros i Hi. f_equal.
    replace (Z.of_nat (len * m + i))
      with (Z.of_nat i + Z.of_nat m * Z.of_nat len) by lia.
    rewrite Z.mod_add by lia. rewrite Z.mod_small by lia. lia.
Qed.

End WholeCycleFacts.

Lemma cycle_for_whole (A : Type) (sequence : list A) (m : nat) :
  sequence <> [] -> (1 <= m)%nat ->
  IterTools.cycle_for sequence (inject_Z (Z.of_nat m)) false
  = ret (List.concat (repeat sequence m))
  /\ IterTools.cycle_for sequence (inject_Z (Z.of_nat m)) true
     = ret (removelast (List.concat (repeat sequence m))).
Proof.
  intros Hne Hm.
  destruct sequence as [|x rest] eqn:Hseq; [contradiction|].
  rewrite <- Hseq in *.
  assert (Hlen : (0 < List.length sequence)%nat)
    by (rewrite Hseq; simpl; lia).
  assert (Hpos : (0 < inject_Z (Z.of_nat m))%Q).
  { unfold Qlt. simpl. lia. }
  assert (Htotal : Qceiling (inject_Z (Z.of_nat (List.length sequence))
                             * inject_Z (Z.of_nat m))
                   = Z.of_nat (List.length sequence * m)).
  { rewrite <- inject_Z_mult, Qceiling_Z. lia. }
  split.
  - destruct (cycle_for_spec A sequence (inject_Z (Z.of_nat m)) false x)
      as [_ H].
    destruct (H Hpos) as [_ H']. rewrite (H' Hne). f_equal.
    rewrite Htotal, Z.sub_0_r, Nat2Z.id.
    apply whole_cycles. exact Hlen.
  - destruct (cycle_for_spec A sequence (inject_Z (Z.of_nat m)) true x)
      as [_ H].
    destruct (H Hpos) as [_ H']. rewrite (H' Hne). f_equal.
    rewrite Htotal.
    rewrite <- (whole_cycles sequence x m Hlen).
    replace (List.length sequence * m)%nat
      with (S (Z.to_nat (Z.of_nat (List.length sequence * m) - 1))) at 2
      by nia.
    rewrite seq_S, map_app. simpl. rewrite removelast_last. reflexivity.
Qed.

(** X18.  For a whole number [m >= 1] of cycles over a non-empty
    sequence, [cycle_for] yields the sequence [m] times over; with
    [preempt] the last item is missing. *)
Theorem cycle_for_whole_cycles (A : Type) (sequence : list A) (m : nat) :
  sequence <> [] -> (1 <= m)%nat ->
  IterTools.cycle_for sequence (inject_Z (Z.of_nat m)) false
  = ret (List.concat (repeat sequence m))
  /\ IterTools.cycle_for sequence (inject_Z (Z.of_nat m)) true
     = ret (removelast (List.concat (repeat sequence m))).
Proof. apply cycle_for_whole. Qed.

Lemma cycle_for_whole_cycles_witness :
  IterTools.cycle_for [0; 1; 2] (inject_Z (Z.of_nat 2)) false
  = ret (List.concat (repeat [0; 1; 2] 2)).
Proof.
  apply (proj1 (cycle_for_whole_cycles Z [0; 1; 2] 2
                  ltac:(discriminate) ltac:(lia))).
Defined.


(** ** max_n in general *)

Section MaxNGeneralFacts.
Import MoreIterTools.
Context {A : Type} (key : A -> Z).

Let le (x y : A) : Prop := (key x <=? key y) = true.

Lemma strongly_sorted_app (l1 l2 : list A) :
  StronglySorted le (l1 ++ l2) ->
  StronglySorted le l1
  /\ forall x y, In x l1 -> In y l2 -> le x y.
Proof.
  induction l1 as [|a l1 IH]; simpl; intros H.
  - split; [constructor|]. intros x y [].
  - apply StronglySorted_inv in H. destruct H as [Hs Hall].
    destruct (IH Hs) as [Hs1 Hcross]. split.
    + constructor; [exact Hs1|].
      rewrite Forall_forall in *. intros x Hx. apply Hall.
      apply in_or_app. now left.
    + intros x y [<-|Hx] Hy.
      * rewrite Forall_forall in Hall. apply Hall.
        apply in_or_app. now right.
      * apply Hcross; assumption.
Qed.

Lemma sorted_strongly (l : list A) :
  StronglySorted le (sorted Z.leb key l).
Proof.
  apply Sorted_StronglySorted.
  - intros x y z Hxy Hyz. unfold le in *.
    apply Z.leb_le in Hxy, Hyz. apply Z.leb_le. lia.
  - apply sorted_is_sorted. intros x y H.
    apply Z.leb_gt in H. apply Z.leb_le. lia.
Qed.

End MaxNGeneralFacts.

(** X19.  [max_n] with [n = 1] returns an item with a largest key and
    raises [ValueError] on an empty iterable.  With [n >= 2] it returns
    a list of [min(n, len)] items in ascending order of their keys,
    none of them larger than an item left out: the [n] smallest
    items. *)
Theorem max_n_in_general (A : Type) (key : A -> Z) (iterable : list A)
  (n : Z) :
  MoreIterTools.max_n key (@nil A) 1 = raise ValueError
  /\ (iterable <> [] ->
      exists m,
        MoreIterTools.max_n key iterable 1 = ret (MoreIterTools.One m)
        /\ In m iterable
        /\ forall y, In y iterable -> key y <= key m)
  /\ (2 <= n ->
      exists chosen rest,
        MoreIterTools.max_n key iterable n = ret (MoreIterTools.Many chosen)
        /\ Permutation (chosen ++ rest) iterable
        /\ List.length chosen
           = Nat.min (Z.to_nat n) (List.length iterable)
        /\ StronglySorted (fun x y => key x <= key y) chosen
        /\ forall x y, In x chosen -> In y rest -> key x <= key y).
Proof.
  split; [reflexivity|]. split.
  - intros Hne. destruct iterable as [|x xs]; [contradiction|].
    apply max_n_single.
  - intros Hn.
    exists (firstn (Z.to_nat n) (sorted Z.leb key iterable)),
           (skipn (Z.to_nat n) (sorted Z.leb key iterable)).
    split; [apply max_n_many; lia|].
    split.
    { rewrite firstn_skipn. apply Permutation_sym, sorted_perm. }
    split.
    { rewrite length_firstn. f_equal.
      symmetry. apply Permutation_length, sorted_perm. }
    pose proof (sorted_strongly key iterable) as Hs.
    rewrite <- (firstn_skipn (Z.to_nat n) (sorted Z.leb key iterable)) in Hs.
    apply strongly_sorted_app in Hs. destruct Hs as [Hs Hcross].
    split.
    + clear Hcross.
      induction Hs as [|a l Hs IH Hall]; constructor.
      * exact IH.
      * eapply Forall_impl; [|exact Hall].
        intros b Hb. apply Z.leb_le. exact Hb.
    + intros x y Hx Hy. apply Z.leb_le. apply Hcross; assumption.
Qed.

Lemma max_n_in_general_witness :
  exists chosen rest,
    MoreIterTools.max_n (fun x => x) [3; 1; 2] 2
    = ret (MoreIterTools.Many chosen)
    /\ Permutation (chosen ++ rest) [3; 1; 2]
    /\ forall x y, In x chosen -> In y rest -> x <= y.
Proof.
  destruct (max_n_in_general Z (fun x => x) [3; 1; 2] 2) as [_ [_ H]].
  destruct H as [chosen [rest [H1 [H2 [_ [_ H3]]]]]]; [lia|].
  exists chosen, rest. auto.
Defined.


(** ** Bit-string gene bases *)

Section DigitFacts.
Import GeneBases.

Lemma to_digits_spec (fuel : nat) (radix n : Z) (L : nat) :
  2 <= radix -> 0 <= n < radix ^ Z.of_nat L -> (1 <= L)%nat ->
  (List.length (to_digits fuel radix n) <= L)%nat
  /\ Forall (fun d => 0 <= d < radix) (to_digits fuel radix n).
Proof.
  intros Hr. revert n L. induction fuel as [|fuel IH]; intros n L Hn HL.
  - simpl. split; [lia|constructor].
  - simpl. destruct (Z.ltb_spec n radix) as [Hlt|Hge].
    + simpl. split; [lia|]. constructor; [lia|constructor].
    + destruct L as [|[|L]]; [lia| |].
      * simpl in Hn. lia.
      * destruct (IH (n / radix) (S L)) as [Hlen Hall]; [|lia|].
        { split; [apply Z.div_pos; lia|].
          apply Z.div_lt_upper_bound; [lia|].
          replace (Z.of_nat (S (S L))) with (Z.succ (Z.of_nat (S L)))
            in Hn by lia.
          rewrite Z.pow_succ_r in Hn by lia. lia. }
        rewrite length_app. simpl. split; [lia|].
        apply Forall_app. split; [exact Hall|].
        constructor; [|constructor].
        apply Z.mod_pos_bound. lia.
Qed.

(** The fuel that [format] gives is enough: no digit is lost. *)
Lemma of_digits_app (radix acc : Z) (l1 l2 : list Z) :
  of_digits radix acc (l1 ++ l2) = of_digits radix (of_digits radix acc l1) l2.
Proof.
  revert acc. induction l1 as [|d l1 IH]; intros acc; simpl; auto.
Qed.

Lemma to_digits_complete (fuel : nat) (radix n : Z) :
  2 <= radix -> 0 <= n < 2 ^ Z.of_nat fuel -> (1 <= fuel)%nat ->
  of_digits radix 0 (to_digits fuel radix n) = n.
Proof.
  intros Hr. revert n. induction fuel as [|fuel IH]; intros n Hn Hf; [lia|].
  simpl. destruct (Z.ltb_spec n radix) as [Hlt|Hge]; [simpl; lia|].
  rewrite of_digits_app. simpl.
  destruct fuel as [|fuel'].
  - simpl in Hn. lia.
  - rewrite IH; [|split|lia].
    + rewrite Z.mul_comm. symmetry. apply Z.div_mod. lia.
    + apply Z.div_pos; lia.
    + apply Z.div_lt_upper_bound; [lia|].
      replace (Z.of_nat (S (S fuel'))) with (Z.succ (Z.of_nat (S fuel')))
        in Hn by lia.
      rewrite Z.pow_succ_r in Hn by lia. nia.
Qed.

Lemma string_of_list_length (l : list ascii) :
  String.length (string_of_list_ascii l) = List.length l.
Proof. induction l as [|c l IH]; simpl; congruence. Qed.

Lemma digit_char_not_sign (d : Z) :
  0 <= d < 16 ->
  (Ascii.eqb (digit_char d) "+" || Ascii.eqb (digit_char d) "-")%bool = false.
Proof.
  intros H.
  assert (Hall : forallb
                   (fun k => negb (Ascii.eqb (digit_char (Z.of_nat k)) "+"
                                   || Ascii.eqb (digit_char (Z.of_nat k)) "-"))
                   (seq 0 16) = true) by reflexivity.
  rewrite forallb_forall in Hall.
  specialize (Hall (Z.to_nat d)). rewrite Z2Nat.id in Hall by lia.
  apply negb_true_iff. apply Hall. apply in_seq. lia.
Qed.

Lemma zfill_chars_digits (digits : list Z) (width : Z) :
  digits <> [] -> Forall (fun d => 0 <= d < 16) digits ->
  Z.of_nat (List.length digits) <= width ->
  zfill_chars (map digit_char digits) width
  = repeat "0"%char (Z.to_nat (width - Z.of_nat (List.length digits)))
      ++ map digit_char digits.
Proof.
  intros Hne Hall Hlen. unfold zfill_chars. rewrite length_map.
  destruct (Z.leb_spec width (Z.of_nat (List.length digits))) as [Hle|Hgt].
  - replace (width - Z.of_nat (List.length digits)) with 0 by lia.
    reflexivity.
  - destruct digits as [|d rest]; [contradiction|]. simpl map.
    inversion Hall; subst.
    rewrite digit_char_not_sign by assumption. reflexivity.
Qed.

End DigitFacts.


Section BitStringFacts.
Import Encoder GeneBases.
Variable format_other : Z -> string -> result string.

Lemma to_digits_nonempty (fuel : nat) (radix n : Z) :
  to_digits (S fuel) radix n <> [].
Proof.
  simpl. destruct (n <? radix); [discriminate|].
  intros H. apply app_eq_nil in H. destruct H as [_ H]. discriminate H.
Qed.

Lemma all_results_map {A B} (P : B -> Prop) (f : A -> result B)
  (l : list A) :
  (forall k, In k l -> exists v, f k = ret v /\ P v) ->
  exists vs, all_results (map f l) = ret vs
             /\ List.length vs = List.length l
             /\ Forall P vs.
Proof.
  induction l as [|k l IH]; intros H.
  - exists []. simpl. auto.
  - destruct (H k (or_introl eq_refl)) as [v [Hv HP]].
    destruct IH as [vs [Hvs [Hlen Hall]]].
    { intros k' Hk'. apply H. now right. }
    exists (v :: vs). simpl. rewrite Hv. simpl. rewrite Hvs. simpl.
    auto.
Qed.

(** One chromosome: the digits of the random number, padded with zeros
    to the length. *)
Lemma padded_digits (format_ : string) (radix b length n : Z) :
  radix_of format_ = Some radix -> radix = 2 ^ b -> 1 <= b <= 4 ->
  1 <= length -> 0 <= n < 2 ^ (b * length) ->
  exists digits,
    (text <- format format_other n format_ ;; ret (zfill text length))
    = ret (string_of_list_ascii (map digit_char digits))
    /\ Z.of_nat (List.length digits) = length
    /\ Forall (fun d => 0 <= d < radix) digits.
Proof.
  intros Hfmt Hradix Hb Hlen Hn.
  unfold format. rewrite Hfmt. cbv zeta.
  rewrite Z.abs_eq by lia.
  destruct (Z.ltb_spec n 0) as [Hneg|_]; [lia|]. cbn [bind ret].
  assert (Hr2 : 2 <= radix).
  { subst radix. change 2 with (2 ^ 1) at 1.
    apply Z.pow_le_mono_r; lia. }
  assert (Hr16 : radix <= 16).
  { subst radix. change 16 with (2 ^ 4).
    apply Z.pow_le_mono_r; lia. }
  destruct (to_digits_spec (S (Z.to_nat (Z.log2 n))) radix n
              (Z.to_nat length) Hr2) as [Hds Hall]; [|lia|].
  { rewrite Z2Nat.id by lia. subst radix.
    rewrite <- Z.pow_mul_r by lia. exact Hn. }
  pose proof (to_digits_nonempty (Z.to_nat (Z.log2 n)) radix n) as Hne.
  set (ds := to_digits (S (Z.to_nat (Z.log2 n))) radix n) in *.
  exists (repeat 0 (Z.to_nat (length - Z.of_nat (List.length ds))) ++ ds).
  split; [|split].
  - unfold zfill. rewrite list_ascii_of_string_of_list_ascii.
    rewrite zfill_chars_digits; [|exact Hne| |lia].
    + rewrite map_app, map_repeat. reflexivity.
    + eapply Forall_impl; [|exact Hall]. intros d Hd. simpl in Hd. lia.
  - rewrite length_app, repeat_length. lia.
  - apply Forall_app. split; [|exact Hall].
    apply Forall_forall. intros d Hd. apply repeat_spec in Hd. lia.
Qed.

Lemma member_radix (m : BitStringBaseTypes) :
  exists radix,
    radix_of (format_ (value m)) = Some radix
    /\ radix = 2 ^ bits (value m)
    /\ 1 <= bits (value m) <= 4.
Proof.
  destruct m; eexists; (split; [reflexivity|]); simpl; split; lia.
Qed.

Lemma member_alphabet (m : BitStringBaseTypes) :
  exists values,
    all_values format_other (value m) = ret values
    /\ forall d, 0 <= d < 2 ^ bits (value m) ->
                 In (String (digit_char d) EmptyString) values.
Proof.
  destruct m; eexists; (split; [reflexivity|]); intros d Hd;
    simpl in Hd;
    assert (Hcases : d = 0 \/ d = 1 \/ d = 2 \/ d = 3 \/ d = 4 \/ d = 5
                     \/ d = 6 \/ d = 7 \/ d = 8 \/ d = 9 \/ d = 10
                     \/ d = 11 \/ d = 12 \/ d = 13 \/ d = 14 \/ d = 15)
      by lia;
    repeat (destruct Hcases as [-> | Hcases]); try subst d;
    try lia; simpl; tauto.
Qed.

End BitStringFacts.

(** X20.  For the three standard bit-string bases and a chromosome
    length of at least one, [random_chromosomes] returns [quantity]
    strings of exactly that length, every character of which is one of
    the base's values. *)
Theorem random_chromosomes_shape
  (format_other : Z -> string -> result string)
  (m : Encoder.BitStringBaseTypes) (raw : nat -> Z) (length quantity : Z) :
  1 <= length ->
  exists values chromosomes,
    GeneBases.all_values format_other (Encoder.value m) = ret values
    /\ GeneBases.random_chromosomes format_other (Encoder.value m) raw
         length quantity
       = ret chromosomes
    /\ List.length chromosomes = Z.to_nat quantity
    /\ Forall (fun c => Z.of_nat (String.length c) = length
                        /\ GeneBases.over_alphabet values c)
              chromosomes.
Proof.
  intros Hlen.
  destruct (member_radix m) as [radix [Hfmt [Hradix Hb]]].
  destruct (member_alphabet format_other m) as [values [Hvalues Hin]].
  exists values.
  destruct (all_results_map
              (fun c => Z.of_nat (String.length c) = length
                        /\ GeneBases.over_alphabet values c)
              (fun k =>
                 n <- GeneBases.randbits (raw k)
                        (GeneBases.chromosome_bits (Encoder.value m) length) ;;
                 text <- GeneBases.format format_other n
                           (Encoder.format_ (Encoder.value m)) ;;
                 ret (GeneBases.zfill text length))
              (seq 0 (Z.to_nat quantity)))
    as [chromosomes [Hcs [Hn Hall]]].
  - intros k _. unfold GeneBases.randbits, GeneBases.chromosome_bits.
    destruct (Z.ltb_spec (Encoder.bits (Encoder.value m) * length) 0)
      as [Hneg|_]; [nia|].
    cbn [bind ret].
    destruct (padded_digits format_other
                (Encoder.format_ (Encoder.value m)) radix
                (Encoder.bits (Encoder.value m)) length
                (raw k mod 2 ^ (Encoder.bits (Encoder.value m) * length))
                Hfmt Hradix Hb Hlen)
      as [digits [Htext [Hdlen Hdall]]].
    { apply Z.mod_pos_bound. apply Z.pow_pos_nonneg; nia. }
    eexists. split; [exact Htext|]. split.
    + rewrite string_of_list_length, length_map. exact Hdlen.
    + unfold GeneBases.over_alphabet.
      rewrite list_ascii_of_string_of_list_ascii.
      apply Forall_forall. intros c Hc.
      apply in_map_iff in Hc. destruct Hc as [d [<- Hd]].
      rewrite Forall_forall in Hdall. apply Hin.
      rewrite <- Hradix. apply Hdall, Hd.
  - exists chromosomes. split; [exact Hvalues|]. split; [exact Hcs|].
    rewrite length_seq in Hn. auto.
Qed.

Lemma random_chromosomes_shape_witness :
  exists values chromosomes,
    GeneBases.all_values (fun _ _ => raise ValueError)
      (Encoder.value Encoder.hex) = ret values
    /\ GeneBases.random_chromosomes (fun _ _ => raise ValueError)
         (Encoder.value Encoder.hex) (fun k => Z.of_nat k + 2748) 4 3
       = ret chromosomes
    /\ List.length chromosomes = 3%nat.
Proof.
  destruct (random_chromosomes_shape (fun _ _ => raise ValueError)
              Encoder.hex (fun k => Z.of_nat k + 2748) 4 3)
    as [values [chromosomes [H1 [H2 [H3 _]]]]].
  - lia.
  - exists values, chromosomes. auto.
Defined.


(** X21.  For the three standard bit-string bases [random_genes]
    returns [quantity] genes, each of them one of the base's values. *)
Theorem random_genes_are_values
  (format_other : Z -> string -> result string)
  (m : Encoder.BitStringBaseTypes) (raw : nat -> Z) (quantity : Z) :
  exists values genes,
    GeneBases.all_values format_other (Encoder.value m) = ret values
    /\ GeneBases.random_genes format_other (Encoder.value m) raw quantity
       = ret genes
    /\ List.length genes = Z.to_nat quantity
    /\ Forall (fun g => In g values) genes.
Proof.
  destruct (member_radix m) as [radix [Hfmt [Hradix Hb]]].
  destruct (member_alphabet format_other m) as [values [Hvalues Hin]].
  exists values.
  destruct (all_results_map (fun g => In g values)
              (fun k =>
                 n <- GeneBases.randbits (raw k)
                        (Encoder.bits (Encoder.value m)) ;;
                 GeneBases.format format_other n
                   (Encoder.format_ (Encoder.value m)))
              (seq 0 (Z.to_nat quantity)))
    as [genes [Hgs [Hn Hall]]].
  - intros k _. unfold GeneBases.randbits.
    destruct (Z.ltb_spec (Encoder.bits (Encoder.value m)) 0)
      as [Hneg|_]; [lia|].
    cbn [bind ret].
    set (n := raw k mod 2 ^ Encoder.bits (Encoder.value m)).
    assert (Hn : 0 <= n < radix).
    { subst radix. apply Z.mod_pos_bound. apply Z.pow_pos_nonneg; lia. }
    unfold GeneBases.format. rewrite Hfmt. cbv zeta.
    rewrite Z.abs_eq by lia.
    destruct (Z.ltb_spec n 0) as [Hneg|_]; [lia|].
    eexists. split; [reflexivity|].
    cbn [GeneBases.to_digits].
    destruct (Z.ltb_spec n radix) as [_|Hge]; [|lia].
    simpl. apply Hin. rewrite <- Hradix. exact Hn.
  - exists genes. split; [exact Hvalues|]. split; [exact Hgs|].
    rewrite length_seq in Hn. auto.
Qed.


(** ** mutate_population *)

Section MutatePopulationFacts.
Import Operators Populations.
Context {CT W : Type} (mutate : CT -> W -> W * result CT) (draw : nat -> Z).

Lemma skipn_nth_error_cons (l : list CT) (a : nat) (x : CT) :
  nth_error l a = Some x -> skipn a l = x :: skipn (S a) l.
Proof.
  revert l. induction a as [|a IH]; intros [|y l]; simpl; try discriminate.
  - intros H. injection H as ->. reflexivity.
  - intros H. apply (IH l H).
Qed.

Lemma firstn_nth_error_snoc (l : list CT) (a : nat) (x : CT) :
  nth_error l a = Some x -> firstn (S a) l = firstn a l ++ [x].
Proof.
  revert l. induction a as [|a IH]; intros [|y l]; simpl; try discriminate.
  - intros H. injection H as ->. reflexivity.
  - intros H. f_equal. apply (IH l H).
Qed.

Lemma setitem_length (l l' : list CT) (i : Z) (g : CT) :
  setitem l i g = inr l' -> List.length l' = List.length l.
Proof.
  unfold setitem. destruct (_ || _)%bool; [discriminate|].
  intros H. injection H as <-. apply set_nth_length.
Qed.

Lemma mutate_at_length (indices : list Z) (population mutated : list CT)
  (w w' : W) :
  mutate_at mutate indices population w = (w', inr mutated) ->
  List.length mutated = List.length population.
Proof.
  revert population w. induction indices as [|i rest IH];
    intros population w; simpl.
  - intros H. injection H as _ <-. reflexivity.
  - destruct (getitem population i) as [e|x]; [discriminate|].
    destruct (mutate x w) as [w1 [e|y]]; [discriminate|].
    destruct (setitem population i y) as [e|population'] eqn:Hset;
      [discriminate|].
    intros H. apply IH in H. rewrite H. eapply setitem_length, Hset.
Qed.

Lemma mutate_randomly_length (population mutated : list CT) (q : Z)
  (mutate_all : bool) (w w' : W) :
  mutate_randomly mutate draw population q mutate_all w = (w', inr mutated) ->
  List.length mutated = List.length population.
Proof.
  unfold mutate_randomly. destruct (_ || _)%bool.
  - destruct (choice_range _ _ _) as [e|indices]; [discriminate|].
    apply mutate_at_length.
  - intros H. injection H as _ <-. reflexivity.
Qed.

Lemma mutate_population_length (population mutated : list CT)
  (mutation_factor : Q) (mutate_all : bool) (w w' : W) :
  mutate_population mutate draw population mutation_factor mutate_all w
  = (w', inr mutated) ->
  List.length mutated = List.length population.
Proof.
  unfold mutate_population. cbv zeta.
  destruct (_ && _)%bool; [|apply mutate_randomly_length].
  destruct (_ =? 0); [discriminate|].
  destruct (IterTools.cycle_for _ _ _) as [e|indices]; [discriminate|].
  destruct (mutate_at mutate indices population w)
    as [w1 [e|population']] eqn:Hat; [discriminate|].
  intros H. apply mutate_randomly_length in H.
  apply mutate_at_length in Hat. congruence.
Qed.

Lemma Qfloor_mult_0 (q : Q) : Qfloor (inject_Z 0 * q) = 0.
Proof.
  rewrite <- (Qfloor_Z 0). apply Qfloor_comp. apply Qmult_0_l.
Qed.

(** A mutator that is a function of the individual alone. *)
Variable f : CT -> CT.
Hypothesis mutate_pure : forall c w, mutate c w = (w, ret (f c)).

Lemma mutate_at_range (population : list CT) (a m : nat) (w : W) :
  (a + m <= List.length population)%nat ->
  mutate_at mutate (map Z.of_nat (seq a m))
    (map f (firstn a population) ++ skipn a population) w
  = (w, ret (map f (firstn (a + m) population)
               ++ skipn (a + m) population)).
Proof.
  revert a. induction m as [|m IH]; intros a Hlen.
  - rewrite Nat.add_0_r. reflexivity.
  - simpl seq. simpl map. cbn [mutate_at].
    assert (Ha : (a < List.length population)%nat) by lia.
    destruct (nth_error population a) as [x|] eqn:Hx;
      [|apply nth_error_None in Hx; lia].
    pose proof (skipn_nth_error_cons population a x Hx) as Hsplit.
    assert (Hpre : List.length (map f (firstn a population)) = a).
    { rewrite length_map, length_firstn. lia. }
    assert (Hget : getitem (map f (firstn a population)
                              ++ skipn a population) (Z.of_nat a)
                   = inr x).
    { unfold getitem.
      destruct (Z.ltb_spec (Z.of_nat a) 0) as [Hneg|_]; [lia|].
      rewrite length_app, Hpre, length_skipn.
      destruct (Z.ltb_spec (Z.of_nat a) 0) as [Hneg|_]; [lia|].
      destruct (Z.leb_spec
                  (Z.of_nat (a + (List.length population - a)))
                  (Z.of_nat a)) as [Hout|_]; [lia|].
      simpl. rewrite Nat2Z.id.
      rewrite nth_error_app2 by lia. rewrite Hpre, Nat.sub_diag, Hsplit.
      reflexivity. }
    rewrite Hget, mutate_pure.
    assert (Hset : setitem (map f (firstn a population)
                              ++ skipn a population) (Z.of_nat a) (f x)
                   = inr (map f (firstn (S a) population)
                            ++ skipn (S a) population)).
    { rewrite setitem_in_range
        by (rewrite length_app, Hpre, length_skipn; lia).
      rewrite Nat2Z.id, Hsplit.
      assert (Hset' : forall (l1 l2 : list CT) y z,
                 set_nth (l1 ++ y :: l2) (List.length l1) z
                 = l1 ++ z :: l2).
      { clear. induction l1 as [|h l1 IHl]; intros l2 y z; simpl;
          [reflexivity|]. f_equal. apply IHl. }
      pose proof (Hset' (map f (firstn a population))
                    (skipn (S a) population) x (f x)) as Hs.
      rewrite Hpre in Hs. rewrite Hs.
      rewrite (firstn_nth_error_snoc population a x Hx).
      rewrite map_app, <- app_assoc. reflexivity. }
    cbn [ret]. rewrite Hset.
    rewrite (IH (S a)) by lia.
    replace (S a + m)%nat with (a + S m)%nat by lia. reflexivity.
Qed.

Lemma mutate_at_once (population : list CT) (w : W) :
  mutate_at mutate (map Z.of_nat (seq 0 (List.length population)))
    population w
  = (w, ret (map f population)).
Proof.
  pose proof (mutate_at_range population 0 (List.length population) w
                ltac:(lia)) as H.
  simpl in H. rewrite firstn_all, skipn_all, app_nil_r in H. exact H.
Qed.

Lemma mutate_at_app (l1 l2 : list Z) (population : list CT) (w : W) :
  mutate_at mutate (l1 ++ l2) population w
  = match mutate_at mutate l1 population w with
    | (w', inl e) => (w', inl e)
    | (w', inr population') => mutate_at mutate l2 population' w'
    end.
Proof.
  revert population w. induction l1 as [|i l1 IH]; intros population w;
    [reflexivity|].
  simpl. destruct (getitem population i) as [e|x]; [reflexivity|].
  destruct (mutate x w) as [w1 [e|y]]; [reflexivity|].
  destruct (setitem population i y) as [e|population']; [reflexivity|].
  apply IH.
Qed.

Lemma mutate_at_cycles (population : list CT) (k : nat) (w : W) :
  mutate_at mutate
    (List.concat
       (repeat (map Z.of_nat (seq 0 (List.length population))) k))
    population w
  = (w, ret (map (fun c => Nat.iter k f c) population)).
Proof.
  revert population. induction k as [|k IH]; intros population.
  - simpl. rewrite map_id. reflexivity.
  - simpl repeat. simpl List.concat.
    rewrite mutate_at_app, mutate_at_once.
    pose proof (IH (map f population)) as H.
    rewrite length_map in H. cbn [ret]. rewrite H. rewrite map_map.
    f_equal. f_equal. apply map_ext. intros c.
    symmetry. apply Nat.iter_succ_r.
Qed.

Lemma Qfloor_scaled (n k : Z) : Qfloor (inject_Z n * inject_Z k) = n * k.
Proof. rewrite <- inject_Z_mult. apply Qfloor_Z. Qed.

Lemma mutate_population_cycles (population : list CT) (mutation_factor : Q)
  (w : W) :
  let n := Z.of_nat (List.length population) in
  let mutations_quantity := Qfloor (inject_Z n * mutation_factor) in
  population <> [] ->
  n <= mutations_quantity ->
  mutate_population mutate draw population mutation_factor true w
  = mutate_randomly mutate draw
      (map (fun c => Nat.iter (Z.to_nat (mutations_quantity / n)) f c)
         population)
      (mutations_quantity mod n) true w.
Proof.
  intros n mq Hne Hle.
  assert (Hn : 0 < n).
  { subst n. destruct population; [contradiction|]. simpl List.length. lia. }
  unfold mutate_population. cbv zeta. fold n. fold mq.
  destruct (Z.leb_spec n mq) as [_|Hlt]; [|lia].
  destruct (Z.eqb_spec n 0) as [H0|_]; [lia|].
  cbn [andb].
  assert (Hc : 1 <= mq / n).
  { apply Z.div_le_lower_bound; lia. }
  assert (Hseq : map Z.of_nat (seq 0 (List.length population)) <> []).
  { destruct population; [contradiction|]. discriminate. }
  pose proof (cycle_for_whole Z _ (Z.to_nat (mq / n)) Hseq ltac:(lia))
    as [Hcycle _].
  rewrite Z2Nat.id in Hcycle by lia. rewrite Hcycle. cbn [ret].
  rewrite mutate_at_cycles. cbn [ret].
  replace (mq - n * (mq / n)) with (mq mod n)
    by (rewrite Z.mod_eq by lia; reflexivity).
  reflexivity.
Qed.

Lemma mutate_population_empty (mutation_factor : Q) (w : W) :
  mutate_population mutate draw [] mutation_factor true w
  = (w, raise ZeroDivisionError)
  /\ mutate_population mutate draw [] mutation_factor false w
     = (w, ret []).
Proof.
  unfold mutate_population. cbv zeta. simpl List.length.
  change (Z.of_nat 0) with 0. rewrite Qfloor_mult_0.
  split; reflexivity.
Qed.

Lemma mutate_population_negative (population : list CT)
  (mutation_factor : Q) (mutate_all : bool) (w : W) :
  population <> [] ->
  (mutation_factor < 0)%Q ->
  mutate_population mutate draw population mutation_factor mutate_all w
  = (w, raise ValueError).
Proof.
  intros Hne Hneg.
  set (n := Z.of_nat (List.length population)).
  assert (Hn : 0 < n).
  { subst n. destruct population; [contradiction|]. simpl List.length. lia. }
  assert (Hq : Qfloor (inject_Z n * mutation_factor) < 0).
  { assert (Hprod : (inject_Z n * mutation_factor < inject_Z 0)%Q).
    { assert (Hn' : (0 < inject_Z n)%Q) by (unfold Qlt; simpl; lia).
      change (inject_Z 0) with 0%Q.
      apply Qlt_le_trans with (inject_Z n * 0)%Q.
      - apply Qmult_lt_l; assumption.
      - rewrite Qmult_0_r. apply Qle_refl. }
    pose proof (Qfloor_le (inject_Z n * mutation_factor)) as Hfl.
    assert (Hlt : (inject_Z (Qfloor (inject_Z n * mutation_factor))
                   < inject_Z 0)%Q)
      by (eapply Qle_lt_trans; eassumption).
    rewrite <- Zlt_Qlt in Hlt. exact Hlt. }
  unfold mutate_population. cbv zeta. fold n.
  destruct (Z.leb_spec n (Qfloor (inject_Z n * mutation_factor)))
    as [Hle|_]; [lia|].
  rewrite andb_false_r.
  unfold mutate_randomly.
  destruct (Z.eqb_spec (Qfloor (inject_Z n * mutation_factor)) 0)
    as [H0|_]; [lia|].
  rewrite orb_true_r. unfold choice_range. fold n.
  destruct (Z.ltb_spec (Qfloor (inject_Z n * mutation_factor)) 0)
    as [_|Hge]; [reflexivity|lia].
Qed.

Lemma mutate_population_whole (population : list CT) (k : nat)
  (w : W) :
  population <> [] ->
  (1 <= k)%nat ->
  mutate_population mutate draw population (inject_Z (Z.of_nat k)) true w
  = (w, ret (map (fun c => Nat.iter k f c) population)).
Proof.
  intros Hne Hk.
  set (n := Z.of_nat (List.length population)).
  assert (Hn : 0 < n).
  { subst n. destruct population; [contradiction|]. simpl List.length. lia. }
  rewrite mutate_population_cycles; fold n.
  - rewrite Qfloor_scaled.
    replace (n * Z.of_nat k / n) with (Z.of_nat k)
      by (rewrite Z.mul_comm, Z.div_mul by lia; reflexivity).
    replace ((n * Z.of_nat k) mod n) with 0
      by (rewrite Z.mul_comm, Z.mod_mul by lia; reflexivity).
    rewrite Nat2Z.id. reflexivity.
  - exact Hne.
  - rewrite Qfloor_scaled. nia.
Qed.

End MutatePopulationFacts.

(** X22.  When [mutate_population] returns, the population it returns has
    as many individuals as the one it was given, whatever the mutator
    does and whichever indices are drawn. *)
Theorem mutate_population_keeps_size (CT W : Type)
  (mutate : CT -> W -> W * result CT) (draw : nat -> Z)
  (population mutated : list CT) (mutation_factor : Q) (mutate_all : bool)
  (w w' : W) :
  Populations.mutate_population mutate draw population mutation_factor
    mutate_all w
  = (w', inr mutated) ->
  List.length mutated = List.length population.
Proof. apply mutate_population_length. Qed.

(** X23.  On an empty population [mutate_population] raises
    [ZeroDivisionError] when [mutate_all] is set (the number of cycles is
    a quotient by the population size), and returns the empty population
    when it is not; the mutator is not called in either case. *)
Theorem mutate_population_of_nothing (CT W : Type)
  (mutate : CT -> W -> W * result CT) (draw : nat -> Z)
  (mutation_factor : Q) (w : W) :
  Populations.mutate_population mutate draw [] mutation_factor true w
  = (w, raise ZeroDivisionError)
  /\ Populations.mutate_population mutate draw [] mutation_factor false w
     = (w, ret []).
Proof. apply mutate_population_empty. Qed.

(** X24.  For a non-empty population and a negative mutation factor
    [mutate_population] raises [ValueError] (a negative number of indices
    is asked of the random generator) before any individual is mutated. *)
Theorem mutate_population_negative_factor (CT W : Type)
  (mutate : CT -> W -> W * result CT) (draw : nat -> Z)
  (population : list CT) (mutation_factor : Q) (mutate_all : bool)
  (w : W) :
  population <> [] ->
  (mutation_factor < 0)%Q ->
  Populations.mutate_population mutate draw population mutation_factor
    mutate_all w
  = (w, raise ValueError).
Proof. apply mutate_population_negative. Qed.

(** X25.  With [mutate_all] set, a non-empty population of [n] individuals
    and [n <= floor(n * mutation_factor)], a mutator that is a function
    [f] of the individual is first applied [floor(n * mutation_factor)
    // n] times to every individual, and the random stage then mutates
    [floor(n * mutation_factor) mod n] randomly drawn positions of the
    result. *)
Theorem mutate_population_cycles_then_random (CT W : Type)
  (mutate : CT -> W -> W * result CT) (draw : nat -> Z) (f : CT -> CT)
  (population : list CT) (mutation_factor : Q) (w : W) :
  let n := Z.of_nat (List.length population) in
  let mutations_quantity := Qfloor (inject_Z n * mutation_factor) in
  (forall c w0, mutate c w0 = (w0, ret (f c))) ->
  population <> [] ->
  n <= mutations_quantity ->
  Populations.mutate_population mutate draw population mutation_factor
    true w
  = Populations.mutate_randomly mutate draw
      (map (fun c => Nat.iter (Z.to_nat (mutations_quantity / n)) f c)
         population)
      (mutations_quantity mod n) true w.
Proof.
  intros n mutations_quantity Hpure. apply mutate_population_cycles, Hpure.
Qed.

(** X26.  With [mutate_all] set and a whole mutation factor [k >= 1],
    [mutate_population] applies a mutator that is a function [f] of the
    individual exactly [k] times to every individual of a non-empty
    population; the result does not depend on the random draws. *)
Theorem mutate_population_whole_factor (CT W : Type)
  (mutate : CT -> W -> W * result CT) (draw : nat -> Z) (f : CT -> CT)
  (population : list CT) (k : nat) (w : W) :
  (forall c w0, mutate c w0 = (w0, ret (f c))) ->
  population <> [] ->
  (1 <= k)%nat ->
  Populations.mutate_population mutate draw population
    (inject_Z (Z.of_nat k)) true w
  = (w, ret (map (fun c => Nat.iter k f c) population)).
Proof. intros Hpure. apply mutate_population_whole, Hpure. Qed.


Lemma mutate_population_keeps_size_witness :
  Populations.mutate_population (W := unit)
    (fun c w => (w, ret (c + 1))) (fun k => Z.of_nat k)
    [1; 2; 3] (1 # 2) false tt
  = (tt, inr [2; 2; 3])
  /\ List.length [2; 2; 3] = List.length [1; 2; 3].
Proof.
  assert (H : Populations.mutate_population (W := unit)
                (fun c w => (w, ret (c + 1))) (fun k => Z.of_nat k)
                [1; 2; 3] (1 # 2) false tt
              = (tt, inr [2; 2; 3])) by reflexivity.
  split; [exact H|].
  exact (mutate_population_keeps_size _ _ _ _ _ _ _ _ _ _ H).
Defined.

Lemma mutate_population_negative_factor_witness :
  Populations.mutate_population (W := unit)
    (fun c w => (w, ret (c + 1))) (fun k => Z.of_nat k)
    [1; 2; 3] (- 1 # 2) true tt
  = (tt, raise ValueError).
Proof.
  apply (mutate_population_negative_factor Z unit
           (fun c (w : unit) => (w, ret (c + 1))) (fun k => Z.of_nat k)
           [1; 2; 3] (- 1 # 2) true tt).
  - discriminate.
  - reflexivity.
Defined.

Lemma mutate_population_cycles_then_random_witness :
  Populations.mutate_population (W := unit)
    (fun c w => (w, ret (c + 1))) (fun k => Z.of_nat k)
    [1; 2] (3 # 2) true tt
  = Populations.mutate_randomly (W := unit)
      (fun c w => (w, ret (c + 1))) (fun k => Z.of_nat k)
      (map (fun c => Nat.iter 1 (fun c => c + 1) c) [1; 2]) 1 true tt.
Proof.
  apply (mutate_population_cycles_then_random Z unit
           (fun c (w : unit) => (w, ret (c + 1))) (fun k => Z.of_nat k)
           (fun c => c + 1) [1; 2] (3 # 2) tt).
  - intros c w0. reflexivity.
  - discriminate.
  - vm_compute. discriminate.
Defined.

Lemma mutate_population_whole_factor_witness :
  Populations.mutate_population (W := unit)
    (fun c w => (w, ret (c + 1))) (fun k => Z.of_nat k)
    [1; 2; 3] (inject_Z (Z.of_nat 2)) true tt
  = (tt, ret (map (fun c => Nat.iter 2 (fun c => c + 1) c) [1; 2; 3])).
Proof.
  apply (mutate_population_whole_factor Z unit
           (fun c (w : unit) => (w, ret (c + 1))) (fun k => Z.of_nat k)
           (fun c => c + 1) [1; 2; 3] 2 tt).
  - intros c w0. reflexivity.
  - discriminate.
  - lia.
Defined.


(** ** getitem_zip *)

Section GetitemZipFacts.
Import GetitemZip.
Context {V : Type}.

Lemma fold_min_spec (rest : list Z) (x : Z) :
  In (fold_left Z.min rest x) (x :: rest)
  /\ forall y, In y (x :: rest) -> fold_left Z.min rest x <= y.
Proof.
  revert x. induction rest as [|a rest IH]; intros x; simpl.
  - split; [now left|]. intros y [<-|[]]. lia.
  - destruct (IH (Z.min x a)) as [Hin Hle]. split.
    + destruct Hin as [Hin|Hin]; [|now right; right].
      rewrite <- Hin. destruct (Z.min_spec x a) as [[_ ->]|[_ ->]];
        [now left|now right; left].
    + intros y Hy.
      assert (Hm : fold_left Z.min rest (Z.min x a) <= Z.min x a)
        by (apply Hle; now left).
      destruct Hy as [<-|[<-|Hy]]; [lia|lia|].
      apply Hle. now right.
Qed.

Lemma fold_max_spec (rest : list Z) (x : Z) :
  In (fold_left Z.max rest x) (x :: rest)
  /\ forall y, In y (x :: rest) -> y <= fold_left Z.max rest x.
Proof.
  revert x. induction rest as [|a rest IH]; intros x; simpl.
  - split; [now left|]. intros y [<-|[]]. lia.
  - destruct (IH (Z.max x a)) as [Hin Hle]. split.
    + destruct Hin as [Hin|Hin]; [|now right; right].
      rewrite <- Hin. destruct (Z.max_spec x a) as [[_ ->]|[_ ->]];
        [now right; left|now left].
    + intros y Hy.
      assert (Hm : Z.max x a <= fold_left Z.max rest (Z.max x a))
        by (apply Hle; now left).
      destruct Hy as [<-|[<-|Hy]]; [lia|lia|].
      apply Hle. now right.
Qed.

Lemma min_of_spec (seqs : list (list V)) (n : Z) :
  min_of (lengths seqs) = ret n ->
  exists k, n = Z.of_nat k /\ is_shortest seqs k.
Proof.
  destruct seqs as [|s0 rest]; [discriminate|].
  unfold lengths. simpl. intros H. injection H as <-.
  destruct (fold_min_spec
              (map (fun seq => Z.of_nat (List.length seq)) rest)
              (Z.of_nat (List.length s0))) as [Hin Hle].
  change (Z.of_nat (List.length s0)
          :: map (fun seq => Z.of_nat (List.length seq)) rest)
    with (map (fun seq : list V => Z.of_nat (List.length seq)) (s0 :: rest))
    in Hin, Hle.
  apply in_map_iff in Hin. destruct Hin as [s [Hs Hin]].
  exists (List.length s). split; [symmetry; exact Hs|]. split.
  - exists s. auto.
  - intros t Ht.
    assert (H : Z.of_nat (List.length s) <= Z.of_nat (List.length t)).
    { rewrite Hs. apply Hle. apply in_map_iff. exists t. auto. }
    lia.
Qed.

Lemma max_of_spec (seqs : list (list V)) (n : Z) :
  max_of (lengths seqs) = ret n ->
  exists k, n = Z.of_nat k /\ is_longest seqs k.
Proof.
  destruct seqs as [|s0 rest]; [discriminate|].
  unfold lengths. simpl. intros H. injection H as <-.
  destruct (fold_max_spec
              (map (fun seq => Z.of_nat (List.length seq)) rest)
              (Z.of_nat (List.length s0))) as [Hin Hle].
  change (Z.of_nat (List.length s0)
          :: map (fun seq => Z.of_nat (List.length seq)) rest)
    with (map (fun seq : list V => Z.of_nat (List.length seq)) (s0 :: rest))
    in Hin, Hle.
  apply in_map_iff in Hin. destruct Hin as [s [Hs Hin]].
  exists (List.length s). split; [symmetry; exact Hs|]. split.
  - exists s. auto.
  - intros t Ht.
    assert (H : Z.of_nat (List.length t) <= Z.of_nat (List.length s)).
    { rewrite Hs. apply Hle. apply in_map_iff. exists t. auto. }
    lia.
Qed.

Lemma heads_none (seqs : list (list V)) :
  heads seqs = None <-> exists s, In s seqs /\ s = [].
Proof.
  induction seqs as [|s rest IH]; simpl.
  - split; [discriminate|]. intros [s [[] _]].
  - destruct s as [|x s].
    + split; [|reflexivity]. intros _. exists []. auto.
    + destruct (heads rest) as [row|].
      * split; [discriminate|].
        intros [t [[Ht|Ht] ->]]; [discriminate|].
        destruct IH as [_ IH]. discriminate IH. exists []. auto.
      * split; [|reflexivity]. intros _.
        destruct IH as [IH _]. destruct (IH eq_refl) as [t [Ht ->]].
        exists []. auto.
Qed.

Lemma tails_shortest (seqs : list (list V)) (n : nat) :
  is_shortest seqs (S n) -> is_shortest (tails seqs) n.
Proof.
  intros [[s [Hs Hlen]] Hall]. split.
  - exists (tl s). split; [apply in_map, Hs|].
    destruct s; simpl in *; [discriminate|lia].
  - intros t Ht. apply in_map_iff in Ht. destruct Ht as [u [<- Hu]].
    specialize (Hall u Hu). destruct u; simpl in *; lia.
Qed.

Lemma tails_longest (seqs : list (list V)) (n : nat) :
  is_longest seqs (S n) -> is_longest (tails seqs) n.
Proof.
  intros [[s [Hs Hlen]] Hall]. split.
  - exists (tl s). split; [apply in_map, Hs|].
    destruct s; simpl in *; [discriminate|lia].
  - intros t Ht. apply in_map_iff in Ht. destruct Ht as [u [<- Hu]].
    specialize (Hall u Hu). destruct u; simpl in *; lia.
Qed.

Lemma zip_loop_length (n fuel : nat) (seqs : list (list V)) :
  is_shortest seqs n -> (n < fuel)%nat ->
  List.length (zip_loop fuel seqs) = n.
Proof.
  revert fuel seqs. induction n as [|n IH]; intros fuel seqs Hn Hfuel;
    (destruct fuel as [|fuel]; [lia|]); simpl.
  - destruct Hn as [[s [Hs Hlen]] _].
    assert (Hnone : heads seqs = None).
    { apply heads_none. exists s. split; [exact Hs|].
      destruct s; [reflexivity|discriminate]. }
    rewrite Hnone. reflexivity.
  - destruct (heads seqs) as [row|] eqn:Hh.
    + simpl. f_equal. apply IH; [apply tails_shortest, Hn|lia].
    + apply heads_none in Hh. destruct Hh as [s [Hs ->]].
      destruct Hn as [_ Hall]. specialize (Hall [] Hs). simpl in Hall. lia.
Qed.

Lemma exhausted_true (seqs : list (list V)) :
  exhausted seqs = true <-> forall s, In s seqs -> s = [].
Proof.
  unfold exhausted. rewrite forallb_forall. split.
  - intros H s Hs. specialize (H s Hs). destruct s; [reflexivity|discriminate].
  - intros H s Hs. rewrite (H s Hs). reflexivity.
Qed.

Lemma zip_longest_loop_length (n fuel : nat) (fillvalue : V)
  (seqs : list (list V)) :
  is_longest seqs n -> (n < fuel)%nat ->
  List.length (zip_longest_loop fuel fillvalue seqs) = n.
Proof.
  revert fuel seqs. induction n as [|n IH]; intros fuel seqs Hn Hfuel;
    (destruct fuel as [|fuel]; [lia|]); simpl.
  - assert (He : exhausted seqs = true).
    { apply exhausted_true. intros s Hs. destruct Hn as [_ Hall].
      specialize (Hall s Hs). destruct s; [reflexivity|simpl in Hall; lia]. }
    rewrite He. reflexivity.
  - destruct (exhausted seqs) eqn:He.
    + destruct Hn as [[s [Hs Hlen]] _].
      rewrite exhausted_true in He. rewrite (He s Hs) in Hlen. discriminate.
    + simpl. f_equal. apply IH; [apply tails_longest, Hn|lia].
Qed.

Lemma getitem_of_nat (s : list V) (i : nat) :
  getitem s (Z.of_nat i)
  = match nth_error s i with
    | Some x => inr x
    | None => inl IndexError
    end.
Proof.
  unfold getitem.
  destruct (Z.ltb_spec (Z.of_nat i) 0) as [Hneg|_]; [lia|].
  destruct (Z.ltb_spec (Z.of_nat i) 0) as [Hneg|_]; [lia|].
  rewrite Nat2Z.id.
  destruct (Z.leb_spec (Z.of_nat (List.length s)) (Z.of_nat i)) as [Hout|_].
  - simpl. assert (H : nth_error s i = None)
      by (apply nth_error_None; lia).
    rewrite H. reflexivity.
  - reflexivity.
Qed.

Lemma heads_row (seqs : list (list V)) (row : list V) :
  heads seqs = Some row ->
  GeneBases.all_results
    (map (fun s => match nth_error s 0 with
                   | Some x => inr x
                   | None => inl IndexError
                   end) seqs)
  = ret row.
Proof.
  revert row. induction seqs as [|s rest IH]; intros row; simpl.
  - intros H. injection H as <-. reflexivity.
  - destruct s as [|x s]; [discriminate|].
    destruct (heads rest) as [row'|]; [|discriminate].
    intros H. injection H as <-.
    pose proof (IH row' eq_refl) as H. simpl in H |- *.
    rewrite H. reflexivity.
Qed.

Lemma zip_loop_row (i fuel : nat) (seqs : list (list V)) (row : list V) :
  nth_error (zip_loop fuel seqs) i = Some row ->
  GeneBases.all_results
    (map (fun s => match nth_error s i with
                   | Some x => inr x
                   | None => inl IndexError
                   end) seqs)
  = ret row.
Proof.
  revert fuel seqs. induction i as [|i IH]; intros fuel seqs;
    (destruct fuel as [|fuel]; [discriminate|]); simpl;
    (destruct (heads seqs) as [row'|] eqn:Hh; [|discriminate]); simpl.
  - intros H. injection H as <-. apply heads_row, Hh.
  - intros H. apply IH in H. unfold tails in H. rewrite map_map in H.
    rewrite <- H. f_equal. apply map_ext. intros s.
    destruct s; [destruct i|]; reflexivity.
Qed.

Lemma zip_longest_loop_row (i fuel : nat) (fillvalue : V)
  (seqs : list (list V)) (row : list V) :
  nth_error (zip_longest_loop fuel fillvalue seqs) i = Some row ->
  row = map (fun s => match nth_error s i with
                      | Some x => x
                      | None => fillvalue
                      end) seqs.
Proof.
  revert fuel seqs. induction i as [|i IH]; intros fuel seqs;
    (destruct fuel as [|fuel]; [discriminate|]); simpl;
    (destruct (exhausted seqs); [discriminate|]); simpl.
  - intros H. injection H as <-. unfold heads_longest.
    apply map_ext. intros s. destruct s; reflexivity.
  - intros H. apply IH in H. unfold tails in H. rewrite map_map in H.
    rewrite H. apply map_ext. intros s.
    destruct s; [destruct i|]; reflexivity.
Qed.

Lemma all_results_ret {A : Type} (g : A -> V) (l : list A) :
  GeneBases.all_results (map (fun x => ret (g x)) l) = ret (map g l).
Proof.
  induction l as [|x l IH]; [reflexivity|]. simpl. rewrite IH. reflexivity.
Qed.

Lemma longest_bound (seqs : list (list V)) (s : list V) :
  In s seqs -> (List.length s <= longest seqs)%nat.
Proof.
  unfold longest. induction seqs as [|t rest IH]; simpl; [intros []|].
  intros [->|Hs]; [lia|]. specialize (IH Hs). lia.
Qed.

Lemma getitem_zip_rows (seqs : list (list V)) (shortest_ : bool)
  (fill_ : V) (strict : bool) (z : getitem_zip V) :
  init seqs shortest_ fill_ strict = ret z ->
  0 <= len_ z
  /\ List.length (iter z) = Z.to_nat (len_ z)
  /\ forall index row,
       nth_error (iter z) index = Some row ->
       getitem_ z (Z.of_nat index) = ret row.
Proof.
  unfold init. destruct (_ && _)%bool; [discriminate|].
  destruct shortest_.
  - destruct (min_of (lengths seqs)) as [e|n] eqn:Hmin; [discriminate|].
    simpl. intros H. injection H as <-.
    destruct (min_of_spec seqs n Hmin) as [k [-> Hk]].
    unfold len_, iter, getitem_. simpl.
    split; [lia|]. split.
    + rewrite Nat2Z.id. unfold zip.
      destruct seqs as [|first rest] eqn:Hseqs.
      * destruct Hk as [[s [[] _]] _].
      * rewrite <- Hseqs in *. apply zip_loop_length; [exact Hk|].
        destruct Hk as [_ Hall].
        assert (Hf : In first seqs) by (rewrite Hseqs; now left).
        specialize (Hall first Hf). lia.
    + intros index row Hrow. unfold zip in Hrow.
      destruct seqs as [|first rest] eqn:Hseqs; [destruct index; discriminate|].
      rewrite <- Hseqs in *. apply zip_loop_row in Hrow.
      rewrite <- Hrow. f_equal. apply map_ext. intros s.
      apply getitem_of_nat.
  - destruct (max_of (lengths seqs)) as [e|n] eqn:Hmax; [discriminate|].
    simpl. intros H. injection H as <-.
    destruct (max_of_spec seqs n Hmax) as [k [-> Hk]].
    unfold len_, iter, getitem_. simpl.
    split; [lia|]. split.
    + rewrite Nat2Z.id. unfold zip_longest.
      apply zip_longest_loop_length; [exact Hk|].
      destruct Hk as [[s [Hs <-]] _].
      pose proof (longest_bound seqs s Hs). lia.
    + intros index row Hrow. unfold zip_longest in Hrow.
      apply zip_longest_loop_row in Hrow. subst row.
      rewrite <- (all_results_ret
                    (fun s => match nth_error s index with
                              | Some x => x
                              | None => fill_
                              end)).
      f_equal. apply map_ext. intros s.
      destruct (Z.ltb_spec (Z.of_nat index) (Z.of_nat (List.length s)))
        as [Hin|Hout].
      * rewrite getitem_of_nat.
        destruct (nth_error s index) eqn:E; [reflexivity|].
        apply nth_error_None in E. lia.
      * assert (E : nth_error s index = None)
          by (apply nth_error_None; lia).
        rewrite E. reflexivity.
Qed.

End GetitemZipFacts.


Lemma all_equal_pairwise {A : Type} (eqb : A -> A -> bool)
  (iterable : list A) (by_count : bool) :
  (forall x y, eqb x y = true <-> x = y) ->
  IterTools.all_equal eqb iterable by_count = true
  <-> forall x y, In x iterable -> In y iterable -> x = y.
Proof.
  intros Heq. rewrite (all_equal_head eqb Heq).
  destruct iterable as [|x rest].
  - split; [intros _ a b []|auto].
  - rewrite Forall_forall. split.
    + intros H a b Ha Hb.
      assert (Hx : forall z, In z (x :: rest) -> z = x).
      { intros z [<-|Hz]; [reflexivity|apply H, Hz]. }
      rewrite (Hx a Ha), (Hx b Hb). reflexivity.
    + intros H y Hy. apply H; [now right|now left].
Qed.

Section GetitemZipStrictFacts.
Import GetitemZip.
Context {V : Type}.

Lemma lengths_equal (seqs : list (list V)) :
  IterTools.all_equal Z.eqb (lengths seqs) false = true
  <-> forall s t, In s seqs -> In t seqs -> List.length s = List.length t.
Proof.
  rewrite (all_equal_pairwise Z.eqb (lengths seqs) false Z.eqb_eq).
  unfold lengths. split.
  - intros H s t Hs Ht. apply Nat2Z.inj. apply H.
    + apply in_map_iff. exists s. auto.
    + apply in_map_iff. exists t. auto.
  - intros H x y Hx Hy.
    apply in_map_iff in Hx. destruct Hx as [s [<- Hs]].
    apply in_map_iff in Hy. destruct Hy as [t [<- Ht]].
    rewrite (H s t Hs Ht). reflexivity.
Qed.

Lemma init_strict (seqs : list (list V)) (shortest_ : bool) (fill_ : V) :
  ((exists z, init seqs shortest_ fill_ true = ret z)
   <-> seqs <> []
       /\ forall s t, In s seqs -> In t seqs ->
                      List.length s = List.length t)
  /\ forall z, init seqs shortest_ fill_ true = ret z ->
               forall s, In s seqs -> len_ z = Z.of_nat (List.length s).
Proof.
  split; [split|].
  - intros [z Hz]. unfold init in Hz. cbn [andb] in Hz.
    destruct (IterTools.all_equal Z.eqb (lengths seqs) false) eqn:Heq;
      [|discriminate].
    split; [|apply lengths_equal, Heq].
    intros ->. destruct shortest_; discriminate.
  - intros [Hne Hall]. apply lengths_equal in Hall.
    unfold init. cbn [andb]. rewrite Hall. cbn [negb].
    destruct seqs as [|s0 rest]; [contradiction|].
    destruct shortest_; eexists; reflexivity.
  - intros z Hz s Hs. unfold init in Hz. cbn [andb] in Hz.
    destruct (IterTools.all_equal Z.eqb (lengths seqs) false) eqn:Heq;
      [|discriminate].
    pose proof (proj1 (lengths_equal seqs) Heq) as Hall.
    cbn [negb] in Hz. destruct shortest_.
    + destruct (min_of (lengths seqs)) as [e|n] eqn:Hmin; [discriminate|].
      injection Hz as <-. unfold len_. simpl.
      destruct (min_of_spec seqs n Hmin) as [k [-> [[t [Ht <-]] _]]].
      rewrite (Hall t s Ht Hs). reflexivity.
    + destruct (max_of (lengths seqs)) as [e|n] eqn:Hmax; [discriminate|].
      injection Hz as <-. unfold len_. simpl.
      destruct (max_of_spec seqs n Hmax) as [k [-> [[t [Ht <-]] _]]].
      rewrite (Hall t s Ht Hs). reflexivity.
Qed.

End GetitemZipStrictFacts.

(** X27.  A [getitem_zip] that was constructed has a length that is not
    negative, iterating over it yields exactly that many tuples, and for
    every index [0 <= index < len] indexing returns the tuple that the
    iteration yields at that position, for zipping to the shortest as for
    zipping to the longest sequence with a fill value. *)
Theorem getitem_zip_index_agrees_with_iteration (V : Type)
  (seqs : list (list V)) (shortest : bool) (fill : V) (strict : bool)
  (z : GetitemZip.getitem_zip V) :
  GetitemZip.init seqs shortest fill strict = ret z ->
  0 <= GetitemZip.len_ z
  /\ Z.of_nat (List.length (GetitemZip.iter z)) = GetitemZip.len_ z
  /\ forall index, 0 <= index < GetitemZip.len_ z ->
       exists row,
         nth_error (GetitemZip.iter z) (Z.to_nat index) = Some row
         /\ GetitemZip.getitem_ z index = ret row.
Proof.
  intros Hz.
  destruct (getitem_zip_rows seqs shortest fill strict z Hz)
    as [Hpos [Hlen Hrows]].
  split; [exact Hpos|]. split; [lia|].
  intros index Hi.
  destruct (nth_error (GetitemZip.iter z) (Z.to_nat index)) as [row|] eqn:E.
  - exists row. split; [reflexivity|].
    rewrite <- (Z2Nat.id index) by lia. apply Hrows, E.
  - apply nth_error_None in E. lia.
Qed.

Lemma getitem_zip_index_agrees_with_iteration_witness :
  GetitemZip.init [[1; 2; 3]; [4; 5]] false 0 false
  = ret {| GetitemZip.sequences := [[1; 2; 3]; [4; 5]];
           GetitemZip.shortest := false;
           GetitemZip.len := 3;
           GetitemZip.fill := 0 |}
  /\ exists row,
       nth_error
         (GetitemZip.iter
            {| GetitemZip.sequences := [[1; 2; 3]; [4; 5]];
               GetitemZip.shortest := false;
               GetitemZip.len := 3;
               GetitemZip.fill := 0 |}) 2
       = Some row
       /\ GetitemZip.getitem_
            {| GetitemZip.sequences := [[1; 2; 3]; [4; 5]];
               GetitemZip.shortest := false;
               GetitemZip.len := 3;
               GetitemZip.fill := 0 |} 2
          = ret row.
Proof.
  assert (H : GetitemZip.init [[1; 2; 3]; [4; 5]] false 0 false
              = ret {| GetitemZip.sequences := [[1; 2; 3]; [4; 5]];
                       GetitemZip.shortest := false;
                       GetitemZip.len := 3;
                       GetitemZip.fill := 0 |}) by reflexivity.
  split; [exact H|].
  destruct (getitem_zip_index_agrees_with_iteration Z _ _ _ _ _ H)
    as [_ [_ Hrow]].
  apply (Hrow 2). simpl. lia.
Defined.

(** X28.  With [strict] set, a [getitem_zip] is constructed exactly when
    there is at least one sequence and all sequences have the same
    length (otherwise [ValueError] is raised), and its length is then the
    length of every zipped sequence, whether zipping to the shortest or
    to the longest. *)
Theorem getitem_zip_strict (V : Type) (seqs : list (list V))
  (shortest : bool) (fill : V) :
  ((exists z, GetitemZip.init seqs shortest fill true = ret z)
   <-> seqs <> []
       /\ forall s t, In s seqs -> In t seqs ->
                      List.length s = List.length t)
  /\ (forall z, GetitemZip.init seqs shortest fill true = ret z ->
                forall s, In s seqs ->
                          GetitemZip.len_ z = Z.of_nat (List.length s))
  /\ ((forall z, GetitemZip.init seqs shortest fill true <> ret z) ->
      GetitemZip.init seqs shortest fill true = raise ValueError).
Proof.
  destruct (init_strict seqs shortest fill) as [H1 H2].
  split; [exact H1|]. split; [exact H2|].
  clear H1 H2. intros Hnone. unfold GetitemZip.init in *.
  destruct (_ && _)%bool; [reflexivity|].
  destruct seqs as [|s0 rest]; destruct shortest; try reflexivity;
    exfalso; eapply Hnone; reflexivity.
Qed.
